(** * ygot: path algebra, diff engine, mutation engine and leafref paths

    A shallow embedding of
    - [ygot/diff.go]        (pathSpec, nodeValuePath, leastSpecificPath, Diff),
    - [ytypes] set-request unmarshalling (UnmarshalNotifications,
      UnmarshalSetRequest, deletePaths, replacePaths, updatePaths),
    - [ygen/schematree.go]  (splitXPATHParts, removeXPATHNamespaces,
      fixSchemaTreePath),
    followed by the properties of these functions.

    Conventions.
    - A Go call that returns [(T, error)] is a [result T]; an index out of
      range is the third outcome, [Panic].
    - A Go slice whose nil-ness the code tests is a [slice A]: [None] is the
      nil slice, [Some l] a non-nil slice with elements [l].
    - A Go pointer whose nil-ness the code tests is an [option].
    - A Go string is the [string] of its bytes; a [range] loop over it reads
      runes, each kept as the bytes of its UTF-8 encoding.
    - A Go [map] with string keys is a [gmap string _]; the order in which a
      [range] loop visits a map is not fixed by Go, so every such loop takes
      the order as an explicit argument.
    - Code that mutates the tree in place is a function from the tree to the
      new tree and the error, if any: the tree is returned also on error. *)

From Stdlib Require Import Ascii String.
From stdpp Require Import gmap strings list fin_maps sorting.

#[local] Set Warnings "-register-all".


(** ** Outcomes of a call *)

Inductive result (A : Type) : Type :=
| Ok (a : A)
| Err (msg : string)
| Panic.
Arguments Ok {A} a.
Arguments Err {A} msg.
Arguments Panic {A}.

Definition is_Ok {A} (r : result A) : Prop :=
  match r with Ok _ => True | _ => False end.

Definition is_Err {A} (r : result A) : Prop :=
  match r with Err _ => True | _ => False end.

Definition bindR {A B} (r : result A) (k : A → result B) : result B :=
  match r with
  | Ok a => k a
  | Err e => Err e
  | Panic => Panic
  end.

#[global] Instance result_bind : MBind result := fun A B k r => bindR r k.
#[global] Instance result_ret : MRet result := @Ok.

Definition wrapErr {A} (prefix : string) (r : result A) : result A :=
  match r with
  | Err e => Err (prefix +:+ e)
  | other => other
  end.

(** A loop that calls [f] on every element and returns at the first error. *)
Fixpoint mapR {A B} (f : A → result B) (l : list A) : result (list B) :=
  match l with
  | [] => Ok []
  | x :: rest =>
      match f x with
      | Ok y =>
          match mapR f rest with
          | Ok ys => Ok (y :: ys)
          | Err e => Err e
          | Panic => Panic
          end
      | Err e => Err e
      | Panic => Panic
      end
  end.

(** ** Go slices *)

Definition slice (A : Type) : Type := option (list A).

Definition elems {A} (s : slice A) : list A := default [] s.
Definition len {A} (s : slice A) : nat := length (elems s).
Definition is_nil {A} (s : slice A) : bool :=
  match s with None => true | Some _ => false end.

(** ** gNMI messages: paths (the v0.4.0 [Elem] field, the only one diff.go
    fills), updates, notifications and set requests *)

Module gnmi.

Record PathElem := mkPathElem {
  Name : string;
  Key : gmap string string
}.

Record Path := mkPath { Elem : list PathElem }.

#[global] Instance PathElem_eq_dec : EqDecision PathElem.
Proof. solve_decision. Defined.
#[global] Instance Path_eq_dec : EqDecision Path.
Proof. solve_decision. Defined.

(** [proto.Equal] on two paths: same elements, element by element. *)
Definition proto_Equal (a b : Path) : bool := bool_decide (a = b).

Record Update (TypedValue : Type) := mkUpdate {
  uPath : Path;
  uVal : TypedValue
}.
Arguments mkUpdate {TypedValue}.
Arguments uPath {TypedValue}.
Arguments uVal {TypedValue}.

Record Notification (TypedValue : Type) := mkNotification {
  nPrefix : option Path;
  nUpdate : list (Update TypedValue);
  nDelete : list Path;
  nAtomic : bool
}.
Arguments mkNotification {TypedValue}.
Arguments nPrefix {TypedValue}.
Arguments nUpdate {TypedValue}.
Arguments nDelete {TypedValue}.
Arguments nAtomic {TypedValue}.

Record SetRequest (TypedValue : Type) := mkSetRequest {
  sPrefix : option Path;
  sDelete : list Path;
  sReplace : list (Update TypedValue);
  sUpdate : list (Update TypedValue)
}.
Arguments mkSetRequest {TypedValue}.
Arguments sPrefix {TypedValue}.
Arguments sDelete {TypedValue}.
Arguments sReplace {TypedValue}.
Arguments sUpdate {TypedValue}.

End gnmi.

(** ** Package ygot: diff.go *)

Module ygot.
Import gnmi.

Definition schemaPathTogNMIPath (path : slice string) : Path :=
  mkPath (map (fun pe => mkPathElem pe ∅) (elems path)).

Definition joingNMIPaths (parent child : Path) : Path :=
  mkPath (Elem parent ++ Elem child).

(** ** pathSpec *)

Record pathSpec := mkPathSpec { gNMIPaths : slice Path }.

#[global] Instance pathSpec_eq_dec : EqDecision pathSpec.
Proof. solve_decision. Defined.

(** [(p *pathSpec) Equal(o *pathSpec)]: the outer loop ranges over the
    receiver's paths, the inner loop looks for a match among [o]'s. *)
Definition Equal (p o : option pathSpec) : bool :=
  match p, o with
  | Some p', Some o' =>
      forallb
        (fun path => existsb (fun otherPath => proto_Equal path otherPath)
                       (elems (gNMIPaths o')))
        (elems (gNMIPaths p'))
  | None, None => true
  | _, _ => false
  end.

(** Two pathSpecs hold the same set of addresses. *)
Definition same_path_set (p o : pathSpec) : Prop :=
  ∀ x : Path, x ∈ elems (gNMIPaths p) ↔ x ∈ elems (gNMIPaths o).

(** ** leastSpecificPath *)

Fixpoint leastSpecificPath_from (shortPath : slice string)
    (paths : list (slice string)) : slice string :=
  match paths with
  | [] => shortPath
  | p :: rest =>
      let shortPath1 := if is_nil shortPath then p else shortPath in
      let shortPath2 := if (len p <? len shortPath1)%nat then p else shortPath1 in
      leastSpecificPath_from shortPath2 rest
  end.

Definition leastSpecificPath (paths : list (slice string)) : slice string :=
  leastSpecificPath_from None paths.

(** ** Diff options *)

Record DiffPathOpt := mkDiffPathOpt {
  MapToSinglePath : bool;
  PreferShadowPath : bool
}.

(** A [DiffOpt] is an interface value holding a [*IgnoreAdditions] or a
    [*DiffPathOpt]; either pointer may be nil. *)
Inductive DiffOpt :=
| IgnoreAdditions_ptr (v : option unit)
| DiffPathOpt_ptr (v : option DiffPathOpt).

Fixpoint hasDiffPathOpt (opts : list DiffOpt) : option DiffPathOpt :=
  match opts with
  | [] => None
  | DiffPathOpt_ptr v :: _ => v
  | _ :: rest => hasDiffPathOpt rest
  end.

Fixpoint hasIgnoreAdditions (opts : list DiffOpt) : option unit :=
  match opts with
  | [] => None
  | IgnoreAdditions_ptr v :: _ => v
  | _ :: rest => hasIgnoreAdditions rest
  end.

(** ** Path algebra: the address set of a node *)

Section PathAlgebra.

(** A list key's value before it is turned into a string, and
    [keyMapAsStrings] (ygot/struct_validation_map.go), which stringifies a key
    mapping according to each key leaf's type. *)
Variable KeyVal : Type.
Variable keyMapAsStrings : gmap string KeyVal → result (gmap string string).

(** A list entry of the generated code: [ΛListKeyMap] returns its keys. *)
Record KeyHelperGoStruct := mkKeyHelper {
  ΛListKeyMap : result (gmap string KeyVal)
}.

(** An entry of [NodeInfo.Annotation]: a [*pathSpec] or something else. *)
Inductive annotation :=
| A_pathSpec (p : option pathSpec)
| A_other.

(** The part of [util.NodeInfo] that nodeValuePath reads: the parent, the
    annotations and whether the field value implements KeyHelperGoStruct. *)
Inductive NodeInfo :=
| mkNodeInfo (Parent : option NodeInfo) (Annotation : slice annotation)
    (FieldValue : option KeyHelperGoStruct).

Definition Parent (ni : NodeInfo) : option NodeInfo :=
  match ni with mkNodeInfo p _ _ => p end.
Definition Annotation (ni : NodeInfo) : slice annotation :=
  match ni with mkNodeInfo _ a _ => a end.
Definition FieldValue (ni : NodeInfo) : option KeyHelperGoStruct :=
  match ni with mkNodeInfo _ _ v => v end.

Definition nodeRootPath (schemaPaths : list (slice string)) : pathSpec :=
  mkPathSpec (Some (map schemaPathTogNMIPath schemaPaths)).

Definition nodeChildPath (parentPath : option pathSpec)
    (schemaPaths : list (slice string)) : result pathSpec :=
  match parentPath with
  | None => Err "could not find annotation for complete path"
  | Some pp =>
      match gNMIPaths pp with
      | None => Err "could not find annotation for complete path"
      | Some paths =>
          Ok (mkPathSpec (Some
            (p ← paths;
             s ← schemaPaths;
             [joingNMIPaths p (schemaPathTogNMIPath s)])))
      end
  end.

(** [np.Elem[len(p.Elem)-1].Key = strkeys] on a clone of [p]: out of range
    when [p] has no element. *)
Definition setLastKey (strkeys : gmap string string) (p : Path) : result Path :=
  match last (Elem p) with
  | None => Panic
  | Some e =>
      Ok (mkPath (<[pred (length (Elem p)) := mkPathElem (Name e) strkeys]> (Elem p)))
  end.

Fixpoint nodeMapPath_loop (strkeys : gmap string string) (paths : list Path)
    (gPaths : list Path) : result (list Path) :=
  match paths with
  | [] => Ok gPaths
  | p :: rest =>
      np ← setLastKey strkeys p;
      nodeMapPath_loop strkeys rest (gPaths ++ [np])
  end.

Definition nodeMapPath (list : KeyHelperGoStruct) (parentPath : option pathSpec)
    : result pathSpec :=
  keys ← ΛListKeyMap list;
  match keyMapAsStrings keys with
  | Err e => Err ("cannot convert keys to map[string]string: " +:+ e)
  | Panic => Panic
  | Ok strkeys =>
      match parentPath with
      | None => Err "invalid list member with no parent"
      | Some pp =>
          match gNMIPaths pp with
          | None => Err "invalid list member with no parent"
          | Some paths =>
              gPaths ← nodeMapPath_loop strkeys paths [];
              Ok (mkPathSpec (Some gPaths))
          end
      end
  end.

Fixpoint getPathSpec_loop (anns : list annotation) : result (option pathSpec) :=
  match anns with
  | [] => Err "could not find path specification annotation"
  | A_pathSpec p :: _ => Ok p
  | A_other :: rest => getPathSpec_loop rest
  end.

Definition getPathSpec (ni : NodeInfo) : result (option pathSpec) :=
  getPathSpec_loop (elems (Annotation ni)).

Definition nodeValuePath (ni : NodeInfo) (schemaPaths : list (slice string))
    : result pathSpec :=
  match Parent ni with
  | None => Ok (nodeRootPath schemaPaths)
  | Some parent =>
      if is_nil (Annotation parent) then Ok (nodeRootPath schemaPaths)
      else
        cp ← getPathSpec parent;
        match FieldValue ni with
        | Some l => nodeMapPath l cp
        | None => nodeChildPath cp schemaPaths
        end
  end.

(** What findSetLeaves reads of a struct field: its name and the results of
    [util.ShadowSchemaPaths] and [util.SchemaPaths] on it. *)
Record StructField := mkStructField {
  sfName : string;
  ShadowSchemaPaths : list (slice string);
  SchemaPaths : result (list (slice string))
}.

(** findSetLeaves, the iteration function: the declared paths of the field
    (lines 250-265), shadow paths first when they are preferred. *)
Definition findSetLeaves_declaredPaths (pathOpt : option DiffPathOpt)
    (sf : StructField) : result (list (slice string)) :=
  let sp0 :=
    match pathOpt with
    | Some o => if PreferShadowPath o then ShadowSchemaPaths sf else []
    | None => []
    end in
  sp1 ← (if (length sp0 =? 0)%nat then SchemaPaths sf else Ok sp0);
  if (length sp1 =? 0)%nat then Err ("invalid schema path for " +:+ sfName sf)
  else Ok sp1.

(** Lines 267-271: in single-path mode only one path is kept. *)
Definition findSetLeaves_schemaPaths (pathOpt : option DiffPathOpt)
    (sf : StructField) : result (list (slice string)) :=
  sp ← findSetLeaves_declaredPaths pathOpt sf;
  match pathOpt with
  | Some o => if MapToSinglePath o then Ok [leastSpecificPath sp] else Ok sp
  | None => Ok sp
  end.

(** Line 273: the pathSpec of the field. *)
Definition findSetLeaves_valuePath (pathOpt : option DiffPathOpt)
    (ni : NodeInfo) (sf : StructField) : result pathSpec :=
  sp ← findSetLeaves_schemaPaths pathOpt sf;
  nodeValuePath ni sp.


End PathAlgebra.

Arguments mkKeyHelper {KeyVal}.
Arguments ΛListKeyMap {KeyVal}.
Arguments mkNodeInfo {KeyVal}.
Arguments Parent {KeyVal}.
Arguments Annotation {KeyVal}.
Arguments FieldValue {KeyVal}.
Arguments nodeMapPath {KeyVal}.
Arguments nodeValuePath {KeyVal}.
Arguments getPathSpec {KeyVal}.
Arguments findSetLeaves_valuePath {KeyVal}.
Arguments mkStructField : clear implicits.

(** ** Diff *)

Section DiffEngine.

(** A leaf's value as findSetLeaves stores it ([interface{}]),
    [reflect.DeepEqual] on two of them, the encoded value and
    [EncodeTypedValue(_, Encoding_PROTO)] (ygot/render.go), and
    [PathToString] (ygot/pathstrings.go). *)
Variable Val : Type.
Variable DeepEqual : Val → Val → bool.
Variable TypedValue : Type.
Variable EncodeTypedValue : Val → result TypedValue.
Variable PathToString : Path → result string.

(** A GoStruct, its [reflect.TypeOf], and findSetLeaves: the walk over the
    struct is [util.ForEachDataField] (by reflection), which calls the
    iteration function [findSetIterFunc] below on the nodes of the struct;
    its result is a map keyed by the pointers of freshly allocated pathSpecs,
    so no two entries share a key: the map is the list of its entries. *)
Variable GoStruct : Type.
Variable GoType : Type.
Context `{EqDecision GoType}.
Variable TypeOf : GoStruct → GoType.
Variable findSetLeaves : GoStruct → list DiffOpt → result (list (pathSpec * Val)).

Record pathInfo := mkPathInfo {
  val : Val;
  path : Path
}.

(** The order in which each of the four [range] loops over a map visits its
    entries: toStringPathMap on the original and on the modified leaves, and
    Diff's loops over [origLeavesStr] and [modLeavesStr]. *)
Record rangeOrder := mkRangeOrder {
  range_origLeaves : list (pathSpec * Val) → list (pathSpec * Val);
  range_modLeaves : list (pathSpec * Val) → list (pathSpec * Val);
  range_origLeavesStr : gmap string pathInfo → list (string * pathInfo);
  range_modLeavesStr : gmap string pathInfo → list (string * pathInfo)
}.

(** Every loop visits every entry of its map once. *)
Definition rangeOrder_ok (ord : rangeOrder) : Prop :=
  (∀ l, range_origLeaves ord l ≡ₚ l) ∧
  (∀ l, range_modLeaves ord l ≡ₚ l) ∧
  (∀ m, range_origLeavesStr ord m ≡ₚ map_to_list m) ∧
  (∀ m, range_modLeavesStr ord m ≡ₚ map_to_list m).

Fixpoint toStringPathMap_paths (v : Val) (paths : list Path)
    (strPathMap : gmap string pathInfo) : result (gmap string pathInfo) :=
  match paths with
  | [] => Ok strPathMap
  | p :: rest =>
      strPath ← PathToString p;
      toStringPathMap_paths v rest (<[strPath := mkPathInfo v p]> strPathMap)
  end.

Fixpoint toStringPathMap_loop (entries : list (pathSpec * Val))
    (strPathMap : gmap string pathInfo) : result (gmap string pathInfo) :=
  match entries with
  | [] => Ok strPathMap
  | (paths, v) :: rest =>
      m ← toStringPathMap_paths v (elems (gNMIPaths paths)) strPathMap;
      toStringPathMap_loop rest m
  end.

(** [entries] is the map's content in the order the outer loop visits it. *)
Definition toStringPathMap (entries : list (pathSpec * Val))
    : result (gmap string pathInfo) :=
  toStringPathMap_loop entries ∅.

Definition appendUpdate (n : Notification TypedValue) (strPath : string)
    (pi : pathInfo) : result (Notification TypedValue) :=
  match EncodeTypedValue (val pi) with
  | Ok v =>
      Ok (mkNotification (nPrefix n) (nUpdate n ++ [mkUpdate (path pi) v])
            (nDelete n) (nAtomic n))
  | Err e =>
      Err ("cannot represent field value as TypedValue for path "
             +:+ strPath +:+ ": " +:+ e)
  | Panic => Panic
  end.

(** The notification [n] holds an update for the leaf [pi]: its path with
    its encoded value. *)
Definition updated (pi : pathInfo) (n : Notification TypedValue) : Prop :=
  ∃ tv, EncodeTypedValue (val pi) = Ok tv ∧ mkUpdate (path pi) tv ∈ nUpdate n.

(** *** The iteration function of findSetLeaves *)

(** The keys of a list entry, as in the path algebra above. *)
Variable KeyVal : Type.
Variable keyMapAsStrings : gmap string KeyVal → result (gmap string string).

(** What the iteration function reads of the node it is called on: the
    [NodeInfo] (parent, annotations, list keys), the struct field ([None]
    when [ni.StructField] is the zero StructField) and the outcome of each
    test the function makes on the field and on its value. *)
Record visit := mkVisit {
  vNodeInfo : NodeInfo KeyVal;
  vStructField : option StructField;
  vIsYgotAnnotation : bool;
  vIsNilOrInvalidValue : bool;
  vIsValueNilOrDefault : bool;
  vIsValueStructPtr : bool;
  vIsValueMap : bool;
  vInterface : Val;
  vEnumInt : option Z
}.

(** What the walk carries from node to node: the keys already processed and
    the leaves recorded so far ([out]). *)
Record walkState := mkWalkState {
  processedPaths : gset string;
  outLeaves : list (pathSpec * Val)
}.

(** [sort.Strings(keys)] and [strings.Join(keys, "/")]. *)
Definition processedKey (keys : list string) : string :=
  String.concat "/" (merge_sort (fun a b : string => Is_true (String.leb a b)) keys).

(** findSetIterFunc: the node with the annotation it is left with, the state
    and the errors. *)
Definition findSetIterFunc (pathOpt : option DiffPathOpt) (v : visit)
    (st : walkState) : NodeInfo KeyVal * walkState * result unit :=
  match vStructField v with
  | None => (vNodeInfo v, st, Ok tt)
  | Some sf =>
      if vIsYgotAnnotation v then (vNodeInfo v, st, Ok tt)
      else
        match findSetLeaves_valuePath keyMapAsStrings pathOpt (vNodeInfo v) sf with
        | Err e => (vNodeInfo v, st, Err e)
        | Panic => (vNodeInfo v, st, Panic)
        | Ok vp =>
            match mapR PathToString (elems (gNMIPaths vp)) with
            | Err e => (vNodeInfo v, st, Err e)
            | Panic => (vNodeInfo v, st, Panic)
            | Ok keys =>
                let key := processedKey keys in
                if decide (key ∈ processedPaths st) then (vNodeInfo v, st, Ok tt)
                else
                  let st1 :=
                    mkWalkState ({[key]} ∪ processedPaths st) (outLeaves st) in
                  let ni1 :=
                    mkNodeInfo (Parent (vNodeInfo v))
                      (Some [A_pathSpec (Some vp)]) (FieldValue (vNodeInfo v)) in
                  if vIsNilOrInvalidValue v || vIsValueNilOrDefault v
                     || vIsValueStructPtr v || vIsValueMap v
                  then (ni1, st1, Ok tt)
                  else
                    match vEnumInt v with
                    | Some 0%Z => (ni1, st1, Ok tt)
                    | _ =>
                        (ni1,
                         mkWalkState (processedPaths st1)
                           (outLeaves st1 ++ [(vp, vInterface v)]),
                         Ok tt)
                    end
            end
        end
  end.

(** The value of the visited node is one that the iteration function
    records: not nil, invalid or default, no struct pointer, no map, and no
    enumerated value of integer 0. *)
Definition isSetLeaf (v : visit) : bool :=
  negb (vIsNilOrInvalidValue v || vIsValueNilOrDefault v
        || vIsValueStructPtr v || vIsValueMap v)
  && match vEnumInt v with
     | Some 0%Z => false
     | _ => true
     end.

(** First loop of Diff: over the original leaves. *)
Fixpoint Diff_orig (modLeavesStr : gmap string pathInfo)
    (entries : list (string * pathInfo)) (n : Notification TypedValue)
    : result (Notification TypedValue) :=
  match entries with
  | [] => Ok n
  | (origPath, origVal) :: rest =>
      match modLeavesStr !! origPath with
      | Some modVal =>
          if negb (DeepEqual (val origVal) (val modVal)) then
            n' ← appendUpdate n origPath modVal;
            Diff_orig modLeavesStr rest n'
          else Diff_orig modLeavesStr rest n
      | None =>
          Diff_orig modLeavesStr rest
            (mkNotification (nPrefix n) (nUpdate n)
               (nDelete n ++ [path origVal]) (nAtomic n))
      end
  end.

(** Second loop of Diff: over the modified leaves. *)
Fixpoint Diff_mod (origLeavesStr : gmap string pathInfo)
    (entries : list (string * pathInfo)) (n : Notification TypedValue)
    : result (Notification TypedValue) :=
  match entries with
  | [] => Ok n
  | (modPath, modVal) :: rest =>
      match origLeavesStr !! modPath with
      | Some _ => Diff_mod origLeavesStr rest n
      | None =>
          n' ← appendUpdate n modPath modVal;
          Diff_mod origLeavesStr rest n'
      end
  end.

(** Any two recorded leaves that have an address of the same string form
    carry deeply equal values. With the two leaves the same, this asks every
    value to be deeply equal to itself. *)
Definition agree_on_shared (leaves : list (pathSpec * Val)) : Prop :=
  ∀ ps1 v1 ps2 v2 p1 p2 s,
    (ps1, v1) ∈ leaves → (ps2, v2) ∈ leaves →
    p1 ∈ elems (gNMIPaths ps1) → p2 ∈ elems (gNMIPaths ps2) →
    PathToString p1 = Ok s → PathToString p2 = Ok s →
    DeepEqual v1 v2 = true.

(** No two recorded leaves have addresses of the same string form, and no
    leaf has two such addresses. *)
Definition addresses_unshared (leaves : list (pathSpec * Val)) : Prop :=
  ∀ ps1 v1 ps2 v2 p1 p2 s,
    (ps1, v1) ∈ leaves → (ps2, v2) ∈ leaves →
    p1 ∈ elems (gNMIPaths ps1) → p2 ∈ elems (gNMIPaths ps2) →
    PathToString p1 = Ok s → PathToString p2 = Ok s →
    v1 = v2 ∧ p1 = p2.

(** The differences between two string maps: the paths of the addresses that
    only the original has, the modified leaves whose address the original has
    with a value that is not deeply equal, and the modified leaves whose
    address the original lacks. *)
Definition removedPaths (mo mm : gmap string pathInfo) : list Path :=
  omap (fun e : string * pathInfo =>
          match mm !! e.1 with
          | None => Some (path e.2)
          | Some _ => None
          end) (map_to_list mo).

Definition changedLeaf (mm : gmap string pathInfo) (e : string * pathInfo)
    : option pathInfo :=
  match mm !! e.1 with
  | Some mi => if DeepEqual (val e.2) (val mi) then None else Some mi
  | None => None
  end.

Definition changedLeaves (mo mm : gmap string pathInfo) : list pathInfo :=
  omap (changedLeaf mm) (map_to_list mo).

Definition addedLeaf (mo : gmap string pathInfo) (e : string * pathInfo)
    : option pathInfo :=
  match mo !! e.1 with
  | None => Some e.2
  | Some _ => None
  end.

Definition addedLeaves (mo mm : gmap string pathInfo) : list pathInfo :=
  omap (addedLeaf mo) (map_to_list mm).

(** The update [u] is the leaf [pi] with its value encoded. *)
Definition updateOf (u : Update TypedValue) (pi : pathInfo) : Prop :=
  uPath u = path pi ∧ EncodeTypedValue (val pi) = Ok (uVal u).

Definition Diff (ord : rangeOrder) (original modified : GoStruct)
    (opts : list DiffOpt) : result (Notification TypedValue) :=
  if decide (TypeOf original = TypeOf modified) then
    origLeaves ← wrapErr "could not extract set leaves from original struct: "
                   (findSetLeaves original opts);
    modLeaves ← wrapErr "could not extract set leaves from modified struct: "
                  (findSetLeaves modified opts);
    origLeavesStr ← wrapErr "could not convert leaf path map to string path map: "
                      (toStringPathMap (range_origLeaves ord origLeaves));
    modLeavesStr ← wrapErr "could not convert leaf path map to string path map: "
                     (toStringPathMap (range_modLeaves ord modLeaves));
    n ← Diff_orig modLeavesStr (range_origLeavesStr ord origLeavesStr)
          (mkNotification None [] [] false);
    match hasIgnoreAdditions opts with
    | Some _ => Ok n
    | None => Diff_mod origLeavesStr (range_modLeavesStr ord modLeavesStr) n
    end
  else Err "cannot diff structs of different types".

End DiffEngine.

Arguments mkPathInfo {Val}.
Arguments val {Val}.
Arguments path {Val}.
Arguments mkRangeOrder {Val}.
Arguments range_origLeaves {Val}.
Arguments range_modLeaves {Val}.
Arguments range_origLeavesStr {Val}.
Arguments range_modLeavesStr {Val}.
Arguments rangeOrder_ok {Val}.
Arguments agree_on_shared {Val}.
Arguments addresses_unshared {Val}.
Arguments removedPaths {Val}.
Arguments changedLeaf {Val}.
Arguments changedLeaves {Val}.
Arguments addedLeaf {Val}.
Arguments addedLeaves {Val}.
Arguments updateOf {Val TypedValue}.
Arguments toStringPathMap {Val}.
Arguments toStringPathMap_loop {Val}.
Arguments toStringPathMap_paths {Val}.
Arguments appendUpdate {Val TypedValue}.
Arguments updated {Val TypedValue}.
Arguments mkVisit {Val KeyVal}.
Arguments vNodeInfo {Val KeyVal}.
Arguments vStructField {Val KeyVal}.
Arguments vIsYgotAnnotation {Val KeyVal}.
Arguments vInterface {Val KeyVal}.
Arguments vIsNilOrInvalidValue {Val KeyVal}.
Arguments vIsValueNilOrDefault {Val KeyVal}.
Arguments vIsValueStructPtr {Val KeyVal}.
Arguments vIsValueMap {Val KeyVal}.
Arguments vEnumInt {Val KeyVal}.
Arguments mkWalkState {Val}.
Arguments processedPaths {Val}.
Arguments outLeaves {Val}.
Arguments findSetIterFunc {Val} PathToString {KeyVal}.
Arguments isSetLeaf {Val KeyVal}.
Arguments Diff_orig {Val} DeepEqual {TypedValue}.
Arguments Diff_mod {Val TypedValue}.
Arguments Diff {Val} DeepEqual {TypedValue} EncodeTypedValue PathToString
  {GoStruct GoType _} TypeOf findSetLeaves.

End ygot.

(** ** Package ytypes: applying notifications and set requests *)

Module ytypes.
Import gnmi.

(** Options handed to GetOrCreateNode, DeleteNode and SetNode. *)
Inductive NodeOpt :=
| InitMissingElements
| PreferShadowPath
| IgnoreExtraFields.

Section MutationEngine.

(** [Tree] is the content of the structs reachable from [schema.Root], which
    the functions below overwrite in place; [Node] is a reference to one
    GoStruct inside it. [yangEntry] is [*yang.Entry]. *)
Variable Tree : Type.
Variable Node : Type.
Variable yangEntry : Type.
Variable TypedValue : Type.

(** [reflect.TypeOf(x).Elem().Name()] of a GoStruct. *)
Variable typeName : Node → string.

Variable UnmarshalOpt : Type.
Variable hasPreferShadowPath : list UnmarshalOpt → bool.
Variable hasIgnoreExtraFields : list UnmarshalOpt → bool.

(** What GetOrCreateNode returns as [interface{}]: a GoStruct or not. *)
Inductive nodeI :=
| I_GoStruct (n : Node)
| I_other.

(** The functions of ytypes and util that reach into the tree. Each returns
    the tree as it left it, and its error ([Ok tt] is the nil error). *)
Variable GetOrCreateNode :
  yangEntry → Node → option Path → list NodeOpt → Tree → Tree * result nodeI.
Variable DeleteNode :
  option yangEntry → Node → Path → list NodeOpt → Tree → Tree * result unit.
Variable SetNode :
  option yangEntry → Node → Path → TypedValue → list NodeOpt → Tree
  → Tree * result unit.
Variable JoinPaths : Path → Path → result Path.

Record Schema := mkSchema {
  Root : Node;
  RootSchema : yangEntry;
  SchemaTree : gmap string yangEntry
}.

Definition getOrCreateNode (schema : yangEntry) (goStruct : Node)
    (path : option Path) (preferShadowPath : bool) (t : Tree)
    : Tree * result (Node * string) :=
  let gcopts := if preferShadowPath then [PreferShadowPath] else [] in
  match GetOrCreateNode schema goStruct path gcopts t with
  | (t', Err e) => (t', Err ("failed to GetOrCreate the prefix node: " +:+ e))
  | (t', Panic) => (t', Panic)
  | (t', Ok I_other) =>
      (t', Err "prefix path points to a non-GoStruct, this is not allowed")
  | (t', Ok (I_GoStruct node)) => (t', Ok (node, typeName node))
  end.

Fixpoint deletePaths (schema : option yangEntry) (goStruct : Node)
    (prefix : option Path) (paths : list Path) (preferShadowPath : bool)
    (t : Tree) : Tree * result unit :=
  let dopts := if preferShadowPath then [PreferShadowPath] else [] in
  match paths with
  | [] => (t, Ok tt)
  | path :: rest =>
      let joined :=
        match prefix with
        | Some pfx => wrapErr "cannot join prefix with deletion path: "
                        (JoinPaths pfx path)
        | None => Ok path
        end in
      match joined with
      | Ok path' =>
          match DeleteNode schema goStruct path' dopts t with
          | (t', Ok _) => deletePaths schema goStruct prefix rest preferShadowPath t'
          | (t', Err e) => (t', Err e)
          | (t', Panic) => (t', Panic)
          end
      | Err e => (t, Err e)
      | Panic => (t, Panic)
      end
  end.

Definition joinPrefixToUpdate (prefix : option Path) (update : Update TypedValue)
    : result (Update TypedValue) :=
  match prefix with
  | None => Ok update
  | Some pfx =>
      match JoinPaths pfx (uPath update) with
      | Ok p => Ok (mkUpdate p (uVal update))
      | Err e => Err ("cannot join prefix with gpb.Update path: " +:+ e)
      | Panic => Panic
      end
  end.

Definition setNode (schema : option yangEntry) (goStruct : Node)
    (update : Update TypedValue) (preferShadowPath ignoreExtraFields : bool)
    (t : Tree) : Tree * result unit :=
  let sopts :=
    ([InitMissingElements]
     ++ (if preferShadowPath then [PreferShadowPath] else [])
     ++ (if ignoreExtraFields then [IgnoreExtraFields] else []))%list in
  match SetNode schema goStruct (uPath update) (uVal update) sopts t with
  | (t', Err e) => (t', Err ("setNode: " +:+ e))
  | other => other
  end.

Fixpoint replacePaths (schema : option yangEntry) (goStruct : Node)
    (prefix : option Path) (updates : list (Update TypedValue))
    (preferShadowPath ignoreExtraFields : bool) (t : Tree)
    : Tree * result unit :=
  let dopts := if preferShadowPath then [PreferShadowPath] else [] in
  match updates with
  | [] => (t, Ok tt)
  | update :: rest =>
      match joinPrefixToUpdate prefix update with
      | Ok update' =>
          match DeleteNode schema goStruct (uPath update') dopts t with
          | (t1, Ok _) =>
              match setNode schema goStruct update' preferShadowPath
                      ignoreExtraFields t1 with
              | (t2, Ok _) =>
                  replacePaths schema goStruct prefix rest preferShadowPath
                    ignoreExtraFields t2
              | (t2, Err e) => (t2, Err e)
              | (t2, Panic) => (t2, Panic)
              end
          | (t1, Err e) => (t1, Err e)
          | (t1, Panic) => (t1, Panic)
          end
      | Err e => (t, Err e)
      | Panic => (t, Panic)
      end
  end.

Fixpoint updatePaths (schema : option yangEntry) (goStruct : Node)
    (prefix : option Path) (updates : list (Update TypedValue))
    (preferShadowPath ignoreExtraFields : bool) (t : Tree)
    : Tree * result unit :=
  match updates with
  | [] => (t, Ok tt)
  | update :: rest =>
      match joinPrefixToUpdate prefix update with
      | Ok update' =>
          match setNode schema goStruct update' preferShadowPath
                  ignoreExtraFields t with
          | (t1, Ok _) =>
              updatePaths schema goStruct prefix rest preferShadowPath
                ignoreExtraFields t1
          | (t1, Err e) => (t1, Err e)
          | (t1, Panic) => (t1, Panic)
          end
      | Err e => (t, Err e)
      | Panic => (t, Panic)
      end
  end.

(** The first step of UnmarshalSetRequest: the subject of the request, the
    name of its type, and the prefix carried forward to every operation. *)
Definition subjectOf (schema : Schema) (reqPrefix : option Path)
    (preferShadowPath : bool) (t : Tree)
    : Tree * result (Node * string * option Path) :=
  match getOrCreateNode (RootSchema schema) (Root schema) reqPrefix
          preferShadowPath t with
  | (t0, Ok (node, nodeName)) => (t0, Ok (node, nodeName, None))
  | (t0, Err _) => (t0, Ok (Root schema, typeName (Root schema), reqPrefix))
  | (t0, Panic) => (t0, Panic)
  end.

Definition UnmarshalSetRequest (schema : Schema)
    (req : option (SetRequest TypedValue)) (opts : list UnmarshalOpt)
    (t : Tree) : Tree * result unit :=
  let preferShadowPath := hasPreferShadowPath opts in
  let ignoreExtraFields := hasIgnoreExtraFields opts in
  match req with
  | None => (t, Ok tt)
  | Some req =>
      match subjectOf schema (sPrefix req) preferShadowPath t with
      | (t0, Ok (node, nodeName, prefix)) =>
          match deletePaths (SchemaTree schema !! nodeName) node prefix
                  (sDelete req) preferShadowPath t0 with
          | (t1, Ok _) =>
              match replacePaths (SchemaTree schema !! nodeName) node prefix
                      (sReplace req) preferShadowPath ignoreExtraFields t1 with
              | (t2, Ok _) =>
                  updatePaths (SchemaTree schema !! nodeName) node prefix
                    (sUpdate req) preferShadowPath ignoreExtraFields t2
              | failed => failed
              end
          | failed => failed
          end
      | (t0, Err e) => (t0, Err e)
      | (t0, Panic) => (t0, Panic)
      end
  end.

(** The SetRequest that UnmarshalNotifications builds from a notification. *)
Definition setRequestOf (n : Notification TypedValue) : SetRequest TypedValue :=
  let deletePaths :=
    if nAtomic n then (nDelete n ++ [mkPath []])%list else nDelete n in
  mkSetRequest (nPrefix n) deletePaths [] (nUpdate n).

Fixpoint UnmarshalNotifications (schema : Schema)
    (ns : list (Notification TypedValue)) (opts : list UnmarshalOpt)
    (t : Tree) : Tree * result unit :=
  match ns with
  | [] => (t, Ok tt)
  | n :: rest =>
      match UnmarshalSetRequest schema (Some (setRequestOf n)) opts t with
      | (t', Ok _) => UnmarshalNotifications schema rest opts t'
      | failed => failed
      end
  end.

End MutationEngine.

Arguments I_GoStruct {Node}.
Arguments I_other {Node}.
Arguments mkSchema {Node yangEntry}.
Arguments Root {Node yangEntry}.
Arguments RootSchema {Node yangEntry}.
Arguments SchemaTree {Node yangEntry}.
Arguments setRequestOf {TypedValue}.

End ytypes.

(** ** Package ygen: schematree.go, the path of a leafref *)

Module ygen.

(** [strings.Split(s, sep)] for a separator of one character: the pieces of
    [s] between separators; [cur] is the piece being read. *)
Fixpoint Split_from (sep : ascii) (s : string) (cur : string) : list string :=
  match s with
  | EmptyString => [cur]
  | String c rest =>
      if Ascii.eqb c sep then cur :: Split_from sep rest ""
      else Split_from sep rest (cur +:+ String c "")
  end.

Definition Split (s : string) (sep : ascii) : list string := Split_from sep s "".

Fixpoint ContainsRune (s : string) (r : ascii) : bool :=
  match s with
  | EmptyString => false
  | String c rest => Ascii.eqb c r || ContainsRune rest r
  end.

(** [for _, c := range path] reads the path rune by rune, decoding UTF-8 as
    [utf8.DecodeRuneInString] does; [buf.WriteRune(c)] writes the UTF-8
    encoding of the rune. A rune is kept here as the bytes that WriteRune
    writes for it: for a rune read from a valid encoding these are the bytes
    it was read from; a byte that starts no valid encoding is read as the
    rune U+FFFD ([utf8.RuneError]), of size 1, and written as the three
    bytes of that rune. *)
Definition RuneError : string :=
  String (ascii_of_nat 239) (String (ascii_of_nat 191)
    (String (ascii_of_nat 189) "")).

Definition inRange (lo hi : N) (c : ascii) : bool :=
  ((lo <=? N_of_ascii c) && (N_of_ascii c <=? hi))%N.

(** A continuation byte, 0x80 to 0xBF. *)
Definition continuation (c : ascii) : bool := inRange 128 191 c.

(** The table [first] of unicode/utf8 for a byte from 0x80 on: the size of
    the encoding that the byte starts, with the range accepted for its second
    byte; no entry for the bytes 0x80 to 0xC1 and 0xF5 to 0xFF, which start
    no encoding. *)
Definition firstByte (s0 : ascii) : option (nat * N * N) :=
  let b := N_of_ascii s0 in
  if inRange 194 223 s0 then Some (2%nat, 128%N, 191%N)
  else if (b =? 224)%N then Some (3%nat, 160%N, 191%N)
  else if inRange 225 236 s0 then Some (3%nat, 128%N, 191%N)
  else if (b =? 237)%N then Some (3%nat, 128%N, 159%N)
  else if inRange 238 239 s0 then Some (3%nat, 128%N, 191%N)
  else if (b =? 240)%N then Some (4%nat, 144%N, 191%N)
  else if inRange 241 243 s0 then Some (4%nat, 128%N, 191%N)
  else if (b =? 244)%N then Some (4%nat, 128%N, 143%N)
  else None.

(** [utf8.DecodeRuneInString]: the first rune of [s] and its size in bytes
    (the size is 0 on the empty string only). *)
Definition DecodeRuneInString (s : string) : string * nat :=
  match s with
  | EmptyString => (RuneError, 0)
  | String s0 rest =>
      if (N_of_ascii s0 <? 128)%N then (String s0 "", 1)
      else
        match firstByte s0 with
        | None => (RuneError, 1)
        | Some (sz, lo, hi) =>
            match rest with
            | String s1 rest1 =>
                if negb (inRange lo hi s1) then (RuneError, 1)
                else if (sz =? 2)%nat then (String s0 (String s1 ""), 2)
                else
                  match rest1 with
                  | String s2 rest2 =>
                      if negb (continuation s2) then (RuneError, 1)
                      else if (sz =? 3)%nat then
                        (String s0 (String s1 (String s2 "")), 3)
                      else
                        match rest2 with
                        | String s3 _ =>
                            if negb (continuation s3) then (RuneError, 1)
                            else
                              (String s0 (String s1 (String s2 (String s3 ""))),
                               4)
                        | EmptyString => (RuneError, 1)
                        end
                  | EmptyString => (RuneError, 1)
                  end
            | EmptyString => (RuneError, 1)
            end
        end
  end.

(** The runes that a [range] loop over [s] visits, in order; [skip] is the
    number of bytes at the head of [s] that belong to the rune read last. *)
Fixpoint rangeRunes_from (s : string) (skip : nat) : list string :=
  match s with
  | EmptyString => []
  | String c rest =>
      match skip with
      | S k => rangeRunes_from rest k
      | O =>
          let (r, size) := DecodeRuneInString (String c rest) in
          r :: rangeRunes_from rest (size - 1)
      end
  end.

Definition rangeRunes (s : string) : list string := rangeRunes_from s 0.

(** The string is valid UTF-8: no byte of it is read as the replacement
    rune, so that written back rune by rune it is itself. *)
Definition validUTF8 (s : string) : Prop := String.concat "" (rangeRunes s) = s.

(** The loop of splitXPATHParts over the runes of the path, with the state
    [parts], [buf] and [inKey]; the last step is the test on [buf] after the
    loop. *)
Fixpoint splitXPATHParts_loop (path : list string) (parts : list string)
    (buf : string) (inKey : bool) : list string :=
  match path with
  | [] =>
      if (String.length buf =? 0)%nat then parts else (parts ++ [buf])%list
  | c :: rest =>
      if String.eqb c "/" then
        if negb inKey then splitXPATHParts_loop rest (parts ++ [buf])%list "" inKey
        else splitXPATHParts_loop rest parts buf inKey
      else if String.eqb c "[" then splitXPATHParts_loop rest parts buf true
      else if String.eqb c "]" then splitXPATHParts_loop rest parts buf false
      else if negb inKey then
        splitXPATHParts_loop rest parts (buf +:+ c) inKey
      else splitXPATHParts_loop rest parts buf inKey
  end.

Definition splitXPATHParts (path : string) : list string :=
  splitXPATHParts_loop (rangeRunes path) [] "" false.

Fixpoint removeXPATHNamespaces_loop (path : list string)
    (fixedParts : list string) : result (list string) :=
  match path with
  | [] => Ok fixedParts
  | p :: rest =>
      if ContainsRune p ":"%char then
        match Split p ":"%char with
        | [_; p1] => removeXPATHNamespaces_loop rest (fixedParts ++ [p1])%list
        | _ =>
            Err ("invalid path element that contains multiple namespace specfiers: "
                   +:+ p)
        end
      else removeXPATHNamespaces_loop rest (fixedParts ++ [p])%list
  end.

Definition removeXPATHNamespaces (path : list string) : result (list string) :=
  removeXPATHNamespaces_loop path [].

(** The loop of fixSchemaTreePath over [parts]: every [..] drops the last
    segment of [callerPath], every other token goes to [remainingPath]. *)
Fixpoint fixSchemaTreePath_loop (callerPath remainingPath parts : list string)
    : result (list string) :=
  match parts with
  | [] => Ok (callerPath ++ remainingPath)%list
  | p :: rest =>
      if String.eqb p ".." then
        if (length callerPath =? 0)%nat then
          Err "invalid path specified, tries to recurse above the root"
        else fixSchemaTreePath_loop (removelast callerPath) remainingPath rest
      else fixSchemaTreePath_loop callerPath (remainingPath ++ [p])%list rest
  end.

(** The number of [..] tokens at the head of [parts]. *)
Fixpoint leadingDotDots (parts : list string) : nat :=
  match parts with
  | p :: rest => if String.eqb p ".." then S (leadingDotDots rest) else 0
  | [] => 0
  end.

(** The resolution of a relative path as the specification words it: one
    segment up per leading [..] token, then the remaining tokens appended. *)
Definition relativePath_spec (callerPath parts : list string)
    : result (list string) :=
  let k := leadingDotDots parts in
  if (length callerPath <? k)%nat then
    Err "invalid path specified, tries to recurse above the root"
  else Ok (take (length callerPath - k) callerPath ++ drop k parts)%list.

Section SchemaTree.

(** [*yang.Entry] and [util.SchemaTreePath]: the path of an entry, module
    name first, as a string of [/]-prefixed segments. *)
Variable Entry : Type.
Variable SchemaTreePath : Entry → string.

Definition fixSchemaTreePath (path : string) (caller : option Entry)
    : result (list string) :=
  parts ← removeXPATHNamespaces (splitXPATHParts path);
  match parts with
  | [] => Panic
  | p0 :: _ =>
      if negb (String.eqb p0 "..") then
        if String.eqb p0 "" then Ok (tail parts)
        else Err ("path statement has to begin with either '../' or '/': " +:+ path)
      else
        match caller with
        | None =>
            Err "calling node must be specified when mapping relative path"
        | Some c =>
            let cpathparts := Split (SchemaTreePath c) "/"%char in
            if (length cpathparts <? 2)%nat then
              Err "invalid calling node, was a module"
            else fixSchemaTreePath_loop (drop 2 cpathparts) [] parts
        end
  end.

End SchemaTree.

Arguments fixSchemaTreePath {Entry}.

End ygen.

(** ** Two small instances of what the packages leave open *)

(** A GoStruct given by its set leaves, with strings for values. *)
Module leaves.
Import gnmi ygot.

(** Modelled from the spec: the walk of section 4.3 (util.ForEachDataField),
    which is not part of diff.go; a struct is given by the entries that the
    walk records for it, whatever the options. *)
Definition findSetLeaves (s : list (pathSpec * string)) (opts : list DiffOpt)
    : result (list (pathSpec * string)) := Ok s.

(** Modelled from the spec: the concrete schema type of a tree; all the
    structs of this instance have the same type. *)
Definition TypeOf (s : list (pathSpec * string)) : unit := tt.

(** Modelled from the spec: the string form of an address (PathToString of
    ygot/pathstrings.go): [/name] for each element, followed by [[key=value]]
    for each of its keys. *)
Definition PathToString (p : Path) : result string :=
  Ok (String.concat ""
        (map (fun e =>
                "/" +:+ Name e +:+
                String.concat ""
                  (map (fun kv => "[" +:+ kv.1 +:+ "=" +:+ kv.2 +:+ "]")
                     (map_to_list (Key e))))
           (Elem p))).

(** Modelled from the spec: the encoding of a leaf value (EncodeTypedValue of
    ygot/render.go), which the core treats as opaque; a string encodes as
    itself. *)
Definition EncodeTypedValue (v : string) : result string := Ok v.

(** Every loop visits a map of leaves as listed, and a map of strings in the
    order of [map_to_list]. *)
Definition inOrder : rangeOrder string :=
  mkRangeOrder (fun l => l) (fun l => l) map_to_list map_to_list.

(** As [inOrder], but the leaves of the modified struct are visited last to
    first. *)
Definition modReversed : rangeOrder string :=
  mkRangeOrder (fun l => l) (@rev _) map_to_list map_to_list.

Definition Diff (ord : rangeOrder string)
    (original modified : list (pathSpec * string)) (opts : list DiffOpt)
    : result (Notification string) :=
  ygot.Diff String.eqb EncodeTypedValue PathToString TypeOf findSetLeaves ord
    original modified opts.

Definition leaf (names : list string) : Path :=
  schemaPathTogNMIPath (Some names).

(** The list field at [/yang-list], annotated with its pathSpec, and its
    entry with key-value=k. *)
Definition yangList : NodeInfo string :=
  mkNodeInfo None
    (Some [A_pathSpec (Some (mkPathSpec (Some [leaf ["yang-list"]])))]) None.
Definition yangListEntry : NodeInfo string :=
  mkNodeInfo (Some yangList) None
    (Some (mkKeyHelper (Ok {["key-value" := "k"]}))).

(** The visits of two set fields of the root: A, tagged [a|b], with the value
    x, and B, tagged [b|c], with the value y. *)
Definition fieldA : visit string string :=
  mkVisit (mkNodeInfo None None None)
    (Some (mkStructField "A" [] (Ok [Some ["a"]; Some ["b"]])))
    false false false false false "x" None.
Definition fieldB : visit string string :=
  mkVisit (mkNodeInfo None None None)
    (Some (mkStructField "B" [] (Ok [Some ["b"]; Some ["c"]])))
    false false false false false "y" None.

(** A struct with two set leaves that share the address [/b]. *)
Definition sharedAddress : list (pathSpec * string) :=
  [(mkPathSpec (Some [leaf ["a"]; leaf ["b"]]), "x");
   (mkPathSpec (Some [leaf ["b"]; leaf ["c"]]), "y")].

(** The structs of the diff scenario: a=1, c=3 and a=2, b=5. *)
Definition scenarioOriginal : list (pathSpec * string) :=
  [(mkPathSpec (Some [leaf ["a"]]), "1"); (mkPathSpec (Some [leaf ["c"]]), "3")].
Definition scenarioModified : list (pathSpec * string) :=
  [(mkPathSpec (Some [leaf ["a"]]), "2"); (mkPathSpec (Some [leaf ["b"]]), "5")].

(** Their string maps. *)
Definition scenarioOriginalStr : gmap string (pathInfo string) :=
  {[ "/a" := mkPathInfo "1" (leaf ["a"]); "/c" := mkPathInfo "3" (leaf ["c"]) ]}.
Definition scenarioModifiedStr : gmap string (pathInfo string) :=
  {[ "/a" := mkPathInfo "2" (leaf ["a"]); "/b" := mkPathInfo "5" (leaf ["b"]) ]}.

(** The visit of a set leaf eth0 at the root, tagged [config/name|name|id]. *)
Definition nameVisit : visit string string :=
  mkVisit (mkNodeInfo None None None)
    (Some (mkStructField "Name" []
             (Ok [Some ["config"; "name"]; Some ["name"]; Some ["id"]])))
    false false false false false "eth0" None.

(** The notification that Diff returns for them, visiting in order. *)
Definition scenarioDiff : Notification string :=
  mkNotification None
    [mkUpdate (leaf ["a"]) "2"; mkUpdate (leaf ["b"]) "5"] [leaf ["c"]] false.

(** Two pathSpecs: the address [/a] alone, and the addresses [/a] and [/b]. *)
Definition spec_a : pathSpec := mkPathSpec (Some [leaf ["a"]]).
Definition spec_a_b : pathSpec := mkPathSpec (Some [leaf ["a"]; leaf ["b"]]).

End leaves.

(** A tree given by its leaves, for the mutation engine. *)
Module flat.
Import gnmi ytypes.

(** Modelled from the spec: the tree of section 3 as the list of its set
    leaves, each with its address from the root (element names only) and its
    value; a node is the address of a container. *)
Definition Tree : Type := list (list string * string).
Definition Node : Type := list string.

Definition addr (p : Path) : list string := map Name (Elem p).

(** An address is malformed when one of its elements has no name. *)
Definition wellFormed (p : Path) : bool :=
  forallb (fun e => negb (String.eqb (Name e) "")) (Elem p).

Definition under (pfx : list string) (kv : list string * string) : bool :=
  bool_decide (pfx `prefix_of` kv.1).

(** Modelled from the spec: the type name of a node (reflection on the
    generated struct): the name of the last segment of its address. *)
Definition typeName (n : Node) : string := default "root" (last n).

(** Modelled from the spec: get-or-create of section 4.5 step 1
    (ytypes.GetOrCreateNode): containers hold no value of their own, so the
    leaves of the tree do not change. *)
Definition GetOrCreateNode (schema : unit) (n : Node) (p : option Path)
    (opts : list NodeOpt) (t : Tree) : Tree * result (nodeI Node) :=
  match p with
  | None => (t, Ok (I_GoStruct n))
  | Some p' =>
      if wellFormed p' then (t, Ok (I_GoStruct (n ++ addr p')))
      else (t, Err "malformed path")
  end.

(** Modelled from the spec: delete of section 4.5 step 2 (ytypes.DeleteNode):
    the addressed subtree is removed; the empty address removes everything
    under the subject. *)
Definition DeleteNode (schema : option unit) (n : Node) (p : Path)
    (opts : list NodeOpt) (t : Tree) : Tree * result unit :=
  if wellFormed p then
    (filter (fun kv => negb (under (n ++ addr p) kv)) t, Ok tt)
  else (t, Err "malformed path").

(** Modelled from the spec: set of section 4.5 step 4 (ytypes.SetNode): the
    leaf at the address gets the value, the other leaves stay. *)
Definition SetNode (schema : option unit) (n : Node) (p : Path) (v : string)
    (opts : list NodeOpt) (t : Tree) : Tree * result unit :=
  if wellFormed p then
    ((n ++ addr p, v)
       :: filter (fun kv => negb (bool_decide (kv.1 = n ++ addr p))) t, Ok tt)
  else (t, Err "malformed path").

(** Modelled from the spec: the join of a prefix and an address
    (util.JoinPaths). *)
Definition JoinPaths (a b : Path) : result Path := Ok (mkPath (Elem a ++ Elem b)).

(** What occupies an address under a node: the leaves at or below it. *)
Definition content (n : Node) (p : Path) (t : Tree) : Tree :=
  filter (fun kv => under (n ++ addr p) kv) t.

Definition valueAt (n : Node) (p : Path) (v : string) : Tree := [(n ++ addr p, v)].

Definition schema : Schema Node unit := mkSchema [] tt ∅.

Definition at_ (names : list string) : Path :=
  mkPath (map (fun s => mkPathElem s ∅) names).

Definition deletePaths := ytypes.deletePaths Tree Node unit DeleteNode JoinPaths.
Definition replacePaths :=
  ytypes.replacePaths Tree Node unit string DeleteNode SetNode JoinPaths.
Definition updatePaths :=
  ytypes.updatePaths Tree Node unit string SetNode JoinPaths.
Definition UnmarshalSetRequest :=
  ytypes.UnmarshalSetRequest Tree Node unit string typeName unit
    (fun _ => false) (fun _ => false) GetOrCreateNode DeleteNode SetNode JoinPaths.
Definition UnmarshalNotifications :=
  ytypes.UnmarshalNotifications Tree Node unit string typeName unit
    (fun _ => false) (fun _ => false) GetOrCreateNode DeleteNode SetNode JoinPaths.

End flat.

(** * Properties *)

(** ** pathSpec.Equal *)

Section EqualFacts.
Import gnmi ygot.

Lemma proto_Equal_true (a b : Path) : proto_Equal a b = true ↔ a = b.
Proof. unfold proto_Equal. apply bool_decide_eq_true. Qed.

(** Equal is inclusion of the receiver's addresses in the argument's. *)
Lemma Equal_inclusion (p o : pathSpec) :
  Equal (Some p) (Some o) = true
  ↔ ∀ x, x ∈ elems (gNMIPaths p) → x ∈ elems (gNMIPaths o).
Proof.
  unfold Equal. rewrite forallb_forall. split.
  - intros H x Hx. apply list_elem_of_In in Hx.
    specialize (H x Hx). apply existsb_exists in H as (y & Hy & Hxy).
    apply proto_Equal_true in Hxy. subst y. by apply list_elem_of_In.
  - intros H x Hx. apply existsb_exists. exists x. split.
    + apply list_elem_of_In, H. by apply list_elem_of_In.
    + by apply proto_Equal_true.
Qed.

Lemma Equal_nil_r (p : option pathSpec) : Equal p None = true ↔ p = None.
Proof. destruct p; simpl; split; congruence. Qed.

End EqualFacts.

(** C2. Equal is meant as equality of the two sets of addresses, yet it only
    checks that every address of the receiver is among the argument's: the
    pathSpec of [/a] alone is Equal to the pathSpec of [/a] and [/b], the
    two sets differ, and the comparison the other way round is false. *)
Theorem Equal_accepts_strict_subset :
  ygot.Equal (Some leaves.spec_a) (Some leaves.spec_a_b) = true
  ∧ ¬ ygot.same_path_set leaves.spec_a leaves.spec_a_b
  ∧ ygot.Equal (Some leaves.spec_a_b) (Some leaves.spec_a) = false.
Proof.
  split; [reflexivity | split; [| reflexivity]].
  intros H. specialize (H (leaves.leaf ["b"])) as [_ H].
  assert (Hb : leaves.leaf ["b"] ∈ [leaves.leaf ["a"]]).
  { apply H. simpl. apply list_elem_of_further, list_elem_of_here. }
  apply list_elem_of_singleton in Hb. discriminate Hb.
Qed.

(** ** leastSpecificPath and single-path mode *)

Section SinglePath.
Import gnmi ygot.

(** The loop, started on a non-nil [shortPath], over non-nil paths: the
    result is [shortPath] itself when no path is strictly shorter, and
    otherwise the first path of the least length. *)
Lemma leastSpecificPath_from_first_shortest (paths : list (slice string)) :
  ∀ s : list string,
    Forall (fun p => p ≠ None) paths →
    ∃ r, leastSpecificPath_from (Some s) paths = Some r
      ∧ ((r = s ∧ Forall (fun q => length s ≤ len q) paths)
         ∨ (∃ pre post, paths = pre ++ Some r :: post
              ∧ length r < length s
              ∧ Forall (fun q => length r < len q) pre
              ∧ Forall (fun q => length r ≤ len q) post)).
Proof.
  induction paths as [| p rest IH]; intros s Hnn.
  - exists s. split; [reflexivity | left; split; [reflexivity | constructor]].
  - inversion Hnn as [| ? ? Hp Hrest]; subst.
    destruct p as [q |]; [| congruence].
    simpl. unfold len at 1 2. simpl.
    destruct (Nat.ltb_spec (length q) (length s)) as [Hlt | Hge].
    + destruct (IH q Hrest) as (r & Hr & [[-> Hall] | (pre & post & -> & Hlt' & Hpre & Hpost)]).
      * exists q. split; [exact Hr |]. right. exists [], rest.
        repeat split; [exact Hlt | constructor | exact Hall].
      * exists r. split; [exact Hr |]. right. exists (Some q :: pre), post.
        repeat split; [lia | | exact Hpost].
        constructor; [exact Hlt' | exact Hpre].
    + destruct (IH s Hrest) as (r & Hr & [[-> Hall] | (pre & post & -> & Hlt' & Hpre & Hpost)]).
      * exists s. split; [exact Hr |]. left. split; [reflexivity |].
        constructor; [exact Hge | exact Hall].
      * exists r. split; [exact Hr |]. right. exists (Some q :: pre), post.
        repeat split; [exact Hlt' | | exact Hpost].
        constructor; [unfold len; simpl; lia | exact Hpre].
Qed.

(** On a non-empty slice of non-nil paths leastSpecificPath returns the first
    of the paths of the least length. *)
Lemma leastSpecificPath_first_shortest (paths : list (slice string)) :
  paths ≠ [] →
  Forall (fun p => p ≠ None) paths →
  ∃ pre r post, paths = pre ++ Some r :: post
    ∧ leastSpecificPath paths = Some r
    ∧ Forall (fun q => length r < len q) pre
    ∧ Forall (fun q => length r ≤ len q) post.
Proof.
  intros Hne Hnn. destruct paths as [| p rest]; [congruence |].
  inversion Hnn as [| ? ? Hp Hrest]; subst.
  destruct p as [q |]; [| congruence].
  unfold leastSpecificPath. simpl. rewrite Nat.ltb_irrefl.
  destruct (leastSpecificPath_from_first_shortest rest q Hrest)
    as (r & Hr & [[-> Hall] | (pre & post & -> & Hlt & Hpre & Hpost)]).
  - exists [], q, rest. repeat split; [exact Hr | constructor | exact Hall].
  - exists (Some q :: pre), r, post. repeat split; [exact Hr | | exact Hpost].
    constructor; [exact Hlt | exact Hpre].
Qed.

Lemma findSetLeaves_declaredPaths_nonempty (pathOpt : option DiffPathOpt)
    (sf : StructField) (sp : list (slice string)) :
  findSetLeaves_declaredPaths pathOpt sf = Ok sp → sp ≠ [].
Proof.
  unfold findSetLeaves_declaredPaths.
  set (sp0 := match pathOpt with Some o => _ | None => _ end).
  destruct (length sp0 =? 0)%nat.
  - destruct (SchemaPaths sf) as [sp1 | |]; simpl; try discriminate.
    destruct sp1; simpl; [discriminate | congruence].
  - simpl. destruct sp0; simpl; [discriminate | congruence].
Qed.

End SinglePath.

(** The key under which a field with the addresses [/b] and [/a] is
    remembered as processed. *)
Example processedKey_sorts_and_joins : ygot.processedKey ["/b"; "/a"] = "/a//b".
Proof. reflexivity. Qed.

(** In single-path mode the leaf of [leaves.nameVisit] is recorded under
    [/name] alone; without the option, under its three addresses. *)
Example findSetIterFunc_records_leaf :
  ygot.outLeaves
    (ygot.findSetIterFunc leaves.PathToString (fun m : gmap string string => Ok m)
       (Some (ygot.mkDiffPathOpt true false)) leaves.nameVisit
       (ygot.mkWalkState ∅ [])).1.2
  = [(ygot.mkPathSpec (Some [leaves.leaf ["name"]]), "eth0")]
  ∧ ygot.outLeaves
      (ygot.findSetIterFunc leaves.PathToString (fun m : gmap string string => Ok m)
         None leaves.nameVisit (ygot.mkWalkState ∅ [])).1.2
    = [(ygot.mkPathSpec
          (Some [leaves.leaf ["config"; "name"]; leaves.leaf ["name"];
                 leaves.leaf ["id"]]), "eth0")].
Proof. split; vm_compute; reflexivity. Qed.

(** C8. In single-path mode (MapToSinglePath), the declared paths [sp] of a
    field (a non-empty slice; each path comes from a struct tag and is not
    nil) are collapsed to one path [r] before the pathSpec is computed: [r]
    is in [sp], every path before it is strictly longer and every path after
    it is at least as long. The pathSpec of the field is computed from [r]
    alone: for a field of the root it is the single address of [r], and below
    a parent with one address it is that address followed by [r]; and what
    the iteration function records for a field of the root, when it records
    the field, is its value under that single address. *)
Theorem single_path_mode_first_shortest (Val KeyVal : Type)
    (PathToString : gnmi.Path → result string)
    (keyMapAsStrings : gmap string KeyVal → result (gmap string string))
    (o : ygot.DiffPathOpt) (ni : ygot.NodeInfo KeyVal) (sf : ygot.StructField)
    (sp : list (slice string)) :
  ygot.MapToSinglePath o = true →
  ygot.findSetLeaves_declaredPaths (Some o) sf = Ok sp →
  Forall (fun p => p ≠ None) sp →
  ∃ pre r post,
    sp = pre ++ Some r :: post
    ∧ Forall (fun q => length r < len q) pre
    ∧ Forall (fun q => length r ≤ len q) post
    ∧ ygot.findSetLeaves_schemaPaths (Some o) sf = Ok [Some r]
    ∧ ygot.findSetLeaves_valuePath keyMapAsStrings (Some o) ni sf
      = ygot.nodeValuePath keyMapAsStrings ni [Some r]
    ∧ (ygot.Parent ni = None →
       ygot.findSetLeaves_valuePath keyMapAsStrings (Some o) ni sf
       = Ok (ygot.mkPathSpec (Some [ygot.schemaPathTogNMIPath (Some r)])))
    ∧ (∀ parent pp p,
         ygot.Parent ni = Some parent →
         is_nil (ygot.Annotation parent) = false →
         ygot.getPathSpec parent = Ok (Some pp) →
         ygot.FieldValue ni = None →
         ygot.gNMIPaths pp = Some [p] →
         ygot.findSetLeaves_valuePath keyMapAsStrings (Some o) ni sf
         = Ok (ygot.mkPathSpec (Some
             [ygot.joingNMIPaths p (ygot.schemaPathTogNMIPath (Some r))])))
    ∧ (∀ (v : ygot.visit Val KeyVal) (st : ygot.walkState Val),
         ygot.vNodeInfo v = ni →
         ygot.vStructField v = Some sf →
         ygot.Parent ni = None →
         ygot.outLeaves
           (ygot.findSetIterFunc PathToString keyMapAsStrings (Some o) v st).1.2
         = ygot.outLeaves st
         ∨ ygot.outLeaves
             (ygot.findSetIterFunc PathToString keyMapAsStrings (Some o) v st).1.2
           = ygot.outLeaves st
             ++ [(ygot.mkPathSpec (Some [ygot.schemaPathTogNMIPath (Some r)]),
                  ygot.vInterface v)]).
Proof.
  intros Hsingle Hdecl Hnn.
  pose proof (findSetLeaves_declaredPaths_nonempty _ _ _ Hdecl) as Hne.
  destruct (leastSpecificPath_first_shortest sp Hne Hnn)
    as (pre & r & post & Hsp & Hr & Hpre & Hpost).
  exists pre, r, post.
  assert (Hpaths : ygot.findSetLeaves_schemaPaths (Some o) sf = Ok [Some r]).
  { unfold ygot.findSetLeaves_schemaPaths. rewrite Hdecl. simpl.
    rewrite Hsingle, Hr. reflexivity. }
  assert (Hval : ygot.findSetLeaves_valuePath keyMapAsStrings (Some o) ni sf
                 = ygot.nodeValuePath keyMapAsStrings ni [Some r]).
  { unfold ygot.findSetLeaves_valuePath. rewrite Hpaths. reflexivity. }
  repeat split; try assumption.
  - intros Hroot. rewrite Hval. unfold ygot.nodeValuePath. rewrite Hroot.
    reflexivity.
  - intros parent pp p Hpar Hann Hcp Hfv Hpp. rewrite Hval.
    unfold ygot.nodeValuePath. rewrite Hpar, Hann, Hcp. simpl.
    rewrite Hfv. unfold ygot.nodeChildPath. rewrite Hpp. reflexivity.
  - intros v st Hni Hsf Hroot. unfold ygot.findSetIterFunc.
    rewrite Hsf, Hni, Hval. unfold ygot.nodeValuePath. rewrite Hroot.
    destruct (ygot.vIsYgotAnnotation v); [by left |].
    destruct (mapR PathToString _) as [keys | |]; [| by left | by left].
    destruct (decide (ygot.processedKey keys ∈ ygot.processedPaths st));
      [by left |].
    destruct (orb (orb (orb _ _) _) _); [by left |].
    destruct (ygot.vEnumInt v) as [[| |] |]; (by left) || (by right).
Qed.

(** The theorem at a field tagged [config/name|name|id] in single-path mode:
    [name] is kept, not [id]. *)
Lemma single_path_mode_first_shortest_witness :
  ∃ pre r post,
    [Some ["config"; "name"]; Some ["name"]; Some ["id"]] = pre ++ Some r :: post
    ∧ Forall (fun q => length r < len q) pre
    ∧ Forall (fun q => length r ≤ len q) post
    ∧ ygot.findSetLeaves_schemaPaths (Some (ygot.mkDiffPathOpt true false))
        (ygot.mkStructField "Name" []
           (Ok [Some ["config"; "name"]; Some ["name"]; Some ["id"]]))
      = Ok [Some r].
Proof.
  destruct (single_path_mode_first_shortest string string leaves.PathToString
              (fun m => Ok m) (ygot.mkDiffPathOpt true false)
              (ygot.mkNodeInfo None None None)
              (ygot.mkStructField "Name" []
                 (Ok [Some ["config"; "name"]; Some ["name"]; Some ["id"]]))
              [Some ["config"; "name"]; Some ["name"]; Some ["id"]]
              eq_refl eq_refl)
    as (pre & r & post & H1 & H2 & H3 & H4 & _).
  - repeat constructor; discriminate.
  - exists pre, r, post. auto.
Defined.

(** ** The mutation engine *)

Section MutationFacts.
Import gnmi ytypes.

Variable Tree : Type.
Variable Node : Type.
Variable yangEntry : Type.
Variable TypedValue : Type.
Variable typeName : Node → string.
Variable UnmarshalOpt : Type.
Variable hasPreferShadowPath : list UnmarshalOpt → bool.
Variable hasIgnoreExtraFields : list UnmarshalOpt → bool.
Variable GetOrCreateNode :
  yangEntry → Node → option Path → list NodeOpt → Tree → Tree * result (nodeI Node).
Variable DeleteNode :
  option yangEntry → Node → Path → list NodeOpt → Tree → Tree * result unit.
Variable SetNode :
  option yangEntry → Node → Path → TypedValue → list NodeOpt → Tree
  → Tree * result unit.
Variable JoinPaths : Path → Path → result Path.

Local Abbreviation deletePaths := (deletePaths Tree Node yangEntry DeleteNode JoinPaths).
Local Abbreviation setNode := (setNode Tree Node yangEntry TypedValue SetNode).
Local Abbreviation joinPrefixToUpdate := (joinPrefixToUpdate TypedValue JoinPaths).
Local Abbreviation replacePaths :=
  (replacePaths Tree Node yangEntry TypedValue DeleteNode SetNode JoinPaths).
Local Abbreviation updatePaths :=
  (updatePaths Tree Node yangEntry TypedValue SetNode JoinPaths).
Local Abbreviation subjectOf :=
  (subjectOf Tree Node yangEntry typeName GetOrCreateNode).
Local Abbreviation UnmarshalSetRequest :=
  (UnmarshalSetRequest Tree Node yangEntry TypedValue typeName UnmarshalOpt
     hasPreferShadowPath hasIgnoreExtraFields GetOrCreateNode DeleteNode SetNode
     JoinPaths).
Local Abbreviation UnmarshalNotifications :=
  (UnmarshalNotifications Tree Node yangEntry TypedValue typeName UnmarshalOpt
     hasPreferShadowPath hasIgnoreExtraFields GetOrCreateNode DeleteNode SetNode
     JoinPaths).

(** Case analysis on the outcome of the calls made by one turn of a loop. *)
Ltac case_join :=
  match goal with
  | |- context [JoinPaths ?a ?b] =>
      destruct (JoinPaths a b) as [? | ? |]; simpl; try reflexivity
  end.
Ltac case_delete :=
  match goal with
  | |- context [DeleteNode ?a ?b ?c ?d ?e] =>
      destruct (DeleteNode a b c d e) as [? [[] | ? |]]; simpl; try reflexivity
  end.
Ltac case_set :=
  match goal with
  | |- context [SetNode ?a ?b ?c ?d ?e ?f] =>
      destruct (SetNode a b c d e f) as [? [[] | ? |]]; simpl; try reflexivity
  end.
Ltac case_prefix pfx :=
  destruct pfx; simpl; [case_join |].

(** A loop over two lists in a row is the loop over the first, then, when
    that one returned no error, the loop over the second. *)
Lemma deletePaths_app s n pfx sh ps1 ps2 : ∀ t,
  deletePaths s n pfx (ps1 ++ ps2) sh t
  = match deletePaths s n pfx ps1 sh t with
    | (t1, Ok _) => deletePaths s n pfx ps2 sh t1
    | failed => failed
    end.
Proof.
  induction ps1 as [| p ps1 IH]; intros t; simpl; [reflexivity |].
  case_prefix pfx; case_delete; apply IH.
Qed.

Lemma replacePaths_app s n pfx sh ig us1 us2 : ∀ t,
  replacePaths s n pfx (us1 ++ us2) sh ig t
  = match replacePaths s n pfx us1 sh ig t with
    | (t1, Ok _) => replacePaths s n pfx us2 sh ig t1
    | failed => failed
    end.
Proof.
  induction us1 as [| u us1 IH]; intros t; simpl; [reflexivity |].
  unfold ytypes.joinPrefixToUpdate, ytypes.setNode.
  case_prefix pfx; case_delete; case_set; apply IH.
Qed.

Lemma updatePaths_app s n pfx sh ig us1 us2 : ∀ t,
  updatePaths s n pfx (us1 ++ us2) sh ig t
  = match updatePaths s n pfx us1 sh ig t with
    | (t1, Ok _) => updatePaths s n pfx us2 sh ig t1
    | failed => failed
    end.
Proof.
  induction us1 as [| u us1 IH]; intros t; simpl; [reflexivity |].
  unfold ytypes.joinPrefixToUpdate, ytypes.setNode.
  case_prefix pfx; case_set; apply IH.
Qed.

Lemma UnmarshalNotifications_app schema opts ns1 ns2 : ∀ t,
  UnmarshalNotifications schema (ns1 ++ ns2) opts t
  = match UnmarshalNotifications schema ns1 opts t with
    | (t1, Ok _) => UnmarshalNotifications schema ns2 opts t1
    | failed => failed
    end.
Proof.
  induction ns1 as [| n ns1 IH]; intros t; [reflexivity |].
  rewrite <- app_comm_cons.
  change (UnmarshalNotifications schema (n :: ?l) opts t)
    with (match UnmarshalSetRequest schema (Some (setRequestOf n)) opts t with
          | (t', Ok _) => UnmarshalNotifications schema l opts t'
          | failed => failed
          end).
  destruct (UnmarshalSetRequest schema (Some (setRequestOf n)) opts t)
    as [t' [[] | e |]]; [apply IH | reflexivity | reflexivity].
Qed.

(** A step that fails alone fails the same way with more steps behind it. *)
Lemma deletePaths_first_fails s n pfx sh p ps t t' e :
  deletePaths s n pfx [p] sh t = (t', Err e) →
  deletePaths s n pfx (p :: ps) sh t = (t', Err e).
Proof.
  simpl. case_prefix pfx; try (intros H; exact H);
    case_delete; intros H; first [exact H | discriminate H].
Qed.

Lemma replacePaths_first_fails s n pfx sh ig u us t t' e :
  replacePaths s n pfx [u] sh ig t = (t', Err e) →
  replacePaths s n pfx (u :: us) sh ig t = (t', Err e).
Proof.
  simpl. unfold ytypes.joinPrefixToUpdate, ytypes.setNode.
  case_prefix pfx; try (intros H; exact H);
    case_delete; try (intros H; exact H);
    case_set; intros H; first [exact H | discriminate H].
Qed.

Lemma updatePaths_first_fails s n pfx sh ig u us t t' e :
  updatePaths s n pfx [u] sh ig t = (t', Err e) →
  updatePaths s n pfx (u :: us) sh ig t = (t', Err e).
Proof.
  simpl. unfold ytypes.joinPrefixToUpdate, ytypes.setNode.
  case_prefix pfx; try (intros H; exact H);
    case_set; intros H; first [exact H | discriminate H].
Qed.

Lemma UnmarshalNotifications_first_fails schema opts n ns t t' e :
  UnmarshalNotifications schema [n] opts t = (t', Err e) →
  UnmarshalNotifications schema (n :: ns) opts t = (t', Err e).
Proof.
  change (UnmarshalNotifications schema [n] opts t)
    with (match UnmarshalSetRequest schema (Some (setRequestOf n)) opts t with
          | (t', Ok _) => (t', Ok tt)
          | failed => failed
          end).
  change (UnmarshalNotifications schema (n :: ns) opts t)
    with (match UnmarshalSetRequest schema (Some (setRequestOf n)) opts t with
          | (t', Ok _) => UnmarshalNotifications schema ns opts t'
          | failed => failed
          end).
  destruct (UnmarshalSetRequest schema (Some (setRequestOf n)) opts t)
    as [t1 [[] | e1 |]]; intros H; try exact H; discriminate H.
Qed.

(** UnmarshalSetRequest on a request that is not nil, phase by phase. *)
Lemma UnmarshalSetRequest_phases schema req opts t t0 node nodeName prefix :
  subjectOf schema (sPrefix req) (hasPreferShadowPath opts) t
  = (t0, Ok (node, nodeName, prefix)) →
  UnmarshalSetRequest schema (Some req) opts t
  = match deletePaths (SchemaTree schema !! nodeName) node prefix (sDelete req)
            (hasPreferShadowPath opts) t0 with
    | (t1, Ok _) =>
        match replacePaths (SchemaTree schema !! nodeName) node prefix
                (sReplace req) (hasPreferShadowPath opts)
                (hasIgnoreExtraFields opts) t1 with
        | (t2, Ok _) =>
            updatePaths (SchemaTree schema !! nodeName) node prefix
              (sUpdate req) (hasPreferShadowPath opts)
              (hasIgnoreExtraFields opts) t2
        | failed => failed
        end
    | failed => failed
    end.
Proof.
  intros Hsub. unfold ytypes.UnmarshalSetRequest. rewrite Hsub. reflexivity.
Qed.

(** C10. UnmarshalSetRequest with a nil request returns the nil error and
    the tree as it was. *)
Theorem UnmarshalSetRequest_nil_request (schema : Schema Node yangEntry)
    (opts : list UnmarshalOpt) (t : Tree) :
  UnmarshalSetRequest schema None opts t = (t, Ok tt).
Proof. reflexivity. Qed.

(** C4. A batch stops at its first failing operation, returns that error and
    leaves the tree as the operations up to and including the failing one
    left it. In deletePaths, replacePaths and updatePaths, an operation that
    succeeds hands the tree it left to the operations after it; once the
    operations before a path or an update have run without error, an error
    of util.JoinPaths, of DeleteNode or of SetNode on it is the result of
    the whole loop (the errors of JoinPaths and SetNode behind the prefix
    the code gives them), with the tree as that call left it, whatever
    follows in the slice; in replacePaths the delete that preceded a failing
    set is not undone. In UnmarshalSetRequest a failing delete, replace or
    update phase ends the request with its error and its tree. In
    UnmarshalNotifications a notification applied without error hands its
    tree to the next, and an error of UnmarshalSetRequest on a notification
    is the result, with its tree, whatever notifications follow. *)
Theorem batch_stops_at_first_failure :
  (∀ s n pfx (sh : bool) (p : Path) ps t (p' : Path),
     match pfx with Some q => JoinPaths q p | None => Ok p end = Ok p' →
     (∀ t',
        DeleteNode s n p' (if sh then [PreferShadowPath] else []) t = (t', Ok tt) →
        deletePaths s n pfx (p :: ps) sh t = deletePaths s n pfx ps sh t')
     ∧ (∀ t' e,
          DeleteNode s n p' (if sh then [PreferShadowPath] else []) t
          = (t', Err e) →
          deletePaths s n pfx (p :: ps) sh t = (t', Err e)))
  ∧ (∀ s n pfx (sh : bool) ps1 (p : Path) ps2 t t1,
       deletePaths s n pfx ps1 sh t = (t1, Ok tt) →
       (∀ q e, pfx = Some q → JoinPaths q p = Err e →
          deletePaths s n pfx (ps1 ++ p :: ps2) sh t
          = (t1, Err ("cannot join prefix with deletion path: " +:+ e)))
       ∧ (∀ (p' : Path) t2 e,
            match pfx with Some q => JoinPaths q p | None => Ok p end = Ok p' →
            DeleteNode s n p' (if sh then [PreferShadowPath] else []) t1
            = (t2, Err e) →
            deletePaths s n pfx (ps1 ++ p :: ps2) sh t = (t2, Err e)))
  ∧ (∀ s n pfx (sh ig : bool) (u : Update TypedValue) us t (p' : Path) t1 t2,
       match pfx with Some q => JoinPaths q (uPath u) | None => Ok (uPath u) end
       = Ok p' →
       DeleteNode s n p' (if sh then [PreferShadowPath] else []) t = (t1, Ok tt) →
       SetNode s n p' (uVal u)
         ([InitMissingElements] ++ (if sh then [PreferShadowPath] else [])
          ++ (if ig then [IgnoreExtraFields] else [])) t1 = (t2, Ok tt) →
       replacePaths s n pfx (u :: us) sh ig t = replacePaths s n pfx us sh ig t2)
  ∧ (∀ s n pfx (sh ig : bool) us1 (u : Update TypedValue) us2 t t1,
       replacePaths s n pfx us1 sh ig t = (t1, Ok tt) →
       (∀ q e, pfx = Some q → JoinPaths q (uPath u) = Err e →
          replacePaths s n pfx (us1 ++ u :: us2) sh ig t
          = (t1, Err ("cannot join prefix with gpb.Update path: " +:+ e)))
       ∧ (∀ (p' : Path) t2 e,
            match pfx with Some q => JoinPaths q (uPath u) | None => Ok (uPath u) end
            = Ok p' →
            DeleteNode s n p' (if sh then [PreferShadowPath] else []) t1
            = (t2, Err e) →
            replacePaths s n pfx (us1 ++ u :: us2) sh ig t = (t2, Err e))
       ∧ (∀ (p' : Path) t2 t3 e,
            match pfx with Some q => JoinPaths q (uPath u) | None => Ok (uPath u) end
            = Ok p' →
            DeleteNode s n p' (if sh then [PreferShadowPath] else []) t1
            = (t2, Ok tt) →
            SetNode s n p' (uVal u)
              ([InitMissingElements] ++ (if sh then [PreferShadowPath] else [])
               ++ (if ig then [IgnoreExtraFields] else [])) t2 = (t3, Err e) →
            replacePaths s n pfx (us1 ++ u :: us2) sh ig t
            = (t3, Err ("setNode: " +:+ e))))
  ∧ (∀ s n pfx (sh ig : bool) (u : Update TypedValue) us t (p' : Path) t1,
       match pfx with Some q => JoinPaths q (uPath u) | None => Ok (uPath u) end
       = Ok p' →
       SetNode s n p' (uVal u)
         ([InitMissingElements] ++ (if sh then [PreferShadowPath] else [])
          ++ (if ig then [IgnoreExtraFields] else [])) t = (t1, Ok tt) →
       updatePaths s n pfx (u :: us) sh ig t = updatePaths s n pfx us sh ig t1)
  ∧ (∀ s n pfx (sh ig : bool) us1 (u : Update TypedValue) us2 t t1,
       updatePaths s n pfx us1 sh ig t = (t1, Ok tt) →
       (∀ q e, pfx = Some q → JoinPaths q (uPath u) = Err e →
          updatePaths s n pfx (us1 ++ u :: us2) sh ig t
          = (t1, Err ("cannot join prefix with gpb.Update path: " +:+ e)))
       ∧ (∀ (p' : Path) t2 e,
            match pfx with Some q => JoinPaths q (uPath u) | None => Ok (uPath u) end
            = Ok p' →
            SetNode s n p' (uVal u)
              ([InitMissingElements] ++ (if sh then [PreferShadowPath] else [])
               ++ (if ig then [IgnoreExtraFields] else [])) t1 = (t2, Err e) →
            updatePaths s n pfx (us1 ++ u :: us2) sh ig t
            = (t2, Err ("setNode: " +:+ e))))
  ∧ (∀ schema req opts t t0 node nodeName prefix t1 e,
       subjectOf schema (sPrefix req) (hasPreferShadowPath opts) t
       = (t0, Ok (node, nodeName, prefix)) →
       deletePaths (SchemaTree schema !! nodeName) node prefix (sDelete req)
         (hasPreferShadowPath opts) t0 = (t1, Err e) →
       UnmarshalSetRequest schema (Some req) opts t = (t1, Err e))
  ∧ (∀ schema req opts t t0 node nodeName prefix t1 t2 e,
       subjectOf schema (sPrefix req) (hasPreferShadowPath opts) t
       = (t0, Ok (node, nodeName, prefix)) →
       deletePaths (SchemaTree schema !! nodeName) node prefix (sDelete req)
         (hasPreferShadowPath opts) t0 = (t1, Ok tt) →
       replacePaths (SchemaTree schema !! nodeName) node prefix (sReplace req)
         (hasPreferShadowPath opts) (hasIgnoreExtraFields opts) t1
       = (t2, Err e) →
       UnmarshalSetRequest schema (Some req) opts t = (t2, Err e))
  ∧ (∀ schema req opts t t0 node nodeName prefix t1 t2 t3 e,
       subjectOf schema (sPrefix req) (hasPreferShadowPath opts) t
       = (t0, Ok (node, nodeName, prefix)) →
       deletePaths (SchemaTree schema !! nodeName) node prefix (sDelete req)
         (hasPreferShadowPath opts) t0 = (t1, Ok tt) →
       replacePaths (SchemaTree schema !! nodeName) node prefix (sReplace req)
         (hasPreferShadowPath opts) (hasIgnoreExtraFields opts) t1
       = (t2, Ok tt) →
       updatePaths (SchemaTree schema !! nodeName) node prefix (sUpdate req)
         (hasPreferShadowPath opts) (hasIgnoreExtraFields opts) t2
       = (t3, Err e) →
       UnmarshalSetRequest schema (Some req) opts t = (t3, Err e))
  ∧ (∀ schema opts n ns t t1,
       UnmarshalSetRequest schema (Some (setRequestOf n)) opts t = (t1, Ok tt) →
       UnmarshalNotifications schema (n :: ns) opts t
       = UnmarshalNotifications schema ns opts t1)
  ∧ (∀ schema opts ns1 n ns2 t t1 t2 e,
       UnmarshalNotifications schema ns1 opts t = (t1, Ok tt) →
       UnmarshalSetRequest schema (Some (setRequestOf n)) opts t1 = (t2, Err e) →
       UnmarshalNotifications schema (ns1 ++ n :: ns2) opts t = (t2, Err e)).
Proof.
  split; [| split; [| split; [| split; [| split; [| split; [| split;
    [| split; [| split; [| split]]]]]]]]].
  - intros * Hj. split.
    + intros t' Hd. cbn [ytypes.deletePaths].
      destruct pfx as [q |]; [rewrite Hj | injection Hj as ->];
        cbn [wrapErr]; by rewrite Hd.
    + intros t' e Hd. cbn [ytypes.deletePaths].
      destruct pfx as [q |]; [rewrite Hj | injection Hj as ->];
        cbn [wrapErr]; by rewrite Hd.
  - intros * H1. split.
    + intros q e -> Hj. rewrite deletePaths_app, H1.
      cbn [ytypes.deletePaths]. rewrite Hj. reflexivity.
    + intros p' t2 e Hj Hd. rewrite deletePaths_app, H1.
      cbn [ytypes.deletePaths].
      destruct pfx as [q |]; [rewrite Hj | injection Hj as ->];
        cbn [wrapErr]; by rewrite Hd.
  - intros * Hj Hd Hs. cbn [ytypes.replacePaths].
    unfold ytypes.joinPrefixToUpdate, ytypes.setNode.
    destruct pfx as [q |]; [rewrite Hj | injection Hj as <-];
      cbn [uPath uVal]; by rewrite Hd, Hs.
  - intros * H1. split; [| split].
    + intros q e -> Hj. rewrite replacePaths_app, H1.
      cbn [ytypes.replacePaths]. unfold ytypes.joinPrefixToUpdate.
      rewrite Hj. reflexivity.
    + intros p' t2 e Hj Hd. rewrite replacePaths_app, H1.
      cbn [ytypes.replacePaths]. unfold ytypes.joinPrefixToUpdate.
      destruct pfx as [q |]; [rewrite Hj | injection Hj as <-];
        cbn [uPath uVal]; by rewrite Hd.
    + intros p' t2 t3 e Hj Hd Hs. rewrite replacePaths_app, H1.
      cbn [ytypes.replacePaths].
      unfold ytypes.joinPrefixToUpdate, ytypes.setNode.
      destruct pfx as [q |]; [rewrite Hj | injection Hj as <-];
        cbn [uPath uVal]; by rewrite Hd, Hs.
  - intros * Hj Hs. cbn [ytypes.updatePaths].
    unfold ytypes.joinPrefixToUpdate, ytypes.setNode.
    destruct pfx as [q |]; [rewrite Hj | injection Hj as <-];
      cbn [uPath uVal]; by rewrite Hs.
  - intros * H1. split.
    + intros q e -> Hj. rewrite updatePaths_app, H1.
      cbn [ytypes.updatePaths]. unfold ytypes.joinPrefixToUpdate.
      rewrite Hj. reflexivity.
    + intros p' t2 e Hj Hs. rewrite updatePaths_app, H1.
      cbn [ytypes.updatePaths].
      unfold ytypes.joinPrefixToUpdate, ytypes.setNode.
      destruct pfx as [q |]; [rewrite Hj | injection Hj as <-];
        cbn [uPath uVal]; by rewrite Hs.
  - intros * Hsub Hdel.
    rewrite (UnmarshalSetRequest_phases _ _ _ _ _ _ _ _ Hsub), Hdel. reflexivity.
  - intros * Hsub Hdel Hrep.
    rewrite (UnmarshalSetRequest_phases _ _ _ _ _ _ _ _ Hsub), Hdel, Hrep.
    reflexivity.
  - intros * Hsub Hdel Hrep Hupd.
    rewrite (UnmarshalSetRequest_phases _ _ _ _ _ _ _ _ Hsub), Hdel, Hrep.
    exact Hupd.
  - intros * H1.
    change (UnmarshalNotifications schema (n :: ns) opts t)
      with (match UnmarshalSetRequest schema (Some (setRequestOf n)) opts t with
            | (t', Ok _) => UnmarshalNotifications schema ns opts t'
            | failed => failed
            end).
    by rewrite H1.
  - intros * H1 H2. rewrite UnmarshalNotifications_app, H1.
    change (UnmarshalNotifications schema (n :: ns2) opts t1)
      with (match UnmarshalSetRequest schema (Some (setRequestOf n)) opts t1 with
            | (t', Ok _) => UnmarshalNotifications schema ns2 opts t'
            | failed => failed
            end).
    by rewrite H2.
Qed.

(** deletePaths on the empty address alone: one DeleteNode, on the empty
    address itself or on its join with the carried prefix. *)
Lemma deletePaths_whole_subject s n sh t :
  deletePaths s n None [mkPath []] sh t
  = match DeleteNode s n (mkPath []) (if sh then [PreferShadowPath] else []) t with
    | (t', Ok _) => (t', Ok tt)
    | failed => failed
    end.
Proof. simpl. case_delete. Qed.

(** C5. For a notification whose atomic flag is set, once the subject is
    addressed and the deletes it lists have run without error, the empty
    address is deleted under the subject (everything under it), and only then
    are the updates applied, to the tree this delete left; the rest of the
    notifications follow. *)
Theorem atomic_notification_deletes_subject_first
    (schema : Schema Node yangEntry) (n : Notification TypedValue)
    (ns : list (Notification TypedValue)) (opts : list UnmarshalOpt)
    (t t0 t1 : Tree) (node : Node) (nodeName : string) (prefix : option Path) :
  nAtomic n = true →
  subjectOf schema (nPrefix n) (hasPreferShadowPath opts) t
  = (t0, Ok (node, nodeName, prefix)) →
  deletePaths (SchemaTree schema !! nodeName) node prefix (nDelete n)
    (hasPreferShadowPath opts) t0 = (t1, Ok tt) →
  UnmarshalNotifications schema (n :: ns) opts t
  = match deletePaths (SchemaTree schema !! nodeName) node prefix [mkPath []]
            (hasPreferShadowPath opts) t1 with
    | (t2, Ok _) =>
        match updatePaths (SchemaTree schema !! nodeName) node prefix
                (nUpdate n) (hasPreferShadowPath opts)
                (hasIgnoreExtraFields opts) t2 with
        | (t3, Ok _) => UnmarshalNotifications schema ns opts t3
        | failed => failed
        end
    | failed => failed
    end.
Proof.
  intros Hatomic Hsub Hdel.
  change (UnmarshalNotifications schema (n :: ns) opts t)
    with (match UnmarshalSetRequest schema (Some (setRequestOf n)) opts t with
          | (t', Ok _) => UnmarshalNotifications schema ns opts t'
          | failed => failed
          end).
  rewrite (UnmarshalSetRequest_phases schema (setRequestOf n) opts t t0 node
             nodeName prefix Hsub).
  unfold setRequestOf. rewrite Hatomic. cbn [sDelete sReplace sUpdate].
  rewrite deletePaths_app, Hdel.
  destruct (deletePaths (SchemaTree schema !! nodeName) node prefix [mkPath []]
              (hasPreferShadowPath opts) t1) as [t2 [[] | e |]];
    [| reflexivity | reflexivity].
  cbn [ytypes.replacePaths].
  destruct (updatePaths (SchemaTree schema !! nodeName) node prefix (nUpdate n)
              (hasPreferShadowPath opts) (hasIgnoreExtraFields opts) t2)
    as [t3 [[] | e |]]; reflexivity.
Qed.

Section Replace.

(** What occupies an address under a node, with the contracts of DeleteNode
    and SetNode that a replace relies on: a delete that returns no error
    leaves the address empty, and a set on an empty address that returns no
    error leaves exactly the value there. *)
Variable Content : Type.
Variable content : Node → Path → Tree → Content.
Variable emptyContent : Content.
Variable valueContent : Node → Path → TypedValue → Content.

Hypothesis DeleteNode_clears : ∀ s n p o t t',
  DeleteNode s n p o t = (t', Ok tt) → content n p t' = emptyContent.
Hypothesis SetNode_on_empty : ∀ s n p v o t t',
  content n p t = emptyContent →
  SetNode s n p v o t = (t', Ok tt) →
  content n p t' = valueContent n p v.

(** C3. A replace operation [u], wherever it stands in the list, first
    deletes what is at its address (joined to the carried prefix), then sets
    the address to the value on the tree the delete left. When both return no
    error the content of the address is exactly the value, whatever was there
    before, and the loop goes on with the next operation; when either fails
    the loop ends there with that error. *)
Theorem replace_deletes_then_sets s n pfx sh ig us1 u us2 t t1 u' :
  replacePaths s n pfx us1 sh ig t = (t1, Ok tt) →
  joinPrefixToUpdate pfx u = Ok u' →
  ∃ t2 r2,
    DeleteNode s n (uPath u') (if sh then [PreferShadowPath] else []) t1 = (t2, r2)
    ∧ match r2 with
      | Ok _ =>
          ∃ t3 r3,
            setNode s n u' sh ig t2 = (t3, r3)
            ∧ match r3 with
              | Ok _ =>
                  content n (uPath u') t3 = valueContent n (uPath u') (uVal u')
                  ∧ replacePaths s n pfx (us1 ++ u :: us2) sh ig t
                    = replacePaths s n pfx us2 sh ig t3
              | _ => replacePaths s n pfx (us1 ++ u :: us2) sh ig t = (t3, r3)
              end
      | _ => replacePaths s n pfx (us1 ++ u :: us2) sh ig t = (t2, r2)
      end.
Proof.
  intros Hbefore Hjoin.
  rewrite replacePaths_app, Hbefore. cbn [ytypes.replacePaths]. rewrite Hjoin.
  destruct (DeleteNode s n (uPath u') (if sh then [PreferShadowPath] else []) t1)
    as [t2 r2] eqn:Hdel.
  exists t2, r2. split; [reflexivity |].
  destruct r2 as [[] | e |]; [| reflexivity | reflexivity].
  destruct (setNode s n u' sh ig t2) as [t3 r3] eqn:Hset.
  exists t3, r3. split; [reflexivity |].
  destruct r3 as [[] | e |]; [| reflexivity | reflexivity].
  split; [| reflexivity].
  unfold ytypes.setNode in Hset.
  destruct (SetNode s n (uPath u') (uVal u') _ t2) as [t3' [[] | e |]] eqn:Hraw;
    inversion Hset; subst.
  eapply SetNode_on_empty; [| exact Hraw].
  eapply DeleteNode_clears. exact Hdel.
Qed.

End Replace.

End MutationFacts.

(** ** The mutation engine on a tree of leaves *)

Section FlatFacts.
Import gnmi ytypes.

Lemma flat_DeleteNode_clears (s : option unit) (n : flat.Node) (p : Path)
    (o : list NodeOpt) (t t' : flat.Tree) :
  flat.DeleteNode s n p o t = (t', Ok tt) → flat.content n p t' = [].
Proof.
  unfold flat.DeleteNode, flat.content, flat.Tree in *.
  destruct (flat.wellFormed p); [| discriminate].
  intros [= <-]. rewrite list_filter_filter.
  induction t as [| kv t IH]; [reflexivity |].
  rewrite filter_cons_False; [exact IH |].
  intros [H1 H2]. destruct (flat.under (n ++ flat.addr p) kv); simpl in *; tauto.
Qed.

Lemma flat_SetNode_on_empty (s : option unit) (n : flat.Node) (p : Path)
    (v : string) (o : list NodeOpt) (t t' : flat.Tree) :
  flat.content n p t = [] →
  flat.SetNode s n p v o t = (t', Ok tt) →
  flat.content n p t' = flat.valueAt n p v.
Proof.
  unfold flat.SetNode, flat.content, flat.valueAt, flat.Tree in *.
  destruct (flat.wellFormed p); [| discriminate].
  intros Hempty [= <-].
  rewrite filter_cons_True.
  - f_equal. rewrite list_filter_filter.
    induction t as [| kv t IH]; [reflexivity |].
    destruct (decide (Is_true (flat.under (n ++ flat.addr p) kv))) as [Hu | Hu].
    + rewrite filter_cons_True in Hempty by exact Hu. discriminate Hempty.
    + rewrite filter_cons_False in Hempty by exact Hu.
      rewrite filter_cons_False by tauto. exact (IH Hempty).
  - unfold flat.under. simpl. apply bool_decide_pack. reflexivity.
Qed.

End FlatFacts.

(** The replace of [/y] by 9 on the tree x=1, y=2, y/old=7: the leaf below
    [/y] does not survive. *)
Lemma replace_deletes_then_sets_witness :
  ∃ t2 r2,
    flat.DeleteNode None [] (flat.at_ ["y"]) []
      [(["x"], "1"); (["y"], "2"); (["y"; "old"], "7")] = (t2, r2)
    ∧ match r2 with
      | Ok _ =>
          ∃ t3 r3,
            ytypes.setNode flat.Tree flat.Node unit string flat.SetNode None []
              (gnmi.mkUpdate (flat.at_ ["y"]) "9") false false t2 = (t3, r3)
            ∧ match r3 with
              | Ok _ =>
                  flat.content [] (flat.at_ ["y"]) t3
                  = flat.valueAt [] (flat.at_ ["y"]) "9"
                  ∧ flat.replacePaths None [] None
                      ([] ++ gnmi.mkUpdate (flat.at_ ["y"]) "9" :: []) false false
                      [(["x"], "1"); (["y"], "2"); (["y"; "old"], "7")]
                    = flat.replacePaths None [] None [] false false t3
              | _ =>
                  flat.replacePaths None [] None
                    ([] ++ gnmi.mkUpdate (flat.at_ ["y"]) "9" :: []) false false
                    [(["x"], "1"); (["y"], "2"); (["y"; "old"], "7")] = (t3, r3)
              end
      | _ =>
          flat.replacePaths None [] None
            ([] ++ gnmi.mkUpdate (flat.at_ ["y"]) "9" :: []) false false
            [(["x"], "1"); (["y"], "2"); (["y"; "old"], "7")] = (t2, r2)
      end.
Proof.
  exact (replace_deletes_then_sets flat.Tree flat.Node unit string
           flat.DeleteNode flat.SetNode flat.JoinPaths
           flat.Tree flat.content [] flat.valueAt
           flat_DeleteNode_clears flat_SetNode_on_empty
           None [] None false false [] (gnmi.mkUpdate (flat.at_ ["y"]) "9") []
           [(["x"], "1"); (["y"], "2"); (["y"; "old"], "7")]
           [(["x"], "1"); (["y"], "2"); (["y"; "old"], "7")]
           (gnmi.mkUpdate (flat.at_ ["y"]) "9") eq_refl eq_refl).
Defined.

(** The result of that replace. *)
Example replace_on_flat_tree :
  flat.replacePaths None [] None [gnmi.mkUpdate (flat.at_ ["y"]) "9"] false false
    [(["x"], "1"); (["y"], "2"); (["y"; "old"], "7")]
  = ([(["y"], "9"); (["x"], "1")], Ok tt).
Proof. vm_compute. reflexivity. Qed.

(** The deletes of [/x], of a malformed address and of [/y] on x=1, y=2: the
    second fails, [x] stays deleted and [y] is not looked at. The
    notifications that set z=3, set a malformed address and delete [/x], on
    x=1: the second fails, [z] stays set and [x] is not deleted. *)
Lemma batch_stops_at_first_failure_witness :
  flat.deletePaths None [] None
    ([flat.at_ ["x"]] ++ flat.at_ [""] :: [flat.at_ ["y"]]) false
    [(["x"], "1"); (["y"], "2")]
  = ([(["y"], "2")], Err "malformed path")
  ∧ flat.UnmarshalNotifications flat.schema
      ([gnmi.mkNotification None [gnmi.mkUpdate (flat.at_ ["z"]) "3"] [] false]
       ++ gnmi.mkNotification None [gnmi.mkUpdate (flat.at_ [""]) "4"] [] false
       :: [gnmi.mkNotification None [] [flat.at_ ["x"]] false]) []
      [(["x"], "1")]
    = ([(["z"], "3"); (["x"], "1")], Err "setNode: malformed path").
Proof.
  pose proof (batch_stops_at_first_failure flat.Tree flat.Node unit string
                flat.typeName unit (fun _ => false) (fun _ => false)
                flat.GetOrCreateNode flat.DeleteNode flat.SetNode
                flat.JoinPaths)
    as (_ & Hdel & _ & _ & _ & _ & _ & _ & _ & _ & Hnot).
  split.
  - apply (proj2 (Hdel None [] None false [flat.at_ ["x"]] (flat.at_ [""])
                    [flat.at_ ["y"]] [(["x"], "1"); (["y"], "2")]
                    [(["y"], "2")] eq_refl)
             (flat.at_ [""]) [(["y"], "2")] "malformed path");
      reflexivity.
  - apply (Hnot flat.schema []
             [gnmi.mkNotification None [gnmi.mkUpdate (flat.at_ ["z"]) "3"] []
                false]
             (gnmi.mkNotification None [gnmi.mkUpdate (flat.at_ [""]) "4"] []
                false)
             [gnmi.mkNotification None [] [flat.at_ ["x"]] false]
             [(["x"], "1")] [(["z"], "3"); (["x"], "1")]);
      vm_compute; reflexivity.
Defined.

(** An atomic notification with no listed delete and the update z=3, on
    x=1, y=2: everything goes, then [z] is set. *)
Lemma atomic_notification_deletes_subject_first_witness :
  flat.UnmarshalNotifications flat.schema
    [gnmi.mkNotification None [gnmi.mkUpdate (flat.at_ ["z"]) "3"] [] true] []
    [(["x"], "1"); (["y"], "2")]
  = ([(["z"], "3")], Ok tt).
Proof.
  unfold flat.UnmarshalNotifications.
  rewrite (atomic_notification_deletes_subject_first flat.Tree flat.Node unit
             string flat.typeName unit (fun _ => false) (fun _ => false)
             flat.GetOrCreateNode flat.DeleteNode flat.SetNode flat.JoinPaths
             flat.schema
             (gnmi.mkNotification None [gnmi.mkUpdate (flat.at_ ["z"]) "3"] [] true)
             [] [] [(["x"], "1"); (["y"], "2")] [(["x"], "1"); (["y"], "2")]
             [(["x"], "1"); (["y"], "2")] [] "root" None
             eq_refl eq_refl eq_refl).
  vm_compute. reflexivity.
Defined.

(** ** The path of a list entry *)

Section ListEntryFacts.
Import gnmi ygot.

Variable KeyVal : Type.
Variable keyMapAsStrings : gmap string KeyVal → result (gmap string string).

(** The key of the last element is overwritten; the elements stay. *)
Lemma setLastKey_snoc (strkeys : gmap string string) (p : Path)
    (pre : list PathElem) (e : PathElem) :
  Elem p = pre ++ [e] →
  setLastKey strkeys p = Ok (mkPath (pre ++ [mkPathElem (Name e) strkeys])).
Proof.
  intros Hp. unfold setLastKey. rewrite Hp, last_snoc. do 2 f_equal.
  rewrite length_app. simpl.
  replace (pred (length pre + 1)) with (length pre + 0) by lia.
  rewrite insert_app_r. reflexivity.
Qed.

Lemma setLastKey_nonempty (strkeys : gmap string string) (p : Path) :
  Elem p ≠ [] →
  ∃ pre e, Elem p = pre ++ [e]
    ∧ setLastKey strkeys p = Ok (mkPath (pre ++ [mkPathElem (Name e) strkeys])).
Proof.
  intros Hne. destruct (Elem p) as [| x l] eqn:Hp using rev_ind; [congruence |].
  exists l, x. split; [reflexivity |]. by apply setLastKey_snoc.
Qed.

Lemma nodeMapPath_loop_keys (strkeys : gmap string string) (paths : list Path) :
  ∀ gPaths,
    Forall (fun p => Elem p ≠ []) paths →
    ∃ new,
      nodeMapPath_loop strkeys paths gPaths = Ok (gPaths ++ new)
      ∧ Forall2
          (fun p np => ∃ pre e, Elem p = pre ++ [e]
                         ∧ Elem np = pre ++ [mkPathElem (Name e) strkeys])
          paths new.
Proof.
  induction paths as [| p rest IH]; intros gPaths Hne.
  - exists []. split; [by rewrite app_nil_r | constructor].
  - inversion Hne as [| ? ? Hp Hrest]; subst.
    destruct (setLastKey_nonempty strkeys p Hp) as (pre & e & Hpe & Hset).
    destruct (IH (gPaths ++ [mkPath (pre ++ [mkPathElem (Name e) strkeys])]) Hrest)
      as (new & Hloop & Hall).
    exists (mkPath (pre ++ [mkPathElem (Name e) strkeys]) :: new). split.
    + simpl. rewrite Hset. simpl. rewrite Hloop. by rewrite <- app_assoc.
    + constructor; [| exact Hall]. exists pre, e. by split.
Qed.

End ListEntryFacts.




(** ** Relative leafref paths *)

Section LeafrefFacts.
Import ygen.

Lemma removelast_take {A} (l : list A) : removelast l = take (length l - 1) l.
Proof.
  induction l as [| x l IH]; [reflexivity |].
  destruct l as [| y l']; [reflexivity |].
  change (removelast (x :: y :: l')) with (x :: removelast (y :: l')).
  rewrite IH. simpl. by rewrite Nat.sub_0_r.
Qed.

(** The loop of fixSchemaTreePath: with [k] the number of [..] among
    [parts], it fails when [callerPath] has fewer than [k] segments, and
    otherwise drops the last [k] segments of [callerPath] and appends the
    tokens that are not [..]. *)
Lemma fixSchemaTreePath_loop_spec (parts : list string) :
  ∀ callerPath remainingPath,
    let k := length (filter (fun p => p = "..") parts) in
    (k ≤ length callerPath →
     fixSchemaTreePath_loop callerPath remainingPath parts
     = Ok (take (length callerPath - k) callerPath
             ++ remainingPath ++ filter (fun p => p ≠ "..") parts))
    ∧ (length callerPath < k →
       is_Err (fixSchemaTreePath_loop callerPath remainingPath parts)).
Proof.
  induction parts as [| p rest IH]; intros callerPath remainingPath; cbv zeta.
  - simpl. split; [| lia]. intros _.
    by rewrite Nat.sub_0_r, firstn_all, app_nil_r.
  - cbn [fixSchemaTreePath_loop].
    destruct (String.eqb_spec p "..") as [-> | Hp].
    + rewrite filter_cons_True by reflexivity.
      rewrite filter_cons_False by (intros H; by apply H).
      cbn [length].
      destruct callerPath as [| c cp].
      * simpl. split; [lia | intros _; exact I].
      * change (length (c :: cp) =? 0)%nat with false. cbv iota.
        destruct (IH (removelast (c :: cp)) remainingPath) as [IHok IHerr].
        assert (Hlen : length (removelast (c :: cp)) = length cp).
        { rewrite removelast_take, length_take. simpl. lia. }
        rewrite Hlen in IHok, IHerr. split.
        -- intros Hk. rewrite IHok by (simpl in Hk; lia). f_equal. f_equal.
           rewrite removelast_take, take_take. f_equal. simpl. lia.
        -- intros Hk. apply IHerr. simpl in Hk. lia.
    + rewrite filter_cons_False by exact Hp.
      rewrite filter_cons_True by exact Hp.
      destruct (IH callerPath (remainingPath ++ [p])) as [IHok IHerr].
      split.
      * intros Hk. rewrite IHok by exact Hk. by rewrite <- app_assoc.
      * exact IHerr.
Qed.

Lemma filter_dotdot_none (l : list string) :
  Forall (fun q => q ≠ "..") l →
  filter (fun q => q = "..") l = [] ∧ filter (fun q => q ≠ "..") l = l.
Proof.
  induction 1 as [| q l Hq Hl [IH1 IH2]]; [done |].
  rewrite filter_cons_False by exact Hq.
  rewrite filter_cons_True by exact Hq. by rewrite IH1, IH2.
Qed.

(** When no [..] stands behind the leading ones, the [..] tokens are the
    leading ones and the other tokens are what follows them. *)
Lemma leadingDotDots_only (parts : list string) :
  (∀ p, p ∈ drop (leadingDotDots parts) parts → p ≠ "..") →
  length (filter (fun p => p = "..") parts) = leadingDotDots parts
  ∧ filter (fun p => p ≠ "..") parts = drop (leadingDotDots parts) parts.
Proof.
  induction parts as [| p rest IH]; [done |].
  cbn [leadingDotDots]. destruct (String.eqb_spec p "..") as [-> | Hp].
  - intros Hrest. destruct (IH Hrest) as [Hk Hf].
    rewrite filter_cons_True by reflexivity.
    rewrite filter_cons_False by (intros H; by apply H).
    simpl. by rewrite Hk, Hf.
  - intros Hall. simpl in Hall.
    destruct (filter_dotdot_none (p :: rest)) as [H1 H2];
      [by apply Forall_forall |].
    by rewrite H1, H2.
Qed.

End LeafrefFacts.

(** fixSchemaTreePath on a path whose tokens (after the split and the
    removal of namespaces) start with a token that is not empty, in terms of
    all the [..] tokens of the path: the loop takes one last segment off the
    context path for each of them. *)
Lemma fixSchemaTreePath_relative (Entry : Type)
    (SchemaTreePath : Entry → string) (path : string) (caller : option Entry)
    (p0 : string) (rest : list string) :
  ygen.removeXPATHNamespaces (ygen.splitXPATHParts path) = Ok (p0 :: rest) →
  p0 ≠ "" →
  (p0 ≠ ".." → is_Err (ygen.fixSchemaTreePath SchemaTreePath path caller))
  ∧ (p0 = ".." → caller = None →
     is_Err (ygen.fixSchemaTreePath SchemaTreePath path caller))
  ∧ (∀ c, p0 = ".." → caller = Some c →
       let callerPath := drop 2 (ygen.Split (SchemaTreePath c) "/") in
       let k := length (filter (fun p => p = "..") (p0 :: rest)) in
       (callerPath = [] →
        is_Err (ygen.fixSchemaTreePath SchemaTreePath path caller))
       ∧ (length callerPath < k →
          is_Err (ygen.fixSchemaTreePath SchemaTreePath path caller))
       ∧ (k ≤ length callerPath →
          ygen.fixSchemaTreePath SchemaTreePath path caller
          = Ok (take (length callerPath - k) callerPath
                  ++ filter (fun p => p ≠ "..") (p0 :: rest)))).
Proof.
  intros Hparts Hne. unfold ygen.fixSchemaTreePath. rewrite Hparts.
  cbn [mbind result_bind bindR]. split; [| split].
  - intros Hp. destruct (String.eqb_spec p0 "..") as [-> | _]; [congruence |].
    cbn [negb]. destruct (String.eqb_spec p0 "") as [-> | _]; [congruence | exact I].
  - intros -> ->. exact I.
  - intros c -> ->. cbv zeta. rewrite String.eqb_refl. cbn [negb].
    destruct (Nat.ltb_spec (length (ygen.Split (SchemaTreePath c) "/")) 2)
      as [Hlt | _].
    + split; [intros _; exact I | split; [intros _; exact I |]].
      intros Hk. rewrite filter_cons_True in Hk by reflexivity.
      rewrite length_drop in Hk. simpl in Hk. lia.
    + split; [| split].
      * intros ->. exact I.
      * by apply (fixSchemaTreePath_loop_spec (".." :: rest)).
      * by apply (fixSchemaTreePath_loop_spec (".." :: rest)).
Qed.

(** On a path whose [..] tokens all stand at its head, fixSchemaTreePath
    agrees with one step up per leading [..] and the rest appended. *)
Lemma fixSchemaTreePath_leading_only (Entry : Type)
    (SchemaTreePath : Entry → string) (path : string) (c : Entry)
    (rest : list string) :
  ygen.removeXPATHNamespaces (ygen.splitXPATHParts path) = Ok (".." :: rest) →
  (∀ p, p ∈ drop (ygen.leadingDotDots (".." :: rest)) (".." :: rest) → p ≠ "..") →
  match ygen.relativePath_spec (drop 2 (ygen.Split (SchemaTreePath c) "/"))
          (".." :: rest) with
  | Ok r => ygen.fixSchemaTreePath SchemaTreePath path (Some c) = Ok r
  | _ => is_Err (ygen.fixSchemaTreePath SchemaTreePath path (Some c))
  end.
Proof.
  intros Hparts Hlead.
  destruct (leadingDotDots_only (".." :: rest) Hlead) as [Hk Hf].
  unfold ygen.fixSchemaTreePath, ygen.relativePath_spec. rewrite Hparts.
  cbn [mbind result_bind bindR]. rewrite String.eqb_refl. cbn [negb].
  cbv zeta. rewrite <- Hf, <- Hk.
  destruct (fixSchemaTreePath_loop_spec (".." :: rest)
              (drop 2 (ygen.Split (SchemaTreePath c) "/")) []) as [Hok Herr].
  destruct (Nat.ltb_spec
              (length (drop 2 (ygen.Split (SchemaTreePath c) "/")))
              (length (filter (fun p => p = "..") (".." :: rest)))) as [Hlt | Hge].
  - destruct (length (ygen.Split (SchemaTreePath c) "/") <? 2)%nat; [exact I |].
    by apply Herr.
  - destruct (Nat.ltb_spec (length (ygen.Split (SchemaTreePath c) "/")) 2)
      as [Hshort | _].
    + rewrite filter_cons_True in Hge by reflexivity.
      rewrite length_drop in Hge. simpl in Hge. lia.
    + by apply Hok.
Qed.

(** C6. For a leafref path whose tokens (after the split and the removal of
    namespaces) start with a token that is not empty and have their [..]
    tokens at the head, as the path grammar of YANG has them: when the first
    token is not [..] the result is an error; when it is [..], the result is
    an error when no context entry is given, when the path of the context
    entry has no segment below the module name (a module), and when the path
    has more leading [..] tokens than the context path has segments below the
    module name; otherwise the context path loses one last segment for every
    leading [..] token and the remaining tokens are appended to it. *)
Theorem fixSchemaTreePath_leading_dotdots (Entry : Type)
    (SchemaTreePath : Entry → string) (path : string) (caller : option Entry)
    (p0 : string) (rest : list string) :
  ygen.removeXPATHNamespaces (ygen.splitXPATHParts path) = Ok (p0 :: rest) →
  p0 ≠ "" →
  (∀ p, p ∈ drop (ygen.leadingDotDots (p0 :: rest)) (p0 :: rest) → p ≠ "..") →
  (p0 ≠ ".." → is_Err (ygen.fixSchemaTreePath SchemaTreePath path caller))
  ∧ (p0 = ".." → caller = None →
     is_Err (ygen.fixSchemaTreePath SchemaTreePath path caller))
  ∧ (∀ c, p0 = ".." → caller = Some c →
       let callerPath := drop 2 (ygen.Split (SchemaTreePath c) "/") in
       let k := ygen.leadingDotDots (p0 :: rest) in
       (callerPath = [] →
        is_Err (ygen.fixSchemaTreePath SchemaTreePath path caller))
       ∧ (length callerPath < k →
          is_Err (ygen.fixSchemaTreePath SchemaTreePath path caller))
       ∧ (k ≤ length callerPath →
          ygen.fixSchemaTreePath SchemaTreePath path caller
          = Ok (take (length callerPath - k) callerPath
                  ++ drop k (p0 :: rest)))).
Proof.
  intros Hparts Hne Hlead.
  destruct (leadingDotDots_only (p0 :: rest) Hlead) as [Hk Hf].
  destruct (fixSchemaTreePath_relative Entry SchemaTreePath path caller p0 rest
              Hparts Hne) as (H1 & H2 & H3).
  split; [exact H1 | split; [exact H2 |]].
  intros c Hp0 Hc. specialize (H3 c Hp0 Hc). cbv zeta in H3 |- *.
  rewrite Hk, Hf in H3. exact H3.
Qed.

(** The theorem at [../../oc:c] from the entry at [/m/x/y/z]: two segments
    up, then [c]. *)
Lemma fixSchemaTreePath_leading_dotdots_witness :
  ygen.fixSchemaTreePath (fun e : string => e) "../../oc:c" (Some "/m/x/y/z")
  = Ok ["x"; "c"].
Proof.
  refine (proj2 (proj2 (proj2 (proj2
    (fixSchemaTreePath_leading_dotdots string (fun e => e) "../../oc:c"
       (Some "/m/x/y/z") ".." [".."; "c"] eq_refl _ _)) "/m/x/y/z"
       eq_refl eq_refl)) _).
  - discriminate.
  - intros p Hp. apply list_elem_of_singleton in Hp as ->. discriminate.
  - vm_compute. lia.
Defined.

(** A [..] that stands behind a name, which no leafref path of YANG has, is
    counted by the loop like the leading ones: for [../a/../b] from the
    entry at [/m/x/y] the code walks up twice and returns [a/b]. *)
Example fixSchemaTreePath_counts_every_dotdot :
  ygen.fixSchemaTreePath (fun e : string => e) "../a/../b" (Some "/m/x/y")
  = Ok ["a"; "b"].
Proof. reflexivity. Qed.

(** ** Diff *)

Section DiffFacts.
Import gnmi ygot.

Variable Val : Type.
Variable DeepEqual : Val → Val → bool.
Variable TypedValue : Type.
Variable EncodeTypedValue : Val → result TypedValue.
Variable PathToString : Path → result string.
Variable GoStruct : Type.
Variable GoType : Type.
Context `{EqDecision GoType}.
Variable TypeOf : GoStruct → GoType.
Variable findSetLeaves : GoStruct → list DiffOpt → result (list (pathSpec * Val)).

Local Abbreviation appendUpdate := (appendUpdate EncodeTypedValue).
Local Abbreviation updated := (updated EncodeTypedValue).
Local Abbreviation Diff_orig := (Diff_orig DeepEqual EncodeTypedValue).
Local Abbreviation Diff_mod := (Diff_mod EncodeTypedValue).
Local Abbreviation Diff :=
  (Diff DeepEqual EncodeTypedValue PathToString TypeOf findSetLeaves).

Lemma appendUpdate_Ok n s pi n' :
  appendUpdate n s pi = Ok n' →
  ∃ tv, EncodeTypedValue (val pi) = Ok tv
    ∧ nUpdate n' = nUpdate n ++ [mkUpdate (path pi) tv]
    ∧ nDelete n' = nDelete n.
Proof.
  unfold ygot.appendUpdate. destruct (EncodeTypedValue (val pi)) as [tv | |];
    [| discriminate | discriminate].
  intros [= <-]. exists tv. by repeat split.
Qed.

Lemma appendUpdate_total n s pi :
  is_Ok (EncodeTypedValue (val pi)) → is_Ok (appendUpdate n s pi).
Proof.
  unfold ygot.appendUpdate. by destruct (EncodeTypedValue (val pi)).
Qed.

(** What the first loop has emitted when it returns: what was there before,
    and for every visited leaf its update or its delete. *)
Lemma Diff_orig_Ok mm entries : ∀ n0 n,
  Diff_orig mm entries n0 = Ok n →
  (∀ u, u ∈ nUpdate n0 → u ∈ nUpdate n)
  ∧ (∀ d, d ∈ nDelete n0 → d ∈ nDelete n)
  ∧ ∀ k oi, (k, oi) ∈ entries →
      match mm !! k with
      | Some mi => DeepEqual (val oi) (val mi) = false → updated mi n
      | None => path oi ∈ nDelete n
      end.
Proof.
  induction entries as [| [k0 o0] rest IH]; intros n0 n Hrun.
  - injection Hrun as <-. repeat split; try done.
    intros k oi Hin. by apply elem_of_nil in Hin.
  - cbn [ygot.Diff_orig] in Hrun.
    destruct (mm !! k0) as [m0 |] eqn:Hk0.
    + destruct (DeepEqual (val o0) (val m0)) eqn:Heq; cbn [negb] in Hrun.
      * destruct (IH _ _ Hrun) as (Hu & Hd & Hall). repeat split; try done.
        intros k oi [[= -> ->] | Hin]%elem_of_cons; [| by apply Hall].
        rewrite Hk0. congruence.
      * destruct (appendUpdate n0 k0 m0) as [n1 | |] eqn:Happ;
          [| discriminate | discriminate].
        cbn [mbind result_bind bindR] in Hrun.
        destruct (appendUpdate_Ok _ _ _ _ Happ) as (tv & Henc & Hup & Hdel).
        destruct (IH _ _ Hrun) as (Hu & Hd & Hall). repeat split.
        -- intros u Hin. apply Hu. rewrite Hup. apply elem_of_app. by left.
        -- intros d Hin. apply Hd. by rewrite Hdel.
        -- intros k oi [[= -> ->] | Hin]%elem_of_cons; [| by apply Hall].
           rewrite Hk0. intros _. exists tv. split; [exact Henc |].
           apply Hu. rewrite Hup. apply elem_of_app. right. apply list_elem_of_here.
    + destruct (IH _ _ Hrun) as (Hu & Hd & Hall). cbn in Hu, Hd. repeat split.
      * exact Hu.
      * intros d Hin. apply Hd. apply elem_of_app. by left.
      * intros k oi [[= -> ->] | Hin]%elem_of_cons; [| by apply Hall].
        rewrite Hk0. apply Hd. apply elem_of_app. right. apply list_elem_of_here.
Qed.

(** The same for the second loop: an update for every visited leaf that the
    original does not have. *)
Lemma Diff_mod_Ok mo entries : ∀ n0 n,
  Diff_mod mo entries n0 = Ok n →
  (∀ u, u ∈ nUpdate n0 → u ∈ nUpdate n)
  ∧ (∀ d, d ∈ nDelete n0 → d ∈ nDelete n)
  ∧ ∀ k mi, (k, mi) ∈ entries → mo !! k = None → updated mi n.
Proof.
  induction entries as [| [k0 m0] rest IH]; intros n0 n Hrun.
  - injection Hrun as <-. repeat split; try done.
    intros k mi Hin. by apply elem_of_nil in Hin.
  - cbn [ygot.Diff_mod] in Hrun.
    destruct (mo !! k0) as [o0 |] eqn:Hk0.
    + destruct (IH _ _ Hrun) as (Hu & Hd & Hall). repeat split; try done.
      intros k mi [[= -> ->] | Hin]%elem_of_cons; [congruence | by apply Hall].
    + destruct (appendUpdate n0 k0 m0) as [n1 | |] eqn:Happ;
        [| discriminate | discriminate].
      cbn [mbind result_bind bindR] in Hrun.
      destruct (appendUpdate_Ok _ _ _ _ Happ) as (tv & Henc & Hup & Hdel).
      destruct (IH _ _ Hrun) as (Hu & Hd & Hall). repeat split.
      * intros u Hin. apply Hu. rewrite Hup. apply elem_of_app. by left.
      * intros d Hin. apply Hd. by rewrite Hdel.
      * intros k mi [[= -> ->] | Hin]%elem_of_cons; [| by apply Hall].
        intros _. exists tv. split; [exact Henc |].
        apply Hu. rewrite Hup. apply elem_of_app. right. apply list_elem_of_here.
Qed.

(** Both loops return a notification when the values they have to encode
    can be encoded. *)
Lemma Diff_orig_total mm entries : ∀ n0,
  (∀ k mi, mm !! k = Some mi → is_Ok (EncodeTypedValue (val mi))) →
  is_Ok (Diff_orig mm entries n0).
Proof.
  induction entries as [| [k0 o0] rest IH]; intros n0 Henc; [exact I |].
  cbn [ygot.Diff_orig]. destruct (mm !! k0) as [m0 |] eqn:Hk0; [| by apply IH].
  destruct (negb (DeepEqual (val o0) (val m0))); [| by apply IH].
  pose proof (appendUpdate_total n0 k0 m0 (Henc _ _ Hk0)) as Hok.
  destruct (appendUpdate n0 k0 m0); [| done | done].
  cbn [mbind result_bind bindR]. by apply IH.
Qed.

Lemma Diff_mod_total mo entries : ∀ n0,
  (∀ k mi, (k, mi) ∈ entries → is_Ok (EncodeTypedValue (val mi))) →
  is_Ok (Diff_mod mo entries n0).
Proof.
  induction entries as [| [k0 m0] rest IH]; intros n0 Henc; [exact I |].
  cbn [ygot.Diff_mod].
  assert (Hrest : ∀ k mi, (k, mi) ∈ rest → is_Ok (EncodeTypedValue (val mi))).
  { intros k mi Hin. apply (Henc k). by apply list_elem_of_further. }
  destruct (mo !! k0); [by apply IH |].
  pose proof (appendUpdate_total n0 k0 m0 (Henc k0 m0 (list_elem_of_here _ _))) as Hok.
  destruct (appendUpdate n0 k0 m0); [| done | done].
  cbn [mbind result_bind bindR]. by apply IH.
Qed.

(** Diff, once the leaves of both structs and their string maps are known. *)
Lemma Diff_unfold ord original modified opts origLeaves modLeaves mo mm :
  TypeOf original = TypeOf modified →
  findSetLeaves original opts = Ok origLeaves →
  findSetLeaves modified opts = Ok modLeaves →
  toStringPathMap PathToString (range_origLeaves ord origLeaves) = Ok mo →
  toStringPathMap PathToString (range_modLeaves ord modLeaves) = Ok mm →
  Diff ord original modified opts
  = (n ← Diff_orig mm (range_origLeavesStr ord mo) (mkNotification None [] [] false);
     match hasIgnoreAdditions opts with
     | Some _ => Ok n
     | None => Diff_mod mo (range_modLeavesStr ord mm) n
     end).
Proof.
  intros Hty Ho Hm Hmo Hmm. unfold ygot.Diff.
  destruct (decide (TypeOf original = TypeOf modified)); [| done].
  rewrite Ho, Hm. cbn [wrapErr mbind result_bind bindR].
  rewrite Hmo, Hmm. reflexivity.
Qed.

Lemma Diff_Ok_same_type ord original modified opts n :
  Diff ord original modified opts = Ok n → TypeOf original = TypeOf modified.
Proof.
  unfold ygot.Diff. by destruct (decide (TypeOf original = TypeOf modified)).
Qed.

(** C1. With the string maps [mo] of the original leaves and [mm] of the
    modified leaves: Diff returns a notification when the two structs have
    the same type and the values of [mm] can be encoded; and in the
    notification it returns, every address of [mo] that [mm] has with a value
    that is not deeply equal has an update with the path and the value of
    [mm], every address of [mo] that [mm] lacks has a delete with the path of
    [mo], and, when no IgnoreAdditions option is given, every address that
    only [mm] has has an update. *)
Theorem Diff_emits_updates_and_deletes ord original modified opts
    origLeaves modLeaves mo mm :
  rangeOrder_ok ord →
  findSetLeaves original opts = Ok origLeaves →
  findSetLeaves modified opts = Ok modLeaves →
  toStringPathMap PathToString (range_origLeaves ord origLeaves) = Ok mo →
  toStringPathMap PathToString (range_modLeaves ord modLeaves) = Ok mm →
  (TypeOf original = TypeOf modified →
   (∀ k mi, mm !! k = Some mi → is_Ok (EncodeTypedValue (val mi))) →
   is_Ok (Diff ord original modified opts))
  ∧ ∀ n, Diff ord original modified opts = Ok n →
      (∀ k oi, mo !! k = Some oi →
         match mm !! k with
         | Some mi => DeepEqual (val oi) (val mi) = false → updated mi n
         | None => path oi ∈ nDelete n
         end)
      ∧ (hasIgnoreAdditions opts = None →
         ∀ k mi, mm !! k = Some mi → mo !! k = None → updated mi n).
Proof.
  intros (_ & _ & Hro & Hrm) Ho Hm Hmo Hmm. split.
  - intros Hty Henc. rewrite (Diff_unfold _ _ _ _ _ _ _ _ Hty Ho Hm Hmo Hmm).
    pose proof (Diff_orig_total mm (range_origLeavesStr ord mo)
                  (mkNotification None [] [] false) Henc) as Hok.
    destruct (Diff_orig mm _ _) as [n1 | |]; [| done | done].
    cbn [mbind result_bind bindR].
    destruct (hasIgnoreAdditions opts); [exact I |].
    apply Diff_mod_total. intros k mi Hin. apply (Henc k).
    rewrite Hrm in Hin. by apply elem_of_map_to_list.
  - intros n Hrun. pose proof (Diff_Ok_same_type _ _ _ _ _ Hrun) as Hty.
    rewrite (Diff_unfold _ _ _ _ _ _ _ _ Hty Ho Hm Hmo Hmm) in Hrun.
    destruct (Diff_orig mm (range_origLeavesStr ord mo) _) as [n1 | |] eqn:H1;
      [| discriminate | discriminate].
    cbn [mbind result_bind bindR] in Hrun.
    destruct (Diff_orig_Ok _ _ _ _ H1) as (_ & _ & Horig).
    destruct (hasIgnoreAdditions opts) as [ia |] eqn:Hia.
    + injection Hrun as <-. split; [| discriminate].
      intros k oi Hk. apply Horig. rewrite Hro. by apply elem_of_map_to_list.
    + destruct (Diff_mod_Ok _ _ _ _ Hrun) as (Hu & Hd & Hmod). split.
      * intros k oi Hk.
        assert (Hin : (k, oi) ∈ range_origLeavesStr ord mo).
        { rewrite Hro. by apply elem_of_map_to_list. }
        specialize (Horig k oi Hin). destruct (mm !! k) as [mi |].
        -- intros Hne. destruct (Horig Hne) as (tv & Henc & Hin').
           exists tv. split; [exact Henc | by apply Hu].
        -- by apply Hd.
      * intros _ k mi Hk Hnone. apply (Hmod k); [| exact Hnone].
        rewrite Hrm. by apply elem_of_map_to_list.
Qed.

(** *** A struct against itself *)

(** The entries of the string map come from the leaves: each holds the value
    of a leaf and one of its paths, under the string of that path; entries
    are never removed; and every path of every leaf has an entry. *)
Lemma toStringPathMap_paths_lookup v ps : ∀ m0 m : gmap string (pathInfo Val),
  toStringPathMap_paths PathToString v ps m0 = Ok m →
  (∀ k pi, m !! k = Some pi →
     m0 !! k = Some pi
     ∨ (val pi = v ∧ path pi ∈ ps ∧ PathToString (path pi) = Ok k))
  ∧ (∀ k, is_Some (m0 !! k) → is_Some (m !! k))
  ∧ (∀ p k, p ∈ ps → PathToString p = Ok k → is_Some (m !! k)).
Proof.
  induction ps as [| p rest IH]; intros m0 m Hrun.
  - injection Hrun as <-. repeat split; [by left | done |].
    intros p k Hin. by apply elem_of_nil in Hin.
  - cbn [toStringPathMap_paths] in Hrun.
    destruct (PathToString p) as [s | |] eqn:Hs; [| discriminate | discriminate].
    cbn [mbind result_bind bindR] in Hrun.
    destruct (IH _ _ Hrun) as (Hfrom & Hkeep & Hall). repeat split.
    + intros k pi Hk. destruct (Hfrom k pi Hk) as [Hin | (Hv & Hp & Hstr)].
      * destruct (decide (s = k)) as [-> | Hne].
        -- rewrite lookup_insert_eq in Hin. injection Hin as <-.
           right. repeat split; [apply list_elem_of_here | exact Hs].
        -- rewrite lookup_insert_ne in Hin by exact Hne. by left.
      * right. repeat split; [exact Hv | by apply list_elem_of_further | exact Hstr].
    + intros k Hk. apply Hkeep. apply lookup_insert_is_Some'. by right.
    + intros p' k [-> | Hin]%elem_of_cons Hstr.
      * apply Hkeep. rewrite Hs in Hstr. injection Hstr as ->.
        rewrite lookup_insert_eq. by eexists.
      * by apply (Hall p').
Qed.

Lemma toStringPathMap_loop_lookup entries : ∀ m0 m : gmap string (pathInfo Val),
  toStringPathMap_loop PathToString entries m0 = Ok m →
  (∀ k pi, m !! k = Some pi →
     m0 !! k = Some pi
     ∨ ∃ ps, (ps, val pi) ∈ entries ∧ path pi ∈ elems (gNMIPaths ps)
         ∧ PathToString (path pi) = Ok k)
  ∧ (∀ k, is_Some (m0 !! k) → is_Some (m !! k))
  ∧ (∀ ps v p k, (ps, v) ∈ entries → p ∈ elems (gNMIPaths ps) →
       PathToString p = Ok k → is_Some (m !! k)).
Proof.
  induction entries as [| [ps0 v0] rest IH]; intros m0 m Hrun.
  - injection Hrun as <-. repeat split; [by left | done |].
    intros ps v p k Hin. by apply elem_of_nil in Hin.
  - cbn [toStringPathMap_loop] in Hrun.
    destruct (toStringPathMap_paths PathToString v0 (elems (gNMIPaths ps0)) m0)
      as [m1 | |] eqn:H1; [| discriminate | discriminate].
    cbn [mbind result_bind bindR] in Hrun.
    destruct (toStringPathMap_paths_lookup _ _ _ _ H1) as (Hfrom1 & Hkeep1 & Hall1).
    destruct (IH _ _ Hrun) as (Hfrom & Hkeep & Hall). repeat split.
    + intros k pi Hk. destruct (Hfrom k pi Hk) as [Hin | (ps & Hin & Hp & Hstr)].
      * destruct (Hfrom1 k pi Hin) as [Hin0 | (Hv & Hp & Hstr)]; [by left |].
        right. exists ps0. subst v0. repeat split; [apply list_elem_of_here | done | done].
      * right. exists ps. repeat split; [by apply list_elem_of_further | done | done].
    + intros k Hk. by apply Hkeep, Hkeep1.
    + intros ps v p k [[= -> ->] | Hin]%elem_of_cons Hp Hstr.
      * apply Hkeep. by apply (Hall1 p).
      * by apply (Hall ps v p).
Qed.

Lemma toStringPathMap_paths_total (v : Val) ps : ∀ m0,
  (∀ p, p ∈ ps → is_Ok (PathToString p)) →
  is_Ok (toStringPathMap_paths PathToString v ps m0).
Proof.
  induction ps as [| p rest IH]; intros m0 Hall; [exact I |].
  cbn [toStringPathMap_paths].
  pose proof (Hall p (list_elem_of_here _ _)) as Hp.
  destruct (PathToString p); [| done | done]. cbn [mbind result_bind bindR].
  apply IH. intros p' Hin. apply Hall. by apply list_elem_of_further.
Qed.

Lemma toStringPathMap_loop_total (entries : list (pathSpec * Val)) : ∀ m0,
  (∀ ps v p, (ps, v) ∈ entries → p ∈ elems (gNMIPaths ps) →
     is_Ok (PathToString p)) →
  is_Ok (toStringPathMap_loop PathToString entries m0).
Proof.
  induction entries as [| [ps0 v0] rest IH]; intros m0 Hall; [exact I |].
  cbn [toStringPathMap_loop].
  pose proof (toStringPathMap_paths_total v0 (elems (gNMIPaths ps0)) m0
                (fun p Hp => Hall ps0 v0 p (list_elem_of_here _ _) Hp)) as H1.
  destruct (toStringPathMap_paths PathToString v0 _ m0); [| done | done].
  cbn [mbind result_bind bindR]. apply IH.
  intros ps v p Hin. apply (Hall ps v p). by apply list_elem_of_further.
Qed.

(** The first loop leaves the notification as it is when every visited leaf
    is in the other map with a deeply equal value, and adds no delete when
    every visited leaf is in the other map. *)
Lemma Diff_orig_unchanged mm entries n0 :
  (∀ k oi, (k, oi) ∈ entries →
     ∃ mi, mm !! k = Some mi ∧ DeepEqual (val oi) (val mi) = true) →
  Diff_orig mm entries n0 = Ok n0.
Proof.
  induction entries as [| [k0 o0] rest IH]; intros Hall; [reflexivity |].
  cbn [ygot.Diff_orig].
  destruct (Hall k0 o0 (list_elem_of_here _ _)) as (m0 & -> & ->). cbn [negb].
  apply IH. intros k oi Hin. apply Hall. by apply list_elem_of_further.
Qed.

Lemma Diff_orig_no_delete mm entries : ∀ n0 n,
  (∀ k oi, (k, oi) ∈ entries → is_Some (mm !! k)) →
  Diff_orig mm entries n0 = Ok n → nDelete n = nDelete n0.
Proof.
  induction entries as [| [k0 o0] rest IH]; intros n0 n Hall Hrun.
  - by injection Hrun as <-.
  - cbn [ygot.Diff_orig] in Hrun.
    assert (Hrest : ∀ k oi, (k, oi) ∈ rest → is_Some (mm !! k)).
    { intros k oi Hin. apply (Hall k oi). by apply list_elem_of_further. }
    destruct (Hall k0 o0 (list_elem_of_here _ _)) as [m0 Hm0].
    rewrite Hm0 in Hrun.
    destruct (negb (DeepEqual (val o0) (val m0))); [| by apply IH].
    destruct (appendUpdate n0 k0 m0) as [n1 | |] eqn:Happ;
      [| discriminate | discriminate].
    cbn [mbind result_bind bindR] in Hrun.
    destruct (appendUpdate_Ok _ _ _ _ Happ) as (tv & _ & _ & Hdel).
    rewrite <- Hdel. by apply IH.
Qed.

Lemma Diff_mod_unchanged mo entries n0 :
  (∀ k mi, (k, mi) ∈ entries → is_Some (mo !! k)) →
  Diff_mod mo entries n0 = Ok n0.
Proof.
  induction entries as [| [k0 m0] rest IH]; intros Hall; [reflexivity |].
  cbn [ygot.Diff_mod].
  destruct (Hall k0 m0 (list_elem_of_here _ _)) as [o0 ->].
  apply IH. intros k mi Hin. apply (Hall k mi). by apply list_elem_of_further.
Qed.

(** The two string maps of the same leaves have the same addresses, in
    whatever order the leaves are visited. *)
Lemma toStringPathMap_same_addresses l1 l2
    (m1 m2 : gmap string (pathInfo Val)) (k : string) :
  l1 ≡ₚ l2 →
  toStringPathMap PathToString l1 = Ok m1 →
  toStringPathMap PathToString l2 = Ok m2 →
  is_Some (m1 !! k) → is_Some (m2 !! k).
Proof.
  intros Hperm H1 H2 [pi Hpi].
  destruct (toStringPathMap_loop_lookup _ _ _ H1) as (Hfrom & _ & _).
  destruct (toStringPathMap_loop_lookup _ _ _ H2) as (_ & _ & Hall).
  destruct (Hfrom k pi Hpi) as [Hemp | (ps & Hin & Hp & Hstr)].
  - by rewrite lookup_empty in Hemp.
  - apply (Hall ps (val pi) (path pi) k); [by rewrite <- Hperm | done | done].
Qed.

(** Two walks that record the same leaves, in whatever order (the two walks
    of one struct, when what a walk records does not depend on the order of
    its visits): Diff returns no delete; and when any two of the leaves that
    share an address carry deeply equal values (so that every value is
    deeply equal to itself), it returns no update either: every notification
    it returns is empty, and it does return the empty notification when
    every path of the leaves has a string form. *)
Lemma Diff_same_leaves_is_empty ord original modified opts L1 L2 :
  rangeOrder_ok ord →
  TypeOf original = TypeOf modified →
  findSetLeaves original opts = Ok L1 →
  findSetLeaves modified opts = Ok L2 →
  L1 ≡ₚ L2 →
  (∀ n, Diff ord original modified opts = Ok n → nDelete n = [])
  ∧ (agree_on_shared DeepEqual PathToString L1 →
     (∀ n, Diff ord original modified opts = Ok n →
        nUpdate n = [] ∧ nDelete n = [])
     ∧ ((∀ ps v p, (ps, v) ∈ L1 → p ∈ elems (gNMIPaths ps) →
           is_Ok (PathToString p)) →
        Diff ord original modified opts = Ok (mkNotification None [] [] false))).
Proof.
  intros (Hlo & Hlm & Hro & Hrm) Hty HL1 HL2 HL.
  assert (Hmaps : ∀ mo mm,
    toStringPathMap PathToString (range_origLeaves ord L1) = Ok mo →
    toStringPathMap PathToString (range_modLeaves ord L2) = Ok mm →
    (∀ k oi, (k, oi) ∈ range_origLeavesStr ord mo → is_Some (mm !! k))
    ∧ (∀ k mi, (k, mi) ∈ range_modLeavesStr ord mm → is_Some (mo !! k))
    ∧ (agree_on_shared DeepEqual PathToString L1 →
       ∀ k oi, (k, oi) ∈ range_origLeavesStr ord mo →
         ∃ mi, mm !! k = Some mi ∧ DeepEqual (val oi) (val mi) = true)).
  { intros mo mm Hmo Hmm.
    assert (Hperm : range_origLeaves ord L1 ≡ₚ range_modLeaves ord L2)
      by (by rewrite Hlo, Hlm).
    assert (Hom : ∀ k oi, (k, oi) ∈ range_origLeavesStr ord mo → is_Some (mm !! k)).
    { intros k oi Hin. rewrite Hro in Hin. apply elem_of_map_to_list in Hin.
      by eapply (toStringPathMap_same_addresses _ _ mo mm k Hperm). }
    repeat split; [exact Hom | |].
    - intros k mi Hin. rewrite Hrm in Hin. apply elem_of_map_to_list in Hin.
      by eapply (toStringPathMap_same_addresses _ _ mm mo k (symmetry Hperm)).
    - intros Hagree k oi Hin. destruct (Hom k oi Hin) as [mi Hmi].
      exists mi. split; [exact Hmi |].
      rewrite Hro in Hin. apply elem_of_map_to_list in Hin.
      destruct (toStringPathMap_loop_lookup _ _ _ Hmo) as (Hfo & _ & _).
      destruct (toStringPathMap_loop_lookup _ _ _ Hmm) as (Hfm & _ & _).
      destruct (Hfo k oi Hin) as [He | (ps1 & Hin1 & Hp1 & Hs1)];
        [by rewrite lookup_empty in He |].
      destruct (Hfm k mi Hmi) as [He | (ps2 & Hin2 & Hp2 & Hs2)];
        [by rewrite lookup_empty in He |].
      rewrite Hlo in Hin1. rewrite Hlm, <- HL in Hin2.
      exact (Hagree ps1 (val oi) ps2 (val mi) (path oi) (path mi) k
               Hin1 Hin2 Hp1 Hp2 Hs1 Hs2). }
  assert (Hrun : ∀ n, Diff ord original modified opts = Ok n →
    ∃ mo mm,
      toStringPathMap PathToString (range_origLeaves ord L1) = Ok mo
      ∧ toStringPathMap PathToString (range_modLeaves ord L2) = Ok mm
      ∧ (n1 ← Diff_orig mm (range_origLeavesStr ord mo)
                (mkNotification None [] [] false);
         match hasIgnoreAdditions opts with
         | Some _ => Ok n1
         | None => Diff_mod mo (range_modLeavesStr ord mm) n1
         end) = Ok n).
  { intros n Hn.
    destruct (toStringPathMap PathToString (range_origLeaves ord L1))
      as [mo | |] eqn:Hmo;
      [| unfold ygot.Diff in Hn; rewrite decide_True, HL1, HL2 in Hn by done;
         cbn [wrapErr mbind result_bind bindR] in Hn; rewrite Hmo in Hn;
         discriminate Hn ..].
    destruct (toStringPathMap PathToString (range_modLeaves ord L2))
      as [mm | |] eqn:Hmm;
      [| unfold ygot.Diff in Hn; rewrite decide_True, HL1, HL2 in Hn by done;
         cbn [wrapErr mbind result_bind bindR] in Hn; rewrite Hmo, Hmm in Hn;
         discriminate Hn ..].
    exists mo, mm. repeat split.
    by rewrite <- (Diff_unfold ord original modified opts L1 L2 mo mm Hty HL1
                     HL2 Hmo Hmm). }
  split; [| intros Hagree; split].
  - intros n Hn. destruct (Hrun n Hn) as (mo & mm & Hmo & Hmm & Hbody).
    destruct (Hmaps mo mm Hmo Hmm) as (Hom & Hmo' & _).
    destruct (Diff_orig mm (range_origLeavesStr ord mo) _) as [n1 | |] eqn:H1;
      [| discriminate | discriminate].
    cbn [mbind result_bind bindR] in Hbody.
    pose proof (Diff_orig_no_delete _ _ _ _ Hom H1) as Hd.
    rewrite (Diff_mod_unchanged mo _ n1 Hmo') in Hbody.
    destruct (hasIgnoreAdditions opts); injection Hbody as <-; exact Hd.
  - intros n Hn. destruct (Hrun n Hn) as (mo & mm & Hmo & Hmm & Hbody).
    destruct (Hmaps mo mm Hmo Hmm) as (_ & Hmo' & Hsame).
    rewrite (Diff_orig_unchanged mm _ _ (Hsame Hagree)) in Hbody.
    cbn [mbind result_bind bindR] in Hbody.
    rewrite (Diff_mod_unchanged mo _ _ Hmo') in Hbody.
    destruct (hasIgnoreAdditions opts); injection Hbody as <-; by split.
  - intros Hstr.
    pose proof (toStringPathMap_loop_total (range_origLeaves ord L1) ∅) as Ho.
    pose proof (toStringPathMap_loop_total (range_modLeaves ord L2) ∅) as Hm.
    fold (toStringPathMap PathToString (range_origLeaves ord L1)) in Ho.
    fold (toStringPathMap PathToString (range_modLeaves ord L2)) in Hm.
    destruct (toStringPathMap PathToString (range_origLeaves ord L1))
      as [mo | |] eqn:Hmo.
    2,3: exfalso; apply Ho; intros ps v p Hin; apply (Hstr ps v p);
         by rewrite <- Hlo.
    destruct (toStringPathMap PathToString (range_modLeaves ord L2))
      as [mm | |] eqn:Hmm.
    2,3: exfalso; apply Hm; intros ps v p Hin; apply (Hstr ps v p);
         by rewrite HL, <- Hlm.
    destruct (Hmaps mo mm eq_refl eq_refl) as (_ & Hmo' & Hsame).
    rewrite (Diff_unfold ord original modified opts L1 L2 mo mm Hty HL1 HL2
               Hmo Hmm).
    rewrite (Diff_orig_unchanged mm _ _ (Hsame Hagree)).
    cbn [mbind result_bind bindR].
    rewrite (Diff_mod_unchanged mo _ _ Hmo').
    by destruct (hasIgnoreAdditions opts).
Qed.

End DiffFacts.


(** ** Diff on structs given by their leaves *)

Section LeavesFacts.
Import gnmi ygot.

Lemma inOrder_ok : rangeOrder_ok leaves.inOrder.
Proof. by repeat split. Qed.

Lemma modReversed_ok : rangeOrder_ok leaves.modReversed.
Proof.
  repeat split; try done. intros l. simpl. symmetry. apply Permutation_rev.
Qed.

Lemma scenarioOriginal_agrees :
  agree_on_shared String.eqb leaves.PathToString leaves.scenarioOriginal.
Proof.
  intros ps1 v1 ps2 v2 p1 p2 s H1 H2 Hp1 Hp2 Hs1 Hs2.
  unfold leaves.scenarioOriginal in H1, H2.
  repeat match goal with
         | H : _ ∈ _ :: _ |- _ => apply elem_of_cons in H as [H | H]
         | H : _ ∈ [] |- _ => by apply elem_of_nil in H
         | H : (_, _) = (_, _) |- _ => injection H as -> ->; simpl in *
         end;
    subst; vm_compute in Hs1, Hs2; congruence.
Qed.

End LeavesFacts.

(** The theorem at the diff scenario, a=1, c=3 against a=2, b=5: an update of
    [/a] to 2, a delete of [/c], and an update of [/b] to 5. *)
Lemma Diff_emits_updates_and_deletes_witness :
  is_Ok (leaves.Diff leaves.inOrder leaves.scenarioOriginal
           leaves.scenarioModified [])
  ∧ ∀ n,
      leaves.Diff leaves.inOrder leaves.scenarioOriginal
        leaves.scenarioModified [] = Ok n →
      ygot.updated leaves.EncodeTypedValue
        (ygot.mkPathInfo "2" (leaves.leaf ["a"])) n
      ∧ leaves.leaf ["c"] ∈ gnmi.nDelete n
      ∧ ygot.updated leaves.EncodeTypedValue
          (ygot.mkPathInfo "5" (leaves.leaf ["b"])) n.
Proof.
  destruct (Diff_emits_updates_and_deletes string String.eqb string
              leaves.EncodeTypedValue leaves.PathToString
              (list (ygot.pathSpec * string)) unit leaves.TypeOf
              leaves.findSetLeaves leaves.inOrder leaves.scenarioOriginal
              leaves.scenarioModified [] leaves.scenarioOriginal
              leaves.scenarioModified leaves.scenarioOriginalStr
              leaves.scenarioModifiedStr inOrder_ok eq_refl eq_refl)
    as [Htotal Hemits].
  - vm_compute. reflexivity.
  - vm_compute. reflexivity.
  - split.
    + apply Htotal; [reflexivity | intros; exact I].
    + intros n Hn. destruct (Hemits n Hn) as [Horig Hmod].
      split; [| split].
      * exact (Horig "/a" (ygot.mkPathInfo "1" (leaves.leaf ["a"])) eq_refl eq_refl).
      * exact (Horig "/c" (ygot.mkPathInfo "3" (leaves.leaf ["c"])) eq_refl).
      * exact (Hmod eq_refl "/b" (ygot.mkPathInfo "5" (leaves.leaf ["b"]))
                 eq_refl eq_refl).
Defined.

(** The struct a=1, c=3 against itself, whose leaves share no address. *)
Example Diff_same_leaves_is_empty_scenario :
  leaves.Diff leaves.inOrder leaves.scenarioOriginal leaves.scenarioOriginal []
  = Ok (gnmi.mkNotification None [] [] false).
Proof.
  apply (proj2 (proj2 (Diff_same_leaves_is_empty string String.eqb string
                         leaves.EncodeTypedValue leaves.PathToString
                         (list (ygot.pathSpec * string)) unit leaves.TypeOf
                         leaves.findSetLeaves leaves.inOrder
                         leaves.scenarioOriginal leaves.scenarioOriginal []
                         leaves.scenarioOriginal leaves.scenarioOriginal
                         inOrder_ok eq_refl eq_refl eq_refl
                         (reflexivity _))
                  scenarioOriginal_agrees)).
  intros ps v p _ _. exact I.
Qed.

(** C9. Diff of a struct against itself can return an update. The struct
    has the field A, tagged [a|b], with the value x, and the field B, tagged
    [b|c], with the value y. The iteration function of findSetLeaves records
    both, A under the addresses [/a] and [/b] and B under [/b] and [/c] (their
    keys differ). Both walks of the struct record these two leaves; when the
    loop of toStringPathMap visits them first to last for the original and
    last to first for the modified (the order of a [range] over a Go map is
    not fixed), [/b] holds y in the first string map and x in the second,
    and Diff returns an update of [/b] to x for a struct in which nothing
    changed. *)
Lemma Diff_same_struct_shared_address :
  ygot.outLeaves
    (ygot.findSetIterFunc leaves.PathToString
       (fun m : gmap string string => Ok m) None leaves.fieldB
       (ygot.findSetIterFunc leaves.PathToString
          (fun m : gmap string string => Ok m) None leaves.fieldA
          (ygot.mkWalkState ∅ [])).1.2).1.2
  = leaves.sharedAddress
  ∧ ygot.rangeOrder_ok leaves.modReversed
  ∧ leaves.Diff leaves.modReversed leaves.sharedAddress leaves.sharedAddress []
    = Ok (gnmi.mkNotification None
            [gnmi.mkUpdate (leaves.leaf ["b"]) "x"] [] false)
  ∧ gnmi.nUpdate
      (gnmi.mkNotification None [gnmi.mkUpdate (leaves.leaf ["b"]) "x"] [] false)
    ≠ [].
Proof.
  split; [vm_compute; reflexivity |].
  split; [exact modReversed_ok | split; [vm_compute; reflexivity | discriminate]].
Qed.

(** * Further properties of the code *)

(** ** pathSpec.Equal, the options, getPathSpec *)

Section PathSpecMore.
Import gnmi ygot.

Lemma Equal_refl (p : option pathSpec) : Equal p p = true.
Proof. destruct p as [p |]; [| reflexivity]. by apply Equal_inclusion. Qed.

Lemma Equal_trans (p o q : option pathSpec) :
  Equal p o = true → Equal o q = true → Equal p q = true.
Proof.
  destruct p as [p |], o as [o |], q as [q |]; try done.
  rewrite !Equal_inclusion. intros Hpo Hoq x Hx. by apply Hoq, Hpo.
Qed.

End PathSpecMore.

(** X1. Equal is reflexive and transitive, and two pathSpecs are Equal in
    both directions exactly when they hold the same set of addresses. *)
Theorem Equal_preorder_and_both_ways :
  (∀ p, ygot.Equal p p = true)
  ∧ (∀ p o q, ygot.Equal p o = true → ygot.Equal o q = true →
       ygot.Equal p q = true)
  ∧ (∀ p o : ygot.pathSpec,
       ygot.Equal (Some p) (Some o) = true ∧ ygot.Equal (Some o) (Some p) = true
       ↔ ygot.same_path_set p o).
Proof.
  split; [exact Equal_refl | split; [exact Equal_trans |]].
  intros p o. rewrite !Equal_inclusion. unfold ygot.same_path_set.
  split.
  - intros [Hpo Hop] x. split; [apply Hpo | apply Hop].
  - intros H. split; intros x Hx; by apply H.
Qed.

(** X2. hasIgnoreAdditions and hasDiffPathOpt return the first option of
    their kind and look no further: when that first pointer is nil the result
    is nil, whatever follows; without an option of the kind it is nil. *)
Theorem first_option_of_a_kind_is_returned :
  (∀ pre v post,
     Forall (fun o => ∀ w, o ≠ ygot.IgnoreAdditions_ptr w) pre →
     ygot.hasIgnoreAdditions (pre ++ ygot.IgnoreAdditions_ptr v :: post) = v)
  ∧ (∀ opts,
       Forall (fun o => ∀ w, o ≠ ygot.IgnoreAdditions_ptr w) opts →
       ygot.hasIgnoreAdditions opts = None)
  ∧ (∀ pre v post,
       Forall (fun o => ∀ w, o ≠ ygot.DiffPathOpt_ptr w) pre →
       ygot.hasDiffPathOpt (pre ++ ygot.DiffPathOpt_ptr v :: post) = v)
  ∧ (∀ opts,
       Forall (fun o => ∀ w, o ≠ ygot.DiffPathOpt_ptr w) opts →
       ygot.hasDiffPathOpt opts = None).
Proof.
  repeat split.
  - intros pre v post. induction 1 as [| o pre Ho _ IH]; [reflexivity |].
    destruct o as [w | w]; [by destruct (Ho w) | exact IH].
  - induction 1 as [| o opts Ho _ IH]; [reflexivity |].
    destruct o as [w | w]; [by destruct (Ho w) | exact IH].
  - intros pre v post. induction 1 as [| o pre Ho _ IH]; [reflexivity |].
    destruct o as [w | w]; [exact IH | by destruct (Ho w)].
  - induction 1 as [| o opts Ho _ IH]; [reflexivity |].
    destruct o as [w | w]; [exact IH | by destruct (Ho w)].
Qed.

(** X3. getPathSpec returns the first annotation that is a [*pathSpec] (be
    it a nil pointer), skipping the annotations of other types before it, and
    is an error exactly when no annotation is a [*pathSpec]. *)
Theorem getPathSpec_first_pathSpec (KeyVal : Type) (ni : ygot.NodeInfo KeyVal) :
  (∀ p, ygot.getPathSpec ni = Ok p
        ↔ ∃ pre post,
            elems (ygot.Annotation ni) = pre ++ ygot.A_pathSpec p :: post
            ∧ Forall (fun a => a = ygot.A_other) pre)
  ∧ (is_Err (ygot.getPathSpec ni)
     ↔ Forall (fun a => a = ygot.A_other) (elems (ygot.Annotation ni)))
  ∧ ygot.getPathSpec ni ≠ Panic.
Proof.
  unfold ygot.getPathSpec.
  induction (elems (ygot.Annotation ni)) as [| a anns (IHok & IHerr & IHp)].
  - split; [| split; [| discriminate]].
    + intros p. split; [discriminate |].
      intros (pre & post & H & _). by destruct pre.
    + split; [constructor | intros _; exact I].
  - destruct a as [q |]; cbn [ygot.getPathSpec_loop].
    + split; [| split; [| discriminate]].
      * intros p. split.
        -- intros [= <-]. by exists [], anns.
        -- intros (pre & post & H & Hpre). destruct pre as [| a pre].
           ++ by injection H as <-.
           ++ injection H as <- _. by apply Forall_cons in Hpre as [Ha _].
      * split; [intros [] | intros H; by inversion H].
    + split; [| split; [| exact IHp]].
      * intros p. split.
        -- intros H. apply IHok in H as (pre & post & -> & Hpre).
           exists (ygot.A_other :: pre), post. split; [done | by constructor].
        -- intros (pre & post & H & Hpre). apply IHok.
           destruct pre as [| a pre]; [discriminate |].
           injection H as <- ->. exists pre, post.
           split; [done | by apply Forall_cons in Hpre as [_ Hpre]].
      * split.
        -- intros H. constructor; [done | by apply IHerr].
        -- intros H. apply IHerr. by inversion H.
Qed.

(** ** The path algebra *)

Section PathAlgebraMore.
Import gnmi ygot.

Lemma elem_of_bind_join (paths : list Path) (sp : list (slice string)) (x : Path) :
  x ∈ (p ← paths; s ← sp; [joingNMIPaths p (schemaPathTogNMIPath s)])
  ↔ ∃ p s, p ∈ paths ∧ s ∈ sp ∧ x = joingNMIPaths p (schemaPathTogNMIPath s).
Proof.
  rewrite list_elem_of_bind. split.
  - intros (p & Hx & Hp). apply list_elem_of_bind in Hx as (s & Hx & Hs).
    apply list_elem_of_singleton in Hx. by exists p, s.
  - intros (p & s & Hp & Hs & ->). exists p. split; [| done].
    apply list_elem_of_bind. exists s. split; [| done].
    by apply list_elem_of_singleton.
Qed.

Lemma length_bind_join (paths : list Path) (sp : list (slice string)) :
  length (p ← paths; s ← sp; [joingNMIPaths p (schemaPathTogNMIPath s)])
  = length paths * length sp.
Proof.
  induction paths as [| p paths IH]; [reflexivity |].
  rewrite bind_cons, length_app, IH. simpl. f_equal. clear IH.
  induction sp as [| s sp IHs]; [reflexivity |].
  rewrite bind_cons. simpl. by rewrite IHs.
Qed.

Lemma schemaPathTogNMIPath_app (a b : slice string) :
  joingNMIPaths (schemaPathTogNMIPath a) (schemaPathTogNMIPath b)
  = schemaPathTogNMIPath (Some (elems a ++ elems b)).
Proof.
  unfold joingNMIPaths, schemaPathTogNMIPath. simpl. by rewrite map_app.
Qed.

(** The loop of nodeMapPath panics when some address has no element, and
    otherwise returns the addresses with the keys on their last elements. *)
Lemma nodeMapPath_loop_Panic (strkeys : gmap string string) (paths : list Path) :
  ∀ gPaths,
    (Exists (fun p => Elem p = []) paths →
     nodeMapPath_loop strkeys paths gPaths = Panic)
    ∧ (Forall (fun p => Elem p ≠ []) paths →
       is_Ok (nodeMapPath_loop strkeys paths gPaths)).
Proof.
  induction paths as [| p rest IH]; intros gPaths.
  - split; [intros H; by inversion H | intros _; exact I].
  - cbn [nodeMapPath_loop]. destruct (Elem p) as [| e es] eqn:Hp.
    + unfold setLastKey. rewrite Hp. split; [done |].
      intros H. apply Forall_cons in H as [H _]. congruence.
    + destruct (setLastKey_nonempty strkeys p) as (pre & x & _ & ->);
        [congruence |].
      cbn [mbind result_bind bindR]. split.
      * intros H. apply Exists_cons in H as [H | H]; [congruence |].
        by apply IH.
      * intros H. apply Forall_cons in H as [_ H]. by apply IH.
Qed.

Lemma setLastKey_twice (k1 k2 : gmap string string) (p np : Path) :
  setLastKey k1 p = Ok np → setLastKey k2 np = setLastKey k2 p.
Proof.
  intros H1. destruct (Elem p) as [| e es] eqn:Hp.
  - unfold setLastKey in H1. by rewrite Hp in H1.
  - destruct (setLastKey_nonempty k1 p) as (pre & x & Hpx & Hset); [congruence |].
    rewrite Hset in H1. injection H1 as <-.
    rewrite (setLastKey_snoc k2 p pre x Hpx).
    by rewrite (setLastKey_snoc k2 (mkPath (pre ++ [mkPathElem (Name x) k1])) pre
                  (mkPathElem (Name x) k1) eq_refl).
Qed.

Lemma nodeMapPath_loop_twice (k1 k2 : gmap string string) (paths : list Path) :
  ∀ acc1 acc2 r1,
    nodeMapPath_loop k1 paths acc1 = Ok r1 →
    ∃ new1,
      r1 = acc1 ++ new1
      ∧ nodeMapPath_loop k2 new1 acc2 = nodeMapPath_loop k2 paths acc2.
Proof.
  induction paths as [| p rest IH]; intros acc1 acc2 r1 H1.
  - injection H1 as <-. exists []. by rewrite app_nil_r.
  - cbn [nodeMapPath_loop] in H1.
    destruct (setLastKey k1 p) as [np | |] eqn:Hnp; [| done | done].
    cbn [mbind result_bind bindR] in H1.
    pose proof (setLastKey_twice k1 k2 p np Hnp) as Htw.
    destruct (setLastKey k2 p) as [np2 | |] eqn:Hnp2.
    + destruct (IH _ (acc2 ++ [np2]) _ H1) as (new1 & -> & Hloop).
      exists (np :: new1). split; [by rewrite <- app_assoc |].
      cbn [nodeMapPath_loop]. rewrite Htw, Hnp2. exact Hloop.
    + destruct (IH _ acc2 _ H1) as (new1 & -> & _).
      exists (np :: new1). split; [by rewrite <- app_assoc |].
      cbn [nodeMapPath_loop]. by rewrite Htw, Hnp2.
    + destruct (IH _ acc2 _ H1) as (new1 & -> & _).
      exists (np :: new1). split; [by rewrite <- app_assoc |].
      cbn [nodeMapPath_loop]. by rewrite Htw, Hnp2.
Qed.

(** The loop of leastSpecificPath keeps a [shortPath] that is nil or has an
    element as long as the paths it sees have an element. *)
Lemma leastSpecificPath_from_positive (paths : list (slice string)) :
  ∀ s, (s = None ∨ 0 < len s) →
       Forall (fun p => 0 < len p) paths →
       leastSpecificPath_from s paths = None ∨ 0 < len (leastSpecificPath_from s paths).
Proof.
  induction paths as [| p rest IH]; intros s Hs Hall; [exact Hs |].
  apply Forall_cons in Hall as [Hp Hrest]. cbn [leastSpecificPath_from].
  apply IH; [| exact Hrest]. right.
  destruct s as [s |]; simpl; [| by rewrite Nat.ltb_irrefl].
  destruct (len p <? len (Some s))%nat; [exact Hp |].
  destruct Hs as [Hs | Hs]; [discriminate | exact Hs].
Qed.

Lemma leastSpecificPath_from_app (l1 l2 : list (slice string)) : ∀ s,
  leastSpecificPath_from s (l1 ++ l2)
  = leastSpecificPath_from (leastSpecificPath_from s l1) l2.
Proof. induction l1 as [| p l1 IH]; intros s; [reflexivity | apply IH]. Qed.

Lemma leastSpecificPath_from_in (paths : list (slice string)) : ∀ s,
  leastSpecificPath_from s paths = s ∨ leastSpecificPath_from s paths ∈ paths.
Proof.
  induction paths as [| p rest IH]; intros s; [by left |].
  cbn [leastSpecificPath_from].
  destruct (IH (if (len p <? len (if is_nil s then p else s))%nat
                then p else if is_nil s then p else s)) as [-> | Hin].
  - destruct (len p <? _)%nat; [right; apply list_elem_of_here |].
    destruct s as [s |]; simpl; [by left | right; apply list_elem_of_here].
  - right. by apply list_elem_of_further.
Qed.

Lemma addresses_all_nonempty_or_one_empty (paths : list Path) :
  Forall (fun p => Elem p ≠ []) paths ∨ Exists (fun p => Elem p = []) paths.
Proof.
  induction paths as [| p rest [IH | IH]].
  - left. constructor.
  - destruct (Elem p) as [| e es] eqn:Hp.
    + right. by apply Exists_cons_hd.
    + left. constructor; [congruence | exact IH].
  - right. by apply Exists_cons_tl.
Qed.

(** Every pathSpec that nodeValuePath returns has a path slice that is not
    nil. *)
Lemma nodeValuePath_returns_paths (KeyVal : Type)
    (keyMapAsStrings : gmap string KeyVal → result (gmap string string))
    (ni : NodeInfo KeyVal) (schemaPaths : list (slice string)) (ps : pathSpec) :
  nodeValuePath keyMapAsStrings ni schemaPaths = Ok ps →
  ∃ r, gNMIPaths ps = Some r.
Proof.
  unfold nodeValuePath. destruct (Parent ni) as [parent |].
  2: { intros [= <-]. by eexists. }
  destruct (is_nil (Annotation parent)).
  { intros [= <-]. by eexists. }
  destruct (getPathSpec parent) as [cp | |]; [| done | done].
  cbn [mbind result_bind bindR].
  destruct (FieldValue ni) as [l |].
  - unfold nodeMapPath.
    destruct (ΛListKeyMap l) as [keys | |]; [| done | done].
    cbn [mbind result_bind bindR].
    destruct (keyMapAsStrings keys) as [strkeys | |]; [| done | done].
    destruct cp as [cp |]; [| done].
    destruct (gNMIPaths cp) as [cpaths |]; [| done].
    destruct (nodeMapPath_loop strkeys cpaths []) as [g | |]; [| done | done].
    intros [= <-]. by eexists.
  - destruct cp as [cp |]; [| done]. unfold nodeChildPath.
    destruct (gNMIPaths cp) as [cpaths |]; [| done].
    intros [= <-]. by eexists.
Qed.

End PathAlgebraMore.

(** X4. nodeChildPath is an error when the parent has no pathSpec or a
    pathSpec without paths; otherwise it returns, for every address of the
    parent and every schema path of the child, the address followed by the
    elements of the schema path, and nothing else: as many addresses as the
    product of the two numbers. *)
Theorem nodeChildPath_all_joins (parentPath : option ygot.pathSpec)
    (schemaPaths : list (slice string)) :
  match parentPath with
  | Some pp =>
      match ygot.gNMIPaths pp with
      | Some paths =>
          ∃ r, ygot.nodeChildPath parentPath schemaPaths
               = Ok (ygot.mkPathSpec (Some r))
            ∧ length r = length paths * length schemaPaths
            ∧ ∀ x, x ∈ r ↔
                ∃ p s, p ∈ paths ∧ s ∈ schemaPaths
                  ∧ x = ygot.joingNMIPaths p (ygot.schemaPathTogNMIPath s)
      | None => is_Err (ygot.nodeChildPath parentPath schemaPaths)
      end
  | None => is_Err (ygot.nodeChildPath parentPath schemaPaths)
  end.
Proof.
  destruct parentPath as [pp |]; [| exact I].
  unfold ygot.nodeChildPath. destruct (ygot.gNMIPaths pp) as [paths |]; [| exact I].
  eexists. split; [reflexivity |]. split.
  - apply length_bind_join.
  - apply elem_of_bind_join.
Qed.

(** X5. Below a node of the root the addresses of a child are the root
    addresses of the concatenated schema paths: nodeChildPath on the result
    of nodeRootPath is nodeRootPath on every schema path of the parent
    followed by every schema path of the child. *)
Theorem nodeChildPath_of_root_is_root_of_concatenation
    (parentSchemaPaths childSchemaPaths : list (slice string)) :
  ygot.nodeChildPath (Some (ygot.nodeRootPath parentSchemaPaths)) childSchemaPaths
  = Ok (ygot.nodeRootPath
          (p ← parentSchemaPaths; s ← childSchemaPaths;
           [Some (elems p ++ elems s)])).
Proof.
  unfold ygot.nodeChildPath, ygot.nodeRootPath. simpl. do 3 f_equal.
  induction parentSchemaPaths as [| p ps IH]; [reflexivity |].
  cbn [map]. rewrite !bind_cons, map_app, <- IH. f_equal. clear IH.
  induction childSchemaPaths as [| s ss IHs]; [reflexivity |].
  rewrite !bind_cons. cbn [map app]. rewrite schemaPathTogNMIPath_app.
  f_equal. exact IHs.
Qed.

(** X6. Every pathSpec that nodeValuePath returns has a path slice that is
    not nil, and its number of addresses is: the number of schema paths for a
    node without a parent or below a parent without annotations; below an
    annotated parent, the number of addresses of the parent for a list entry,
    and that number times the number of schema paths for any other node. *)
Theorem nodeValuePath_number_of_addresses (KeyVal : Type)
    (keyMapAsStrings : gmap string KeyVal → result (gmap string string))
    (ni : ygot.NodeInfo KeyVal) (schemaPaths : list (slice string))
    (ps : ygot.pathSpec) :
  ygot.nodeValuePath keyMapAsStrings ni schemaPaths = Ok ps →
  ∃ r, ygot.gNMIPaths ps = Some r
    ∧ match ygot.Parent ni with
      | None => length r = length schemaPaths
      | Some parent =>
          if is_nil (ygot.Annotation parent) then length r = length schemaPaths
          else
            ∃ cp cpaths,
              ygot.getPathSpec parent = Ok (Some cp)
              ∧ ygot.gNMIPaths cp = Some cpaths
              ∧ length r
                = match ygot.FieldValue ni with
                  | Some _ => length cpaths
                  | None => length cpaths * length schemaPaths
                  end
      end.
Proof.
  unfold ygot.nodeValuePath. destruct (ygot.Parent ni) as [parent |].
  2: { intros [= <-]. eexists. split; [reflexivity | apply length_map]. }
  destruct (is_nil (ygot.Annotation parent)).
  { intros [= <-]. eexists. split; [reflexivity | apply length_map]. }
  destruct (ygot.getPathSpec parent) as [cp | |]; [| done | done].
  cbn [mbind result_bind bindR].
  destruct (ygot.FieldValue ni) as [l |].
  - unfold ygot.nodeMapPath.
    destruct (ygot.ΛListKeyMap l) as [keys | |]; [| done | done].
    cbn [mbind result_bind bindR].
    destruct (keyMapAsStrings keys) as [strkeys | |]; [| done | done].
    destruct cp as [cp |]; [| done].
    destruct (ygot.gNMIPaths cp) as [cpaths |] eqn:Hcp; [| done].
    destruct (ygot.nodeMapPath_loop strkeys cpaths []) as [g | |] eqn:Hloop;
      [| done | done].
    intros [= <-]. exists g. split; [reflexivity |].
    exists cp, cpaths. repeat split; [exact Hcp |].
    destruct (addresses_all_nonempty_or_one_empty cpaths) as [Hall | Hex].
    + destruct (nodeMapPath_loop_keys strkeys cpaths [] Hall) as (new & Hnew & Hf2).
      rewrite Hnew in Hloop. injection Hloop as <-.
      symmetry. exact (Forall2_length _ _ _ Hf2).
    + destruct (nodeMapPath_loop_Panic strkeys cpaths []) as [Hp _].
      by rewrite (Hp Hex) in Hloop.
  - destruct cp as [cp |]; [| done]. unfold ygot.nodeChildPath.
    destruct (ygot.gNMIPaths cp) as [cpaths |] eqn:Hcp; [| done].
    intros [= <-]. eexists. split; [reflexivity |].
    exists cp, cpaths. repeat split; [exact Hcp | apply length_bind_join].
Qed.

(** The theorem at the entry of the list at [/yang-list]: one address. *)
Lemma nodeValuePath_number_of_addresses_witness :
  ∃ r, ygot.gNMIPaths
         (ygot.mkPathSpec
            (Some [gnmi.mkPath
                     [gnmi.mkPathElem "yang-list" {["key-value" := "k"]}]]))
       = Some r
    ∧ ∃ cp cpaths,
        ygot.getPathSpec leaves.yangList = Ok (Some cp)
        ∧ ygot.gNMIPaths cp = Some cpaths
        ∧ length r = length cpaths.
Proof.
  exact (nodeValuePath_number_of_addresses string (fun m => Ok m)
           leaves.yangListEntry [Some ["yang-list"]] _ eq_refl).
Defined.

(** X7. With keys that ΛListKeyMap and keyMapAsStrings return without error
    and a parent pathSpec whose path slice is not nil, nodeMapPath panics
    exactly when some address of the parent has no element (the index of its
    last element is out of range), and returns a pathSpec otherwise. *)
Theorem nodeMapPath_panics_on_empty_address (KeyVal : Type)
    (keyMapAsStrings : gmap string KeyVal → result (gmap string string))
    (l : ygot.KeyHelperGoStruct KeyVal) (pp : ygot.pathSpec)
    (keys : gmap string KeyVal) (strkeys : gmap string string)
    (paths : list gnmi.Path) :
  ygot.ΛListKeyMap l = Ok keys →
  keyMapAsStrings keys = Ok strkeys →
  ygot.gNMIPaths pp = Some paths →
  (ygot.nodeMapPath keyMapAsStrings l (Some pp) = Panic
   ↔ Exists (fun p => gnmi.Elem p = []) paths)
  ∧ (is_Ok (ygot.nodeMapPath keyMapAsStrings l (Some pp))
     ↔ Forall (fun p => gnmi.Elem p ≠ []) paths).
Proof.
  intros Hk Hs Hp. unfold ygot.nodeMapPath. rewrite Hk.
  cbn [mbind result_bind bindR]. rewrite Hs, Hp.
  destruct (nodeMapPath_loop_Panic strkeys paths []) as [Hpanic Hok].
  destruct (addresses_all_nonempty_or_one_empty paths) as [Hall | Hex'].
  - specialize (Hok Hall).
    destruct (ygot.nodeMapPath_loop strkeys paths []) as [g | |]; [| done | done].
    cbn [mbind result_bind bindR]. split; split; try done.
    intros Hex. apply Exists_exists in Hex as (p & Hin & Hp').
    rewrite Forall_forall in Hall. by destruct (Hall p Hin).
  - rewrite (Hpanic Hex'). cbn [mbind result_bind bindR].
    split; split; try done.
    intros Hall. apply Exists_exists in Hex' as (p & Hin & Hp').
    rewrite Forall_forall in Hall. by destruct (Hall p Hin).
Qed.

(** The theorem at a list field whose pathSpec holds the address without
    elements: the keys have no element to go to. *)
Lemma nodeMapPath_panics_on_empty_address_witness :
  ygot.nodeMapPath (fun m : gmap string string => Ok m)
    (ygot.mkKeyHelper (Ok {["key-value" := "k"]}))
    (Some (ygot.mkPathSpec (Some [gnmi.mkPath []])))
  = Panic.
Proof.
  apply (proj1 (nodeMapPath_panics_on_empty_address string (fun m => Ok m)
                  (ygot.mkKeyHelper (Ok {["key-value" := "k"]}))
                  (ygot.mkPathSpec (Some [gnmi.mkPath []]))
                  {["key-value" := "k"]} {["key-value" := "k"]}
                  [gnmi.mkPath []] eq_refl eq_refl eq_refl)).
  by apply Exists_cons_hd.
Defined.

(** X8. The keys of a list entry replace the keys that the last element of
    an address already has; they are not merged with them: nodeMapPath on the
    result of an earlier nodeMapPath gives what it gives on the pathSpec the
    earlier call started from. *)
Theorem nodeMapPath_replaces_keys (KeyVal : Type)
    (keyMapAsStrings : gmap string KeyVal → result (gmap string string))
    (l1 l2 : ygot.KeyHelperGoStruct KeyVal) (pp r1 : ygot.pathSpec) :
  ygot.nodeMapPath keyMapAsStrings l1 (Some pp) = Ok r1 →
  ygot.nodeMapPath keyMapAsStrings l2 (Some r1)
  = ygot.nodeMapPath keyMapAsStrings l2 (Some pp).
Proof.
  unfold ygot.nodeMapPath.
  destruct (ygot.ΛListKeyMap l1) as [keys1 | |]; [| done | done].
  cbn [mbind result_bind bindR].
  destruct (keyMapAsStrings keys1) as [k1 | |]; [| done | done].
  destruct (ygot.gNMIPaths pp) as [paths |]; [| done].
  destruct (ygot.nodeMapPath_loop k1 paths []) as [g | |] eqn:H1; [| done | done].
  cbn [mbind result_bind bindR]. intros [= <-].
  destruct (ygot.ΛListKeyMap l2) as [keys2 | |]; [| done | done].
  cbn [mbind result_bind bindR].
  destruct (keyMapAsStrings keys2) as [k2 | |]; [| done | done].
  cbn [ygot.gNMIPaths].
  destruct (nodeMapPath_loop_twice k1 k2 paths [] [] g H1) as (new1 & -> & Hloop).
  cbn [app]. by rewrite Hloop.
Qed.

(** The theorem at [/yang-list]: keys k, then keys j, as keys j at once. *)
Lemma nodeMapPath_replaces_keys_witness :
  ygot.nodeMapPath (fun m : gmap string string => Ok m)
    (ygot.mkKeyHelper (Ok {["other" := "j"]}))
    (Some (ygot.mkPathSpec
             (Some [gnmi.mkPath
                      [gnmi.mkPathElem "yang-list" {["key-value" := "k"]}]])))
  = ygot.nodeMapPath (fun m : gmap string string => Ok m)
      (ygot.mkKeyHelper (Ok {["other" := "j"]}))
      (Some (ygot.mkPathSpec (Some [leaves.leaf ["yang-list"]]))).
Proof.
  exact (nodeMapPath_replaces_keys string (fun m => Ok m)
           (ygot.mkKeyHelper (Ok {["key-value" := "k"]}))
           (ygot.mkKeyHelper (Ok {["other" := "j"]}))
           (ygot.mkPathSpec (Some [leaves.leaf ["yang-list"]]))
           (ygot.mkPathSpec
              (Some [gnmi.mkPath
                       [gnmi.mkPathElem "yang-list" {["key-value" := "k"]}]]))
           eq_refl).
Defined.

(** X9. leastSpecificPath returns nil on the empty slice and otherwise one
    of the paths it is given. *)
Theorem leastSpecificPath_is_one_of_the_paths (paths : list (slice string)) :
  ygot.leastSpecificPath [] = None
  ∧ (paths ≠ [] → ygot.leastSpecificPath paths ∈ paths).
Proof.
  split; [reflexivity |]. intros Hne.
  destruct paths as [| p rest]; [done |]. unfold ygot.leastSpecificPath.
  cbn [ygot.leastSpecificPath_from is_nil]. rewrite Nat.ltb_irrefl.
  destruct (leastSpecificPath_from_in rest p) as [-> | Hin].
  - apply list_elem_of_here.
  - by apply list_elem_of_further.
Qed.

(** X10. A nil path restarts the search: when the paths before it all have
    an element, leastSpecificPath returns what it returns on the paths after
    the nil one alone, however short the paths before it are. *)
Theorem leastSpecificPath_nil_restarts (pre rest : list (slice string)) :
  Forall (fun p => 0 < len p) pre →
  ygot.leastSpecificPath (pre ++ None :: rest) = ygot.leastSpecificPath rest.
Proof.
  intros Hpre. unfold ygot.leastSpecificPath.
  rewrite leastSpecificPath_from_app. cbn [ygot.leastSpecificPath_from].
  destruct (leastSpecificPath_from_positive pre None (or_introl eq_refl) Hpre)
    as [-> | Hpos]; [reflexivity |].
  destruct (ygot.leastSpecificPath_from None pre) as [s |]; [| reflexivity].
  cbn [is_nil]. unfold len at 1. cbn [elems default length].
  destruct (Nat.ltb_spec 0 (len (Some s))); [reflexivity | lia].
Qed.

(** The theorem at [a], nil, [b/c]: the result is [b/c], not the shorter [a]. *)
Lemma leastSpecificPath_nil_restarts_witness :
  ygot.leastSpecificPath ([Some ["a"]] ++ None :: [Some ["b"; "c"]])
  = ygot.leastSpecificPath [Some ["b"; "c"]].
Proof.
  apply leastSpecificPath_nil_restarts. repeat constructor.
Defined.

(** ** The string map of the leaves and the output of Diff *)

Section DiffMore.
Import gnmi ygot.

Variable Val : Type.
Variable DeepEqual : Val → Val → bool.
Variable TypedValue : Type.
Variable EncodeTypedValue : Val → result TypedValue.
Variable PathToString : Path → result string.
Variable GoStruct : Type.
Variable GoType : Type.
Context `{EqDecision GoType}.
Variable TypeOf : GoStruct → GoType.
Variable findSetLeaves : GoStruct → list DiffOpt → result (list (pathSpec * Val)).

Local Abbreviation appendUpdate := (appendUpdate EncodeTypedValue).
Local Abbreviation updateOf := (updateOf EncodeTypedValue).
Local Abbreviation Diff_orig := (Diff_orig DeepEqual EncodeTypedValue).
Local Abbreviation Diff_mod := (Diff_mod EncodeTypedValue).
Local Abbreviation Diff :=
  (Diff DeepEqual EncodeTypedValue PathToString TypeOf findSetLeaves).

Lemma toStringPathMap_paths_Ok_all (v : Val) ps : ∀ m0 m,
  toStringPathMap_paths PathToString v ps m0 = Ok m →
  ∀ p, p ∈ ps → is_Ok (PathToString p).
Proof.
  induction ps as [| q rest IH]; intros m0 m Hrun p Hin.
  - by apply elem_of_nil in Hin.
  - cbn [toStringPathMap_paths] in Hrun.
    destruct (PathToString q) as [s | |] eqn:Hq; [| done | done].
    cbn [mbind result_bind bindR] in Hrun.
    apply elem_of_cons in Hin as [-> | Hin]; [by rewrite Hq |].
    by apply (IH _ _ Hrun).
Qed.

Lemma toStringPathMap_loop_Ok_all (entries : list (pathSpec * Val)) : ∀ m0 m,
  toStringPathMap_loop PathToString entries m0 = Ok m →
  ∀ ps v p, (ps, v) ∈ entries → p ∈ elems (gNMIPaths ps) →
            is_Ok (PathToString p).
Proof.
  induction entries as [| [ps0 v0] rest IH]; intros m0 m Hrun ps v p Hin Hp.
  - by apply elem_of_nil in Hin.
  - cbn [toStringPathMap_loop] in Hrun.
    destruct (toStringPathMap_paths PathToString v0 (elems (gNMIPaths ps0)) m0)
      as [m1 | |] eqn:H1; [| done | done].
    cbn [mbind result_bind bindR] in Hrun.
    apply elem_of_cons in Hin as [[= -> ->] | Hin].
    + by apply (toStringPathMap_paths_Ok_all _ _ _ _ H1).
    + by apply (IH _ _ Hrun ps v).
Qed.

(** The first loop of Diff, exactly: the deletes and the updates it adds, in
    the order of the visit. *)
Lemma Diff_orig_exact mm entries : ∀ n0 n,
  Diff_orig mm entries n0 = Ok n →
  nPrefix n = nPrefix n0 ∧ nAtomic n = nAtomic n0
  ∧ nDelete n
    = nDelete n0
      ++ omap (fun e : string * pathInfo Val =>
                 match mm !! e.1 with
                 | None => Some (path e.2)
                 | Some _ => None
                 end) entries
  ∧ ∃ U, nUpdate n = nUpdate n0 ++ U
      ∧ Forall2 updateOf U (omap (changedLeaf DeepEqual mm) entries).
Proof.
  induction entries as [| [k0 o0] rest IH]; intros n0 n Hrun.
  - injection Hrun as <-. repeat split; [by rewrite app_nil_r |].
    exists []. split; [by rewrite app_nil_r | constructor].
  - cbn [ygot.Diff_orig] in Hrun. cbn [omap list_omap].
    unfold changedLeaf at 1. cbn [fst snd].
    destruct (mm !! k0) as [m0 |] eqn:Hk0.
    + destruct (DeepEqual (val o0) (val m0)) eqn:Heq; cbn [negb] in Hrun.
      * exact (IH _ _ Hrun).
      * destruct (appendUpdate n0 k0 m0) as [n1 | |] eqn:Happ;
          [| discriminate | discriminate].
        cbn [mbind result_bind bindR] in Hrun.
        destruct (appendUpdate_Ok _ _ _ _ _ _ _ Happ) as (tv & Henc & Hup & Hdel).
        destruct (IH _ _ Hrun) as (Hp & Ha & Hd & U & HU & HF).
        unfold ygot.appendUpdate in Happ. rewrite Henc in Happ.
        injection Happ as <-. cbn in Hp, Ha, Hd, HU.
        repeat split; [exact Hp | exact Ha | exact Hd |].
        exists (mkUpdate (path m0) tv :: U). split.
        -- rewrite HU, <- app_assoc. reflexivity.
        -- constructor; [by split | exact HF].
    + destruct (IH _ _ Hrun) as (Hp & Ha & Hd & U & HU & HF).
      cbn in Hp, Ha, Hd, HU. repeat split; [exact Hp | exact Ha | |].
      * rewrite Hd, <- app_assoc. reflexivity.
      * by exists U.
Qed.

Lemma Diff_mod_exact mo entries : ∀ n0 n,
  Diff_mod mo entries n0 = Ok n →
  nPrefix n = nPrefix n0 ∧ nAtomic n = nAtomic n0
  ∧ nDelete n = nDelete n0
  ∧ ∃ U, nUpdate n = nUpdate n0 ++ U
      ∧ Forall2 updateOf U (omap (addedLeaf mo) entries).
Proof.
  induction entries as [| [k0 m0] rest IH]; intros n0 n Hrun.
  - injection Hrun as <-. repeat split.
    exists []. split; [by rewrite app_nil_r | constructor].
  - cbn [ygot.Diff_mod] in Hrun. cbn [omap list_omap].
    unfold addedLeaf at 1. cbn [fst snd].
    destruct (mo !! k0) as [o0 |] eqn:Hk0; [exact (IH _ _ Hrun) |].
    destruct (appendUpdate n0 k0 m0) as [n1 | |] eqn:Happ;
      [| discriminate | discriminate].
    cbn [mbind result_bind bindR] in Hrun.
    destruct (appendUpdate_Ok _ _ _ _ _ _ _ Happ) as (tv & Henc & Hup & Hdel).
    destruct (IH _ _ Hrun) as (Hp & Ha & Hd & U & HU & HF).
    unfold ygot.appendUpdate in Happ. rewrite Henc in Happ.
    injection Happ as <-. cbn in Hp, Ha, Hd, HU.
    repeat split; [exact Hp | exact Ha | exact Hd |].
    exists (mkUpdate (path m0) tv :: U). split.
    + rewrite HU, <- app_assoc. reflexivity.
    + constructor; [by split | exact HF].
Qed.

(** The loops return a notification exactly when every value they have to
    encode can be encoded. *)
Lemma Diff_orig_Ok_iff mm entries : ∀ n0,
  is_Ok (Diff_orig mm entries n0)
  ↔ Forall (fun pi => is_Ok (EncodeTypedValue (val pi)))
      (omap (changedLeaf DeepEqual mm) entries).
Proof.
  induction entries as [| [k0 o0] rest IH]; intros n0.
  - split; [constructor | done].
  - cbn [ygot.Diff_orig omap list_omap]. unfold changedLeaf at 1. cbn [fst snd].
    destruct (mm !! k0) as [m0 |]; [| apply IH].
    destruct (DeepEqual (val o0) (val m0)); cbn [negb]; [apply IH |].
    rewrite Forall_cons. unfold ygot.appendUpdate.
    destruct (EncodeTypedValue (val m0)) as [tv | |];
      cbn [mbind result_bind bindR].
    + rewrite IH. simpl. tauto.
    + simpl. tauto.
    + simpl. tauto.
Qed.

Lemma Diff_mod_Ok_iff mo entries : ∀ n0,
  is_Ok (Diff_mod mo entries n0)
  ↔ Forall (fun pi => is_Ok (EncodeTypedValue (val pi)))
      (omap (addedLeaf mo) entries).
Proof.
  induction entries as [| [k0 m0] rest IH]; intros n0.
  - split; [constructor | done].
  - cbn [ygot.Diff_mod omap list_omap]. unfold addedLeaf at 1. cbn [fst snd].
    destruct (mo !! k0) as [o0 |]; [apply IH |].
    rewrite Forall_cons. unfold ygot.appendUpdate.
    destruct (EncodeTypedValue (val m0)) as [tv | |];
      cbn [mbind result_bind bindR].
    + rewrite IH. simpl. tauto.
    + simpl. tauto.
    + simpl. tauto.
Qed.

(** X11. toStringPathMap returns a map exactly when every path of every leaf
    has a string form. The map then has an entry under every such string and
    under no other key, and every entry holds the value of a leaf together
    with one of the paths of that leaf, filed under the string of that path. *)
Theorem toStringPathMap_entries (entries : list (pathSpec * Val)) :
  (is_Ok (toStringPathMap PathToString entries)
   ↔ ∀ ps v p, (ps, v) ∈ entries → p ∈ elems (gNMIPaths ps) →
       is_Ok (PathToString p))
  ∧ ∀ m : gmap string (pathInfo Val),
      toStringPathMap PathToString entries = Ok m →
      (∀ k : string,
         is_Some (m !! k)
         ↔ ∃ ps v p, (ps, v) ∈ entries ∧ p ∈ elems (gNMIPaths ps)
             ∧ PathToString p = Ok k)
      ∧ (∀ (k : string) (pi : pathInfo Val),
           m !! k = Some pi →
           ∃ ps, (ps, val pi) ∈ entries ∧ path pi ∈ elems (gNMIPaths ps)
             ∧ PathToString (path pi) = Ok k).
Proof.
  split.
  - split.
    + intros Hok ps v p Hin Hp. unfold toStringPathMap in Hok.
      destruct (toStringPathMap_loop PathToString entries ∅) as [m | |] eqn:Hm;
        [| done | done].
      exact (toStringPathMap_loop_Ok_all _ _ _ Hm ps v p Hin Hp).
    + intros Hall. by apply toStringPathMap_loop_total.
  - intros m Hm.
    destruct (toStringPathMap_loop_lookup _ _ _ _ _ Hm) as (Hfrom & _ & Hall).
    assert (Hprov : ∀ (k : string) (pi : pathInfo Val), m !! k = Some pi →
              ∃ ps, (ps, val pi) ∈ entries ∧ path pi ∈ elems (gNMIPaths ps)
                ∧ PathToString (path pi) = Ok k).
    { intros k pi Hk. destruct (Hfrom k pi Hk) as [He | H]; [| exact H].
      by rewrite lookup_empty in He. }
    split; [| exact Hprov].
    intros k. split.
    + intros [pi Hk]. destruct (Hprov k pi Hk) as (ps & Hin & Hp & Hs).
      by exists ps, (val pi), (path pi).
    + intros (ps & v & p & Hin & Hp & Hs). by apply (Hall ps v p).
Qed.

(** X12. When no two leaves have addresses of the same string form, the
    string map does not depend on the order in which the leaves are visited:
    visited in any other order they give the same map. *)
Theorem toStringPathMap_order_independent (l1 l2 : list (pathSpec * Val))
    (m : gmap string (pathInfo Val)) :
  l1 ≡ₚ l2 →
  addresses_unshared PathToString l1 →
  toStringPathMap PathToString l1 = Ok m →
  toStringPathMap PathToString l2 = Ok m.
Proof.
  intros Hperm Hun H1.
  destruct (toStringPathMap_loop_lookup _ _ _ _ _ H1) as (Hfrom1 & _ & Hall1).
  pose proof (toStringPathMap_loop_total _ PathToString l2 ∅) as Hok2.
  fold (toStringPathMap PathToString l2) in Hok2.
  destruct (toStringPathMap PathToString l2) as [m2 | |] eqn:H2.
  2,3: exfalso; apply Hok2; intros ps v p Hin Hp;
       apply (toStringPathMap_loop_Ok_all _ _ _ H1 ps v p); [by rewrite Hperm | done].
  f_equal. apply map_eq. intros k.
  destruct (toStringPathMap_loop_lookup _ _ _ _ _ H2) as (Hfrom2 & _ & Hall2).
  destruct (m !! k) as [pi |] eqn:Hk.
  - destruct (Hfrom1 k pi Hk) as [He | (ps & Hin & Hp & Hs)];
      [by rewrite lookup_empty in He |].
    destruct (Hall2 ps (val pi) (path pi) k) as [pi2 Hk2];
      [by rewrite <- Hperm | done | done |].
    rewrite Hk2. f_equal.
    destruct (Hfrom2 k pi2 Hk2) as [He | (ps2 & Hin2 & Hp2 & Hs2)];
      [by rewrite lookup_empty in He |].
    rewrite <- Hperm in Hin2.
    destruct (Hun ps2 (val pi2) ps (val pi) (path pi2) (path pi) k
                Hin2 Hin Hp2 Hp Hs2 Hs) as [Hv Hpa].
    destruct pi, pi2. simpl in *. by subst.
  - destruct (m2 !! k) as [pi2 |] eqn:Hk2; [| reflexivity].
    destruct (Hfrom2 k pi2 Hk2) as [He | (ps2 & Hin2 & Hp2 & Hs2)];
      [by rewrite lookup_empty in He |].
    rewrite <- Hperm in Hin2.
    destruct (Hall1 ps2 (val pi2) (path pi2) k Hin2 Hp2 Hs2) as [pi Hpi].
    congruence.
Qed.

(** X13. With the string maps [mo] and [mm] of the two structs, the
    notification that Diff returns has no prefix and no atomic flag; its
    deletes are, up to their order, the paths of the addresses that only
    [mo] has, each once; and its updates are, one for one, first the leaves
    of [mm] whose value differs from the one [mo] has under the same
    address, then, unless IgnoreAdditions is given, the leaves of [mm]
    under addresses that [mo] lacks, each with its path and its encoded
    value, each group up to its order. *)
Theorem Diff_output_exact ord original modified opts origLeaves modLeaves
    (mo mm : gmap string (pathInfo Val)) n :
  rangeOrder_ok ord →
  findSetLeaves original opts = Ok origLeaves →
  findSetLeaves modified opts = Ok modLeaves →
  toStringPathMap PathToString (range_origLeaves ord origLeaves) = Ok mo →
  toStringPathMap PathToString (range_modLeaves ord modLeaves) = Ok mm →
  Diff ord original modified opts = Ok n →
  nPrefix n = None ∧ nAtomic n = false
  ∧ nDelete n ≡ₚ removedPaths mo mm
  ∧ ∃ changed added,
      changed ≡ₚ changedLeaves DeepEqual mo mm
      ∧ added ≡ₚ match hasIgnoreAdditions opts with
                 | Some _ => []
                 | None => addedLeaves mo mm
                 end
      ∧ Forall2 updateOf (nUpdate n) (changed ++ added).
Proof.
  intros (_ & _ & Hro & Hrm) Ho Hm Hmo Hmm Hrun.
  assert (Hty : TypeOf original = TypeOf modified)
    by (eapply Diff_Ok_same_type; exact Hrun).
  rewrite (Diff_unfold Val DeepEqual TypedValue EncodeTypedValue PathToString
             GoStruct GoType TypeOf findSetLeaves ord original modified opts
             origLeaves modLeaves mo mm Hty Ho Hm Hmo Hmm) in Hrun.
  destruct (Diff_orig mm (range_origLeavesStr ord mo) _) as [n1 | |] eqn:H1;
    [| discriminate | discriminate].
  cbn [mbind result_bind bindR] in Hrun.
  destruct (Diff_orig_exact _ _ _ _ H1) as (Hp1 & Ha1 & Hd1 & U1 & HU1 & HF1).
  cbn in Hp1, Ha1, Hd1, HU1.
  assert (Hdel : nDelete n1 ≡ₚ removedPaths mo mm).
  { rewrite Hd1. unfold removedPaths. by rewrite Hro. }
  assert (Hch : omap (changedLeaf DeepEqual mm) (range_origLeavesStr ord mo)
                ≡ₚ changedLeaves DeepEqual mo mm).
  { unfold changedLeaves. by rewrite Hro. }
  destruct (hasIgnoreAdditions opts) as [ia |].
  - injection Hrun as <-. repeat split; [exact Hp1 | exact Ha1 | exact Hdel |].
    eexists _, []. split; [exact Hch |]. split; [reflexivity |].
    rewrite app_nil_r, HU1. exact HF1.
  - destruct (Diff_mod_exact _ _ _ _ Hrun) as (Hp2 & Ha2 & Hd2 & U2 & HU2 & HF2).
    repeat split; [congruence | congruence | by rewrite Hd2 |].
    eexists _, _. split; [exact Hch |]. split.
    + unfold addedLeaves. rewrite <- (Hrm mm). reflexivity.
    + rewrite HU2, HU1. by apply Forall2_app.
Qed.

(** X14. With the string maps [mo] and [mm] of two structs of the same type,
    Diff returns a notification exactly when every value it has to put in
    an update can be encoded: the changed leaves, and the added ones unless
    IgnoreAdditions is given. One value that cannot be encoded fails the
    whole Diff; the values of unchanged leaves are never encoded. *)
Theorem Diff_Ok_iff_updates_encode ord original modified opts origLeaves
    modLeaves (mo mm : gmap string (pathInfo Val)) :
  rangeOrder_ok ord →
  TypeOf original = TypeOf modified →
  findSetLeaves original opts = Ok origLeaves →
  findSetLeaves modified opts = Ok modLeaves →
  toStringPathMap PathToString (range_origLeaves ord origLeaves) = Ok mo →
  toStringPathMap PathToString (range_modLeaves ord modLeaves) = Ok mm →
  is_Ok (Diff ord original modified opts)
  ↔ Forall (fun pi => is_Ok (EncodeTypedValue (val pi)))
      (changedLeaves DeepEqual mo mm
         ++ match hasIgnoreAdditions opts with
            | Some _ => []
            | None => addedLeaves mo mm
            end).
Proof.
  intros (_ & _ & Hro & Hrm) Hty Ho Hm Hmo Hmm.
  rewrite (Diff_unfold Val DeepEqual TypedValue EncodeTypedValue PathToString
             GoStruct GoType TypeOf findSetLeaves ord original modified opts
             origLeaves modLeaves mo mm Hty Ho Hm Hmo Hmm).
  rewrite Forall_app. unfold changedLeaves, addedLeaves.
  assert (HF1 : Forall (fun pi => is_Ok (EncodeTypedValue (val pi)))
                  (omap (changedLeaf DeepEqual mm) (range_origLeavesStr ord mo))
                ↔ Forall (fun pi => is_Ok (EncodeTypedValue (val pi)))
                    (omap (changedLeaf DeepEqual mm) (map_to_list mo)))
    by (by rewrite (Hro mo)).
  assert (HF2 : Forall (fun pi => is_Ok (EncodeTypedValue (val pi)))
                  (omap (addedLeaf mo) (range_modLeavesStr ord mm))
                ↔ Forall (fun pi => is_Ok (EncodeTypedValue (val pi)))
                    (omap (addedLeaf mo) (map_to_list mm)))
    by (by rewrite (Hrm mm)).
  rewrite <- HF1.
  rewrite <- (Diff_orig_Ok_iff mm _ (mkNotification None [] [] false)).
  destruct (Diff_orig mm (range_origLeavesStr ord mo) _) as [n1 | |];
    cbn [mbind result_bind bindR].
  - destruct (hasIgnoreAdditions opts).
    + split; [intros _; split; [exact I | constructor] | intros _; exact I].
    + rewrite <- HF2, <- (Diff_mod_Ok_iff mo _ n1). simpl. tauto.
  - simpl. tauto.
  - simpl. tauto.
Qed.

End DiffMore.

Section LeavesMore.
Import gnmi ygot.

Lemma scenarioOriginal_unshared :
  addresses_unshared leaves.PathToString leaves.scenarioOriginal.
Proof.
  intros ps1 v1 ps2 v2 p1 p2 s H1 H2 Hp1 Hp2 Hs1 Hs2.
  unfold leaves.scenarioOriginal in H1, H2.
  repeat match goal with
         | H : _ ∈ _ :: _ |- _ => apply elem_of_cons in H as [H | H]
         | H : _ ∈ [] |- _ => by apply elem_of_nil in H
         | H : (_, _) = (_, _) |- _ => injection H as -> ->; simpl in *
         end;
    subst; vm_compute in Hs1, Hs2; first [done | congruence].
Qed.

End LeavesMore.

(** The theorem on the leaves a=1, c=3, visited last to first. *)
Lemma toStringPathMap_order_independent_witness :
  ygot.toStringPathMap leaves.PathToString (rev leaves.scenarioOriginal)
  = Ok leaves.scenarioOriginalStr.
Proof.
  apply (toStringPathMap_order_independent string leaves.PathToString
           leaves.scenarioOriginal (rev leaves.scenarioOriginal)
           leaves.scenarioOriginalStr).
  - apply Permutation_rev.
  - exact scenarioOriginal_unshared.
  - vm_compute. reflexivity.
Defined.

(** The theorem at the diff scenario, a=1, c=3 against a=2, b=5. *)
Lemma Diff_output_exact_witness :
  gnmi.nPrefix leaves.scenarioDiff = None
  ∧ gnmi.nAtomic leaves.scenarioDiff = false
  ∧ gnmi.nDelete leaves.scenarioDiff
    ≡ₚ ygot.removedPaths leaves.scenarioOriginalStr leaves.scenarioModifiedStr
  ∧ ∃ changed added,
      changed ≡ₚ ygot.changedLeaves String.eqb leaves.scenarioOriginalStr
                   leaves.scenarioModifiedStr
      ∧ added ≡ₚ ygot.addedLeaves leaves.scenarioOriginalStr
                   leaves.scenarioModifiedStr
      ∧ Forall2 (ygot.updateOf leaves.EncodeTypedValue)
          (gnmi.nUpdate leaves.scenarioDiff) (changed ++ added).
Proof.
  apply (Diff_output_exact string String.eqb string leaves.EncodeTypedValue
           leaves.PathToString (list (ygot.pathSpec * string)) unit
           leaves.TypeOf leaves.findSetLeaves leaves.inOrder
           leaves.scenarioOriginal leaves.scenarioModified []
           leaves.scenarioOriginal leaves.scenarioModified
           leaves.scenarioOriginalStr leaves.scenarioModifiedStr
           leaves.scenarioDiff inOrder_ok eq_refl eq_refl).
  - vm_compute. reflexivity.
  - vm_compute. reflexivity.
  - vm_compute. reflexivity.
Defined.

(** The theorem at the diff scenario: every value encodes, Diff returns. *)
Lemma Diff_Ok_iff_updates_encode_witness :
  is_Ok (leaves.Diff leaves.inOrder leaves.scenarioOriginal
           leaves.scenarioModified [])
  ↔ Forall (fun pi => is_Ok (leaves.EncodeTypedValue (ygot.val pi)))
      (ygot.changedLeaves String.eqb leaves.scenarioOriginalStr
         leaves.scenarioModifiedStr
       ++ ygot.addedLeaves leaves.scenarioOriginalStr leaves.scenarioModifiedStr).
Proof.
  apply (Diff_Ok_iff_updates_encode string String.eqb string
           leaves.EncodeTypedValue leaves.PathToString
           (list (ygot.pathSpec * string)) unit leaves.TypeOf
           leaves.findSetLeaves leaves.inOrder leaves.scenarioOriginal
           leaves.scenarioModified [] leaves.scenarioOriginal
           leaves.scenarioModified leaves.scenarioOriginalStr
           leaves.scenarioModifiedStr inOrder_ok eq_refl eq_refl eq_refl).
  - vm_compute. reflexivity.
  - vm_compute. reflexivity.
Defined.

(** ** The iteration function of findSetLeaves *)

Section IterMore.
Import gnmi ygot.

Variable Val : Type.
Variable KeyVal : Type.
Variable PathToString : Path → result string.
Variable keyMapAsStrings : gmap string KeyVal → result (gmap string string).

Local Abbreviation findSetIterFunc := (findSetIterFunc PathToString keyMapAsStrings).
Local Abbreviation valuePath := (findSetLeaves_valuePath keyMapAsStrings).

(** The three ways in which a call of the iteration function ends: the node
    is passed over (no struct field, an annotation field, or a key already
    processed), the computation of its addresses or of their strings fails,
    or the node is processed: its key is remembered, it is annotated with its
    pathSpec, and it is recorded when its value is a set leaf. *)
Lemma findSetIterFunc_cases (pathOpt : option DiffPathOpt)
    (v : visit Val KeyVal) (st : walkState Val) :
  (findSetIterFunc pathOpt v st = (vNodeInfo v, st, Ok tt)
   ∧ (vStructField v = None ∨ vIsYgotAnnotation v = true
      ∨ ∃ sf vp keys,
          vStructField v = Some sf
          ∧ valuePath pathOpt (vNodeInfo v) sf = Ok vp
          ∧ mapR PathToString (elems (gNMIPaths vp)) = Ok keys
          ∧ processedKey keys ∈ processedPaths st))
  ∨ (∃ r, r ≠ Ok tt ∧ findSetIterFunc pathOpt v st = (vNodeInfo v, st, r))
  ∨ (∃ sf vp keys,
       vStructField v = Some sf ∧ vIsYgotAnnotation v = false
       ∧ valuePath pathOpt (vNodeInfo v) sf = Ok vp
       ∧ mapR PathToString (elems (gNMIPaths vp)) = Ok keys
       ∧ (processedKey keys ∉ processedPaths st)
       ∧ findSetIterFunc pathOpt v st
         = (mkNodeInfo (Parent (vNodeInfo v)) (Some [A_pathSpec (Some vp)])
              (FieldValue (vNodeInfo v)),
            mkWalkState ({[processedKey keys]} ∪ processedPaths st)
              (if isSetLeaf v then outLeaves st ++ [(vp, vInterface v)]
               else outLeaves st),
            Ok tt)).
Proof.
  unfold ygot.findSetIterFunc, isSetLeaf.
  destruct (vStructField v) as [sf |]; [| left; split; [done | by left]].
  destruct (vIsYgotAnnotation v) eqn:Hann;
    [left; split; [done | right; by left] |].
  destruct (valuePath pathOpt (vNodeInfo v) sf) as [vp | e |] eqn:Hvp.
  2: { right. left. by exists (Err e). }
  2: { right. left. by exists Panic. }
  destruct (mapR PathToString (elems (gNMIPaths vp))) as [keys | e |] eqn:Hkeys.
  2: { right. left. by exists (Err e). }
  2: { right. left. by exists Panic. }
  destruct (decide (processedKey keys ∈ processedPaths st)) as [Hin | Hnin].
  { left. split; [done |]. right. right. by exists sf, vp, keys. }
  right. right. exists sf, vp, keys. repeat split; try done.
  destruct (orb (orb (orb _ _) _) _); [done |]. cbn [negb andb].
  by destruct (vEnumInt v) as [[| |] |].
Qed.

(** A node whose addresses and their strings are computed without error is
    passed over when its key was processed before, and processed otherwise. *)
Lemma findSetIterFunc_addressed (pathOpt : option DiffPathOpt)
    (v : visit Val KeyVal) (st : walkState Val)
    (sf : StructField) (vp : pathSpec) (keys : list string) :
  vStructField v = Some sf →
  vIsYgotAnnotation v = false →
  valuePath pathOpt (vNodeInfo v) sf = Ok vp →
  mapR PathToString (elems (gNMIPaths vp)) = Ok keys →
  findSetIterFunc pathOpt v st
  = if decide (processedKey keys ∈ processedPaths st)
    then (vNodeInfo v, st, Ok tt)
    else (mkNodeInfo (Parent (vNodeInfo v)) (Some [A_pathSpec (Some vp)])
            (FieldValue (vNodeInfo v)),
          mkWalkState ({[processedKey keys]} ∪ processedPaths st)
            (if isSetLeaf v then outLeaves st ++ [(vp, vInterface v)]
             else outLeaves st),
          Ok tt).
Proof.
  intros Hsf Hann Hvp Hk.
  destruct (findSetIterFunc_cases pathOpt v st)
    as [[Heq [Hz | [Ha | (sf1 & vp1 & keys1 & Hsf1 & Hvp1 & Hk1 & Hin1)]]]
       | [(r0 & Hr0 & Heq)
         | (sf1 & vp1 & keys1 & Hsf1 & Hann1 & Hvp1 & Hk1 & Hnin1 & Heq)]];
    try congruence.
  - assert (sf1 = sf) as -> by congruence.
    assert (vp1 = vp) as -> by congruence.
    assert (keys1 = keys) as -> by congruence.
    by rewrite decide_True.
  - exfalso. revert Heq. unfold ygot.findSetIterFunc.
    rewrite Hsf, Hann, Hvp, Hk.
    destruct (decide (processedKey keys ∈ processedPaths st));
      [intros Heq; apply Hr0; congruence |].
    destruct (orb (orb (orb _ _) _) _); [intros Heq; apply Hr0; congruence |].
    destruct (vEnumInt v) as [[| |] |]; intros Heq; apply Hr0; congruence.
  - assert (sf1 = sf) as -> by congruence.
    assert (vp1 = vp) as -> by congruence.
    assert (keys1 = keys) as -> by congruence.
    by rewrite decide_False.
Qed.

(** X15. A call of the iteration function never forgets a processed key,
    leaves the state and the node as they were when it returns an error, and
    changes the recorded leaves in one way only: by appending the value of
    the node under the pathSpec computed for it, which it does only for a
    struct field that is no annotation field and whose value is a set leaf
    (not nil, invalid or default, no struct pointer, no map, no enumerated
    value of integer 0); the node is then annotated with that pathSpec. *)
Theorem findSetIterFunc_records_set_leaves_only (pathOpt : option DiffPathOpt)
    (v : visit Val KeyVal) (st st' : walkState Val) (ni' : NodeInfo KeyVal)
    (r : result unit) :
  findSetIterFunc pathOpt v st = (ni', st', r) →
  processedPaths st ⊆ processedPaths st'
  ∧ (r ≠ Ok tt → st' = st ∧ ni' = vNodeInfo v)
  ∧ (outLeaves st' = outLeaves st
     ∨ ∃ sf vp,
         vStructField v = Some sf ∧ vIsYgotAnnotation v = false
         ∧ valuePath pathOpt (vNodeInfo v) sf = Ok vp
         ∧ isSetLeaf v = true
         ∧ outLeaves st' = outLeaves st ++ [(vp, vInterface v)]
         ∧ Annotation ni' = Some [A_pathSpec (Some vp)]).
Proof.
  intros Hrun.
  destruct (findSetIterFunc_cases pathOpt v st)
    as [[Heq _] | [(r0 & Hr0 & Heq) | (sf & vp & keys & Hsf & Hann & Hvp & Hk & Hnin & Heq)]];
    rewrite Heq in Hrun; injection Hrun as <- <- <-.
  - repeat split; [done | by left].
  - repeat split; [done | by left].
  - split; [cbn; set_solver |]. split; [done |].
    cbn [outLeaves]. destruct (isSetLeaf v) eqn:Hleaf; [| by left].
    right. by exists sf, vp.
Qed.

(** X16. Once a node has been visited, visiting it again in the state that
    the first visit left, or in any later state of the walk, changes neither
    the state nor the node: a field is processed at most once. *)
Theorem findSetIterFunc_second_visit_changes_nothing
    (pathOpt : option DiffPathOpt) (v : visit Val KeyVal)
    (st st2 : walkState Val) :
  processedPaths (findSetIterFunc pathOpt v st).1.2 ⊆ processedPaths st2 →
  (findSetIterFunc pathOpt v st2).1.2 = st2
  ∧ (findSetIterFunc pathOpt v st2).1.1 = vNodeInfo v.
Proof.
  intros Hlater.
  destruct (findSetIterFunc_cases pathOpt v st2)
    as [[Heq _] | [(r0 & Hr0 & Heq) | (sf & vp & keys & Hsf & Hann & Hvp & Hk & Hnin & _)]];
    [by rewrite Heq | by rewrite Heq |].
  exfalso. apply Hnin. apply Hlater.
  rewrite (findSetIterFunc_addressed pathOpt v st sf vp keys) by done.
  destruct (decide (processedKey keys ∈ processedPaths st)); [done |].
  cbn. set_solver.
Qed.

(** X17. A node that is processed (not passed over) is annotated with its
    pathSpec whatever its value, a container as well as a leaf, so that a
    child that is no list entry and has the returned node as its parent gets,
    without error, every address of the node followed by every schema path
    of its own. *)
Theorem child_of_processed_node_extends_its_addresses
    (pathOpt : option DiffPathOpt) (v : visit Val KeyVal) (st : walkState Val)
    (sf : StructField) (vp : pathSpec) (keys : list string)
    (child : NodeInfo KeyVal) (schemaPaths : list (slice string)) :
  vStructField v = Some sf →
  vIsYgotAnnotation v = false →
  valuePath pathOpt (vNodeInfo v) sf = Ok vp →
  mapR PathToString (elems (gNMIPaths vp)) = Ok keys →
  processedKey keys ∉ processedPaths st →
  Parent child = Some (findSetIterFunc pathOpt v st).1.1 →
  FieldValue child = None →
  nodeValuePath keyMapAsStrings child schemaPaths
  = Ok (mkPathSpec (Some
          (p ← elems (gNMIPaths vp); s ← schemaPaths;
           [joingNMIPaths p (schemaPathTogNMIPath s)]))).
Proof.
  intros Hsf Hann Hvp Hk Hnin Hpar Hfv.
  rewrite (findSetIterFunc_addressed pathOpt v st sf vp keys) in Hpar by done.
  rewrite decide_False in Hpar by exact Hnin. cbn [fst] in Hpar.
  assert (Hsome : ∃ paths, gNMIPaths vp = Some paths).
  { revert Hvp. unfold ygot.findSetLeaves_valuePath.
    destruct (findSetLeaves_schemaPaths pathOpt sf) as [sp | |]; [| done | done].
    cbn [mbind result_bind bindR]. intros Hnv.
    by apply (nodeValuePath_returns_paths KeyVal keyMapAsStrings
                (vNodeInfo v) sp vp). }
  destruct Hsome as (paths & Hp).
  unfold nodeValuePath, nodeChildPath. rewrite Hpar, Hfv. cbn. by rewrite Hp.
Qed.

(** X18. A node that is passed over because its key was already processed is
    not annotated: it keeps the annotations it came with. When it came with
    none, a child that has the returned node as its parent is addressed as a
    node of the root, by its own schema paths alone. *)
Theorem child_of_passed_over_node_is_addressed_from_root
    (pathOpt : option DiffPathOpt) (v : visit Val KeyVal) (st : walkState Val)
    (sf : StructField) (vp : pathSpec) (keys : list string)
    (child : NodeInfo KeyVal) (schemaPaths : list (slice string)) :
  vStructField v = Some sf →
  vIsYgotAnnotation v = false →
  valuePath pathOpt (vNodeInfo v) sf = Ok vp →
  mapR PathToString (elems (gNMIPaths vp)) = Ok keys →
  processedKey keys ∈ processedPaths st →
  Annotation (vNodeInfo v) = None →
  Parent child = Some (findSetIterFunc pathOpt v st).1.1 →
  findSetIterFunc pathOpt v st = (vNodeInfo v, st, Ok tt)
  ∧ nodeValuePath keyMapAsStrings child schemaPaths
    = Ok (nodeRootPath schemaPaths).
Proof.
  intros Hsf Hann Hvp Hk Hin Hnone Hpar.
  assert (Heq : findSetIterFunc pathOpt v st = (vNodeInfo v, st, Ok tt)).
  { unfold ygot.findSetIterFunc. rewrite Hsf, Hann, Hvp, Hk.
    by rewrite decide_True by exact Hin. }
  split; [exact Heq |].
  rewrite Heq in Hpar. cbn [fst] in Hpar.
  unfold nodeValuePath. by rewrite Hpar, Hnone.
Qed.

End IterMore.

Lemma findSetIterFunc_records_set_leaves_only_witness :
  ygot.processedPaths (ygot.mkWalkState (Val := string) ∅ [])
  ⊆ ygot.processedPaths
      (ygot.findSetIterFunc leaves.PathToString
         (fun m : gmap string string => Ok m) None leaves.nameVisit
         (ygot.mkWalkState ∅ [])).1.2.
Proof.
  exact (proj1 (findSetIterFunc_records_set_leaves_only string string
                  leaves.PathToString (fun m => Ok m) None leaves.nameVisit
                  (ygot.mkWalkState ∅ []) _ _ _ eq_refl)).
Defined.

Lemma findSetIterFunc_second_visit_changes_nothing_witness :
  (ygot.findSetIterFunc leaves.PathToString
     (fun m : gmap string string => Ok m) None leaves.nameVisit
     (ygot.findSetIterFunc leaves.PathToString
        (fun m : gmap string string => Ok m) None leaves.nameVisit
        (ygot.mkWalkState ∅ [])).1.2).1.2
  = (ygot.findSetIterFunc leaves.PathToString
       (fun m : gmap string string => Ok m) None leaves.nameVisit
       (ygot.mkWalkState ∅ [])).1.2.
Proof.
  refine (proj1 (findSetIterFunc_second_visit_changes_nothing string string
                   leaves.PathToString (fun m => Ok m) None leaves.nameVisit
                   (ygot.mkWalkState ∅ []) _ _)).
  reflexivity.
Defined.

Lemma child_of_processed_node_extends_its_addresses_witness :
  ygot.nodeValuePath (fun m : gmap string string => Ok m)
    (ygot.mkNodeInfo
       (Some (ygot.findSetIterFunc leaves.PathToString
                (fun m : gmap string string => Ok m) None leaves.nameVisit
                (ygot.mkWalkState ∅ [])).1.1) None None)
    [Some ["mtu"]]
  = Ok (ygot.mkPathSpec
          (Some [leaves.leaf ["config"; "name"; "mtu"];
                 leaves.leaf ["name"; "mtu"]; leaves.leaf ["id"; "mtu"]])).
Proof.
  refine (child_of_processed_node_extends_its_addresses string string
            leaves.PathToString (fun m => Ok m) None leaves.nameVisit
            (ygot.mkWalkState ∅ [])
            (ygot.mkStructField "Name" []
               (Ok [Some ["config"; "name"]; Some ["name"]; Some ["id"]]))
            (ygot.mkPathSpec
               (Some [leaves.leaf ["config"; "name"]; leaves.leaf ["name"];
                      leaves.leaf ["id"]]))
            ["/config/name"; "/name"; "/id"]
            (ygot.mkNodeInfo
               (Some (ygot.findSetIterFunc leaves.PathToString
                        (fun m : gmap string string => Ok m) None
                        leaves.nameVisit (ygot.mkWalkState ∅ [])).1.1)
               None None)
            [Some ["mtu"]] eq_refl eq_refl eq_refl eq_refl _ eq_refl eq_refl).
  cbn. set_solver.
Defined.

Lemma child_of_passed_over_node_is_addressed_from_root_witness :
  ygot.nodeValuePath (fun m : gmap string string => Ok m)
    (ygot.mkNodeInfo
       (Some (ygot.findSetIterFunc (Val := string) leaves.PathToString
                (fun m : gmap string string => Ok m) None leaves.nameVisit
                (ygot.mkWalkState {["/config/name//id//name"]} [])).1.1)
       None None)
    [Some ["mtu"]]
  = Ok (ygot.nodeRootPath [Some ["mtu"]]).
Proof.
  refine (proj2 (child_of_passed_over_node_is_addressed_from_root string string
            leaves.PathToString (fun m => Ok m) None leaves.nameVisit
            (ygot.mkWalkState {["/config/name//id//name"]} [])
            (ygot.mkStructField "Name" []
               (Ok [Some ["config"; "name"]; Some ["name"]; Some ["id"]]))
            (ygot.mkPathSpec
               (Some [leaves.leaf ["config"; "name"]; leaves.leaf ["name"];
                      leaves.leaf ["id"]]))
            ["/config/name"; "/name"; "/id"]
            (ygot.mkNodeInfo
               (Some (ygot.findSetIterFunc leaves.PathToString
                        (fun m : gmap string string => Ok m) None
                        leaves.nameVisit
                        (ygot.mkWalkState {["/config/name//id//name"]} [])).1.1)
               None None)
            [Some ["mtu"]] eq_refl eq_refl eq_refl eq_refl _ eq_refl eq_refl)).
  cbn. set_solver.
Defined.

(** ** The mutation engine: sequences, the prefix *)

Section MutationMore.
Import gnmi ytypes.

Variable Tree : Type.
Variable Node : Type.
Variable yangEntry : Type.
Variable TypedValue : Type.
Variable typeName : Node → string.
Variable UnmarshalOpt : Type.
Variable hasPreferShadowPath : list UnmarshalOpt → bool.
Variable hasIgnoreExtraFields : list UnmarshalOpt → bool.
Variable GetOrCreateNode :
  yangEntry → Node → option Path → list NodeOpt → Tree → Tree * result (nodeI Node).
Variable DeleteNode :
  option yangEntry → Node → Path → list NodeOpt → Tree → Tree * result unit.
Variable SetNode :
  option yangEntry → Node → Path → TypedValue → list NodeOpt → Tree
  → Tree * result unit.

Local Abbreviation deletePaths := (deletePaths Tree Node yangEntry DeleteNode).
Local Abbreviation replacePaths :=
  (replacePaths Tree Node yangEntry TypedValue DeleteNode SetNode).
Local Abbreviation updatePaths :=
  (updatePaths Tree Node yangEntry TypedValue SetNode).
Local Abbreviation UnmarshalSetRequest :=
  (UnmarshalSetRequest Tree Node yangEntry TypedValue typeName UnmarshalOpt
     hasPreferShadowPath hasIgnoreExtraFields GetOrCreateNode DeleteNode SetNode).
Local Abbreviation UnmarshalNotifications :=
  (UnmarshalNotifications Tree Node yangEntry TypedValue typeName UnmarshalOpt
     hasPreferShadowPath hasIgnoreExtraFields GetOrCreateNode DeleteNode SetNode).

(** Without a prefix no loop joins paths. *)
Lemma deletePaths_no_prefix (J1 J2 : Path → Path → result Path) s n sh ps : ∀ t,
  deletePaths J1 s n None ps sh t = deletePaths J2 s n None ps sh t.
Proof.
  induction ps as [| p ps IH]; intros t; cbn; [done |].
  destruct (DeleteNode s n p _ t) as [t' [[] | e |]]; [apply IH | done | done].
Qed.

Lemma replacePaths_no_prefix (J1 J2 : Path → Path → result Path) s n sh ig us :
  ∀ t,
  replacePaths J1 s n None us sh ig t = replacePaths J2 s n None us sh ig t.
Proof.
  induction us as [| u us IH]; intros t; cbn; [done |].
  destruct (DeleteNode s n (uPath u) _ t) as [t1 [[] | e |]]; [| done | done].
  destruct (setNode _ _ _ _ _ _ _ _ _ _ t1) as [t2 [[] | e |]];
    [apply IH | done | done].
Qed.

Lemma updatePaths_no_prefix (J1 J2 : Path → Path → result Path) s n sh ig us :
  ∀ t,
  updatePaths J1 s n None us sh ig t = updatePaths J2 s n None us sh ig t.
Proof.
  induction us as [| u us IH]; intros t; cbn; [done |].
  destruct (setNode _ _ _ _ _ _ _ _ _ _ t) as [t2 [[] | e |]];
    [apply IH | done | done].
Qed.

(** X19. Each loop of the mutation engine over two slices in a row is the
    loop over the first slice followed, when that one returned no error, by
    the loop over the second on the tree that the first left; when the first
    fails, its error and the tree it left are the result. This holds for the
    paths to delete, the updates to replace, the updates to set, and the
    notifications. *)
Theorem loops_over_concatenated_slices
    (JoinPaths : Path → Path → result Path) (schema : Schema Node yangEntry)
    (opts : list UnmarshalOpt) (s : option yangEntry) (n : Node)
    (pfx : option Path) (sh ig : bool) (ps1 ps2 : list Path)
    (us1 us2 : list (Update TypedValue))
    (ns1 ns2 : list (Notification TypedValue)) (t : Tree) :
  deletePaths JoinPaths s n pfx (ps1 ++ ps2) sh t
  = match deletePaths JoinPaths s n pfx ps1 sh t with
    | (t1, Ok _) => deletePaths JoinPaths s n pfx ps2 sh t1
    | failed => failed
    end
  ∧ replacePaths JoinPaths s n pfx (us1 ++ us2) sh ig t
    = match replacePaths JoinPaths s n pfx us1 sh ig t with
      | (t1, Ok _) => replacePaths JoinPaths s n pfx us2 sh ig t1
      | failed => failed
      end
  ∧ updatePaths JoinPaths s n pfx (us1 ++ us2) sh ig t
    = match updatePaths JoinPaths s n pfx us1 sh ig t with
      | (t1, Ok _) => updatePaths JoinPaths s n pfx us2 sh ig t1
      | failed => failed
      end
  ∧ UnmarshalNotifications JoinPaths schema (ns1 ++ ns2) opts t
    = match UnmarshalNotifications JoinPaths schema ns1 opts t with
      | (t1, Ok _) => UnmarshalNotifications JoinPaths schema ns2 opts t1
      | failed => failed
      end.
Proof.
  split; [apply deletePaths_app |].
  split; [apply replacePaths_app |].
  split; [apply updatePaths_app | apply UnmarshalNotifications_app].
Qed.

(** X20. util.JoinPaths is called only after a prefix that is not nil could
    not be resolved: for a request without prefix, and for one whose prefix
    GetOrCreateNode resolves to a GoStruct, UnmarshalSetRequest returns the
    same, and leaves the same tree, whatever JoinPaths does. *)
Theorem UnmarshalSetRequest_joins_only_unresolved_prefix
    (J1 J2 : Path → Path → result Path) (schema : Schema Node yangEntry)
    (req : SetRequest TypedValue) (opts : list UnmarshalOpt) (t : Tree) :
  sPrefix req = None
  ∨ (∃ t0 node,
       GetOrCreateNode (RootSchema schema) (Root schema) (sPrefix req)
         (if hasPreferShadowPath opts then [PreferShadowPath] else []) t
       = (t0, Ok (I_GoStruct node))) →
  UnmarshalSetRequest J1 schema (Some req) opts t
  = UnmarshalSetRequest J2 schema (Some req) opts t.
Proof.
  intros Hpre. unfold ytypes.UnmarshalSetRequest.
  assert (Hsub : ∃ t0 r,
    subjectOf Tree Node yangEntry typeName GetOrCreateNode schema (sPrefix req)
      (hasPreferShadowPath opts) t = (t0, r)
    ∧ (r = Panic ∨ (∃ e, r = Err e) ∨ ∃ node nodeName, r = Ok (node, nodeName, None))).
  { unfold subjectOf, getOrCreateNode.
    destruct Hpre as [Hnil | (t0 & node & Hgc)].
    - rewrite Hnil.
      destruct (GetOrCreateNode _ _ None _ t) as [t0 [[node |] | e |]];
        eexists _, _; (split; [reflexivity |]); eauto.
    - rewrite Hgc. eexists _, _. split; [reflexivity |]. eauto. }
  destruct Hsub as (t0 & r & -> & [-> | [[e ->] | (node & nodeName & ->)]]);
    [done | done |].
  rewrite (deletePaths_no_prefix J1 J2).
  destruct (deletePaths J2 _ node None (sDelete req) _ t0) as [t1 [[] | e |]];
    [| done | done].
  rewrite (replacePaths_no_prefix J1 J2).
  destruct (replacePaths J2 _ node None (sReplace req) _ _ t1)
    as [t2 [[] | e |]]; [| done | done].
  apply updatePaths_no_prefix.
Qed.

(** X21. An error of GetOrCreateNode on the prefix, and a prefix that does
    not lead to a GoStruct, are not reported: the request is then applied to
    the root, under the schema found for the type of the root, with the
    prefix joined in front of every path, and to the tree as GetOrCreateNode
    left it. So a request that only has a prefix returns the nil error and
    that tree. *)
Theorem UnmarshalSetRequest_falls_back_to_root
    (JoinPaths : Path → Path → result Path) (schema : Schema Node yangEntry)
    (req : SetRequest TypedValue) (opts : list UnmarshalOpt) (t t0 : Tree)
    (r : result (nodeI Node)) :
  GetOrCreateNode (RootSchema schema) (Root schema) (sPrefix req)
    (if hasPreferShadowPath opts then [PreferShadowPath] else []) t = (t0, r) →
  (∃ e, r = Err e) ∨ r = Ok I_other →
  UnmarshalSetRequest JoinPaths schema (Some req) opts t
  = match deletePaths JoinPaths (SchemaTree schema !! typeName (Root schema))
            (Root schema) (sPrefix req) (sDelete req)
            (hasPreferShadowPath opts) t0 with
    | (t1, Ok _) =>
        match replacePaths JoinPaths
                (SchemaTree schema !! typeName (Root schema)) (Root schema)
                (sPrefix req) (sReplace req) (hasPreferShadowPath opts)
                (hasIgnoreExtraFields opts) t1 with
        | (t2, Ok _) =>
            updatePaths JoinPaths (SchemaTree schema !! typeName (Root schema))
              (Root schema) (sPrefix req) (sUpdate req)
              (hasPreferShadowPath opts) (hasIgnoreExtraFields opts) t2
        | failed => failed
        end
    | failed => failed
    end
  ∧ (sDelete req = [] → sReplace req = [] → sUpdate req = [] →
     UnmarshalSetRequest JoinPaths schema (Some req) opts t = (t0, Ok tt)).
Proof.
  intros Hgc Hr.
  assert (Hsub :
    subjectOf Tree Node yangEntry typeName GetOrCreateNode schema (sPrefix req)
      (hasPreferShadowPath opts) t
    = (t0, Ok (Root schema, typeName (Root schema), sPrefix req))).
  { unfold subjectOf, getOrCreateNode. rewrite Hgc.
    by destruct Hr as [[e ->] | ->]. }
  unfold ytypes.UnmarshalSetRequest. rewrite Hsub.
  split; [done |]. by intros -> -> ->.
Qed.

End MutationMore.

Lemma UnmarshalSetRequest_joins_only_unresolved_prefix_witness :
  flat.UnmarshalSetRequest flat.schema
    (Some (gnmi.mkSetRequest None [flat.at_ ["a"]] []
             [gnmi.mkUpdate (flat.at_ ["b"]) "1"])) [] [(["a"], "0")]
  = ytypes.UnmarshalSetRequest flat.Tree flat.Node unit string flat.typeName
      unit (fun _ => false) (fun _ => false) flat.GetOrCreateNode
      flat.DeleteNode flat.SetNode (fun _ _ => Err "no join") flat.schema
      (Some (gnmi.mkSetRequest None [flat.at_ ["a"]] []
               [gnmi.mkUpdate (flat.at_ ["b"]) "1"])) [] [(["a"], "0")].
Proof.
  apply (UnmarshalSetRequest_joins_only_unresolved_prefix flat.Tree flat.Node
           unit string flat.typeName unit (fun _ => false) (fun _ => false)
           flat.GetOrCreateNode flat.DeleteNode flat.SetNode flat.JoinPaths
           (fun _ _ => Err "no join")).
  left. reflexivity.
Defined.

Lemma UnmarshalSetRequest_falls_back_to_root_witness :
  flat.UnmarshalSetRequest flat.schema
    (Some (gnmi.mkSetRequest (Some (gnmi.mkPath [gnmi.mkPathElem "" ∅]))
             [] [] [])) [] [(["a"], "0")]
  = ([(["a"], "0")], Ok tt).
Proof.
  refine (proj2 (UnmarshalSetRequest_falls_back_to_root flat.Tree flat.Node
           unit string flat.typeName unit (fun _ => false) (fun _ => false)
           flat.GetOrCreateNode flat.DeleteNode flat.SetNode flat.JoinPaths
           flat.schema
           (gnmi.mkSetRequest (Some (gnmi.mkPath [gnmi.mkPathElem "" ∅]))
              [] [] []) [] [(["a"], "0")] [(["a"], "0")]
           (Err "malformed path") eq_refl _) eq_refl eq_refl eq_refl).
  left. by eexists.
Defined.

(** ** XPATH tokens and namespaces *)

Section XPathMore.
Import ygen.

Lemma string_app_cons (x : ascii) (a b : string) :
  String x a +:+ b = String x (a +:+ b).
Proof. reflexivity. Qed.

Lemma string_app_assoc (a b c : string) : (a +:+ b) +:+ c = a +:+ (b +:+ c).
Proof.
  induction a as [| x a IH]; [done |]. rewrite !string_app_cons. by f_equal.
Qed.

Lemma string_app_nil_r (a : string) : a +:+ "" = a.
Proof.
  induction a as [| x a IH]; [done |]. rewrite string_app_cons. by f_equal.
Qed.

Lemma string_app_snoc (a : string) (c : ascii) (s : string) :
  (a +:+ String c "") +:+ s = a +:+ String c s.
Proof. by rewrite string_app_assoc. Qed.

Lemma string_app_length (a b : string) :
  String.length (a +:+ b) = String.length a + String.length b.
Proof.
  induction a as [| x a IH]; [done |]. rewrite string_app_cons. cbn. by rewrite IH.
Qed.

Lemma string_length_zero (s : string) : (String.length s =? 0)%nat = true ↔ s = "".
Proof. destruct s; cbn; split; intros H; done. Qed.

Lemma ContainsRune_app (a b : string) (r : ascii) :
  ContainsRune (a +:+ b) r = ContainsRune a r || ContainsRune b r.
Proof.
  induction a as [| x a IH]; [done |].
  rewrite string_app_cons. cbn. rewrite IH. by rewrite orb_assoc.
Qed.

(** A byte from 0x80 on is no character of ASCII. *)
Lemma high_not_ascii (c x : ascii) :
  (N_of_ascii c <? 128)%N = false → (N_of_ascii x <? 128)%N = true →
  Ascii.eqb c x = false.
Proof.
  intros Hc Hx. apply Ascii.eqb_neq. intros ->. congruence.
Qed.

Lemma inRange_high (lo hi : N) (c : ascii) :
  (128 ≤ lo)%N → inRange lo hi c = true → (N_of_ascii c <? 128)%N = false.
Proof.
  unfold inRange. intros Hlo [H1 _]%andb_true_iff.
  apply N.leb_le in H1. apply N.ltb_ge. lia.
Qed.

Lemma firstByte_facts (c : ascii) (sz : nat) (lo hi : N) :
  firstByte c = Some (sz, lo, hi) →
  (128 ≤ lo)%N ∧ (sz = 2 ∨ sz = 3 ∨ sz = 4).
Proof.
  unfold firstByte. cbv zeta.
  repeat case_match; intros [= <- <- <-]; split; try lia; auto.
Qed.

(** What DecodeRuneInString returns on a string that is not empty: a
    character of ASCII, of size 1; the replacement rune, of size 1, for a
    byte from 0x80 on that starts no valid encoding; or the bytes of a valid
    encoding of two to four bytes, all from 0x80 on, which are read the same
    whatever follows them. *)
Lemma DecodeRuneInString_cases (c : ascii) (rest : string) :
  ((N_of_ascii c <? 128)%N = true
   ∧ DecodeRuneInString (String c rest) = (String c "", 1))
  ∨ ((N_of_ascii c <? 128)%N = false
     ∧ DecodeRuneInString (String c rest) = (RuneError, 1))
  ∨ ((N_of_ascii c <? 128)%N = false
     ∧ ∃ tail rest',
         rest = tail +:+ rest'
         ∧ 1 ≤ String.length tail
         ∧ Forall (fun b => (N_of_ascii b <? 128)%N = false)
             (list_ascii_of_string tail)
         ∧ ∀ y, DecodeRuneInString (String c (tail +:+ y))
                = (String c tail, S (String.length tail))).
Proof.
  destruct (N_of_ascii c <? 128)%N eqn:Hc.
  { left. split; [done |]. unfold DecodeRuneInString. by rewrite Hc. }
  right.
  destruct (firstByte c) as [[[sz lo] hi] |] eqn:Hf.
  2: { left. split; [done |]. unfold DecodeRuneInString. by rewrite Hc, Hf. }
  destruct (firstByte_facts c sz lo hi Hf) as [Hlo Hsz].
  destruct rest as [| s1 rest1].
  { left. split; [done |]. unfold DecodeRuneInString. by rewrite Hc, Hf. }
  destruct (inRange lo hi s1) eqn:H1.
  2: { left. split; [done |]. unfold DecodeRuneInString. by rewrite Hc, Hf, H1. }
  pose proof (inRange_high lo hi s1 Hlo H1) as Hh1.
  destruct (sz =? 2)%nat eqn:Hsz2.
  { right. split; [done |]. exists (String s1 ""), rest1.
    split; [done |]. split; [cbn; lia |]. split; [by repeat constructor |].
    intros y. unfold DecodeRuneInString. rewrite Hc, Hf.
    rewrite string_app_cons. by rewrite H1, Hsz2. }
  destruct rest1 as [| s2 rest2].
  { left. split; [done |]. unfold DecodeRuneInString.
    by rewrite Hc, Hf, H1, Hsz2. }
  destruct (continuation s2) eqn:H2.
  2: { left. split; [done |]. unfold DecodeRuneInString.
       by rewrite Hc, Hf, H1, Hsz2, H2. }
  pose proof (inRange_high 128 191 s2 ltac:(lia) H2) as Hh2.
  destruct (sz =? 3)%nat eqn:Hsz3.
  { right. split; [done |]. exists (String s1 (String s2 "")), rest2.
    split; [done |]. split; [cbn; lia |]. split; [by repeat constructor |].
    intros y. unfold DecodeRuneInString. rewrite Hc, Hf.
    rewrite !string_app_cons. by rewrite H1, Hsz2, H2, Hsz3. }
  destruct rest2 as [| s3 rest3].
  { left. split; [done |]. unfold DecodeRuneInString.
    by rewrite Hc, Hf, H1, Hsz2, H2, Hsz3. }
  destruct (continuation s3) eqn:H3.
  2: { left. split; [done |]. unfold DecodeRuneInString.
       by rewrite Hc, Hf, H1, Hsz2, H2, Hsz3, H3. }
  pose proof (inRange_high 128 191 s3 ltac:(lia) H3) as Hh3.
  right. split; [done |]. exists (String s1 (String s2 (String s3 ""))), rest3.
  split; [done |]. split; [cbn; lia |]. split; [by repeat constructor |].
  intros y. unfold DecodeRuneInString. rewrite Hc, Hf.
  rewrite !string_app_cons. by rewrite H1, Hsz2, H2, Hsz3, H3.
Qed.


(** Bytes that are skipped are not read. *)
Lemma rangeRunes_from_skip (x s : string) :
  rangeRunes_from (x +:+ s) (String.length x) = rangeRunes s.
Proof. induction x as [| c x IH]; [done |]. rewrite string_app_cons. exact IH. Qed.

(** The first rune that a [range] loop reads, and where it goes on. *)
Lemma rangeRunes_cases (c : ascii) (rest : string) :
  ((N_of_ascii c <? 128)%N = true
   ∧ ∀ y, rangeRunes (String c y) = String c "" :: rangeRunes y)
  ∨ ((N_of_ascii c <? 128)%N = false
     ∧ rangeRunes (String c rest) = RuneError :: rangeRunes rest)
  ∨ ((N_of_ascii c <? 128)%N = false
     ∧ ∃ tail rest',
         rest = tail +:+ rest'
         ∧ 1 ≤ String.length tail
         ∧ Forall (fun b => (N_of_ascii b <? 128)%N = false)
             (list_ascii_of_string tail)
         ∧ ∀ y, rangeRunes (String c (tail +:+ y))
                = String c tail :: rangeRunes y).
Proof.
  destruct (DecodeRuneInString_cases c rest)
    as [[Hc Hd] | [[Hc Hd] | [Hc (tail & rest' & -> & Hlen & Hhigh & Hd)]]].
  - left. split; [done |]. intros y. unfold rangeRunes.
    cbn [rangeRunes_from].
    assert (DecodeRuneInString (String c y) = (String c "", 1)) as ->; [| done].
    unfold DecodeRuneInString. by rewrite Hc.
  - right. left. split; [done |]. unfold rangeRunes. cbn [rangeRunes_from].
    by rewrite Hd.
  - right. right. split; [done |]. exists tail, rest'.
    split; [done |]. split; [done |]. split; [done |].
    intros y. unfold rangeRunes at 1. cbn [rangeRunes_from]. rewrite Hd.
    f_equal. replace (S (String.length tail) - 1) with (String.length tail) by lia.
    apply rangeRunes_from_skip.
Qed.

(** Induction on a string along its suffixes. *)
Lemma string_suffix_ind (P : string → Prop) :
  P "" →
  (∀ c rest,
     (∀ s', String.length s' ≤ String.length rest → P s') → P (String c rest)) →
  ∀ s, P s.
Proof.
  intros Hnil Hcons s.
  assert (H : ∀ n s, String.length s ≤ n → P s).
  { clear s. induction n as [| n IH]; intros s Hlen.
    - destruct s; [done | cbn in Hlen; lia].
    - destruct s as [| c rest]; [done |]. apply Hcons. intros s' Hs'.
      apply IH. cbn in Hlen. lia. }
  by apply (H (String.length s)).
Qed.

Lemma ContainsRune_high (s : string) (x : ascii) :
  Forall (fun b => (N_of_ascii b <? 128)%N = false) (list_ascii_of_string s) →
  (N_of_ascii x <? 128)%N = true →
  ContainsRune s x = false.
Proof.
  intros Hs Hx. induction s as [| c s IH]; [done |].
  cbn in Hs. apply Forall_cons in Hs as [Hc Hs]. cbn.
  by rewrite (high_not_ascii c x Hc Hx), IH.
Qed.

Lemma RuneError_high :
  Forall (fun b => (N_of_ascii b <? 128)%N = false)
    (list_ascii_of_string RuneError).
Proof. by repeat constructor. Qed.

(** Every rune that a [range] loop reads is written as at least one byte,
    and a character of ASCII occurs in what is written only when the rune is
    that character. *)
Lemma rangeRunes_clean (s : string) :
  Forall (fun r => r ≠ ""
                   ∧ ∀ x, (N_of_ascii x <? 128)%N = true →
                          r = String x "" ∨ ContainsRune r x = false)
    (rangeRunes s).
Proof.
  induction s as [| c rest IH] using string_suffix_ind; [constructor |].
  destruct (rangeRunes_cases c rest)
    as [[Hc Hd] | [[Hc Hd] | [Hc (tail & rest' & -> & Hlen & Hhigh & Hd)]]].
  - rewrite Hd. constructor; [| by apply IH]. split; [done |].
    intros x Hx. destruct (Ascii.eqb_spec c x) as [-> | Hne]; [by left |].
    right. cbn. apply Ascii.eqb_neq in Hne. by rewrite Hne.
  - rewrite Hd. constructor; [| by apply IH]. split; [done |].
    intros x Hx. right. by apply ContainsRune_high; [apply RuneError_high |].
  - rewrite Hd. constructor.
    + split; [done |]. intros x Hx. right.
      apply ContainsRune_high; [| done]. cbn. by constructor.
    + apply IH. rewrite string_app_length. lia.
Qed.


Lemma rangeRunes_ascii (c : ascii) (y : string) :
  (N_of_ascii c <? 128)%N = true →
  rangeRunes (String c y) = String c "" :: rangeRunes y.
Proof.
  intros Hc. destruct (rangeRunes_cases c y) as [[_ Hd] | [[Hh _] | [Hh _]]];
    [apply Hd | congruence | congruence].
Qed.

(** A character of ASCII is read as a rune only where its byte stands. *)
Lemma rangeRunes_no_ascii (s : string) (x : ascii) :
  (N_of_ascii x <? 128)%N = true →
  ContainsRune s x = false →
  String x "" ∉ rangeRunes s.
Proof.
  intros Hx. induction s as [| c rest IH] using string_suffix_ind;
    [intros _ H; by apply elem_of_nil in H |].
  intros Hs. cbn in Hs. apply orb_false_iff in Hs as [Hcx Hrest].
  destruct (rangeRunes_cases c rest)
    as [[Hc Hd] | [[Hc Hd] | [Hc (tail & rest' & -> & Hlen & Hhigh & Hd)]]].
  - rewrite Hd. intros [H | H]%elem_of_cons.
    + injection H as ->. by rewrite Ascii.eqb_refl in Hcx.
    + by apply (IH rest).
  - rewrite Hd. intros [H | H]%elem_of_cons.
    + pose proof RuneError_high as Hr. rewrite <- H in Hr. cbn in Hr.
      apply Forall_cons in Hr as [Hr _]. congruence.
    + by apply (IH rest).
  - rewrite Hd. intros [H | H]%elem_of_cons.
    + injection H as -> <-. cbn in Hlen. lia.
    + rewrite ContainsRune_app in Hrest.
      apply orb_false_iff in Hrest as [_ Hrest].
      apply (IH rest'); [rewrite string_app_length; lia | done | done].
Qed.

Lemma concat_cons (r : string) (rs : list string) :
  String.concat "" (r :: rs) = r +:+ String.concat "" rs.
Proof. destruct rs; [by rewrite string_app_nil_r | done]. Qed.

(** Written back, the runes take at least the room of the string. *)
Lemma rangeRunes_concat_length (s : string) :
  String.length s ≤ String.length (String.concat "" (rangeRunes s)).
Proof.
  induction s as [| c rest IH] using string_suffix_ind; [done |].
  destruct (rangeRunes_cases c rest)
    as [[Hc Hd] | [[Hc Hd] | [Hc (tail & rest' & -> & Hlen & Hhigh & Hd)]]].
  - rewrite Hd, concat_cons, string_app_length. cbn.
    specialize (IH rest ltac:(lia)). lia.
  - rewrite Hd, concat_cons, string_app_length. cbn.
    specialize (IH rest ltac:(lia)). lia.
  - rewrite Hd, concat_cons, string_app_length. cbn.
    rewrite string_app_length.
    specialize (IH rest' ltac:(rewrite string_app_length; lia)). lia.
Qed.

(** After a stretch of valid UTF-8 the reading starts afresh. *)
Lemma rangeRunes_app_valid (a s : string) :
  validUTF8 a → rangeRunes (a +:+ s) = rangeRunes a ++ rangeRunes s.
Proof.
  unfold validUTF8.
  induction a as [| c rest IH] using string_suffix_ind; [done |].
  destruct (rangeRunes_cases c rest)
    as [[Hc Hd] | [[Hc Hd] | [Hc (tail & rest' & -> & Hlen & Hhigh & Hd)]]].
  - rewrite string_app_cons, !Hd, concat_cons. intros [= Hv].
    cbn [app]. f_equal. by apply IH.
  - rewrite Hd, concat_cons. intros Hv. exfalso.
    apply (f_equal String.length) in Hv. rewrite string_app_length in Hv.
    pose proof (rangeRunes_concat_length rest). cbn in Hv. lia.
  - rewrite Hd, concat_cons. rewrite string_app_cons. intros [= Hv].
    apply String.app_inj in Hv.
    rewrite string_app_cons, string_app_assoc, Hd. cbn [app]. f_equal.
    apply IH; [rewrite string_app_length; lia | done].
Qed.

(** Bytes from 0x80 on in front of a character of ASCII: the same bytes
    stand in front of it in any other reading of the string. *)
Lemma high_prefix_split (tail : string) : ∀ k rest' x s,
  Forall (fun b => (N_of_ascii b <? 128)%N = false) (list_ascii_of_string tail) →
  (N_of_ascii x <? 128)%N = true →
  k +:+ String x s = tail +:+ rest' →
  ∃ k', k = tail +:+ k' ∧ rest' = k' +:+ String x s.
Proof.
  induction tail as [| t tail IH]; intros k rest' x s Hhigh Hx Heq.
  - exists k. by split.
  - cbn in Hhigh. apply Forall_cons in Hhigh as [Ht Hhigh].
    destruct k as [| c k].
    + rewrite string_app_cons in Heq. injection Heq as -> _. congruence.
    + rewrite !string_app_cons in Heq. injection Heq as -> Heq.
      destruct (IH k rest' x s Hhigh Hx Heq) as (k' & -> & ->).
      by exists k'.
Qed.

(** The runes of a key up to the bracket that closes it. *)
Lemma rangeRunes_key (k : string) : ∀ s,
  ContainsRune k "]" = false →
  ∃ rk, rangeRunes (k +:+ String "]" s) = rk ++ "]" :: rangeRunes s
        ∧ "]" ∉ rk.
Proof.
  induction k as [| c k IH] using string_suffix_ind; intros s Hk.
  - exists []. split; [by apply rangeRunes_ascii | by intros H%elem_of_nil].
  - cbn in Hk. apply orb_false_iff in Hk as [Hc Hk].
    rewrite string_app_cons.
    destruct (rangeRunes_cases c (k +:+ String "]" s))
      as [[Ha Hd] | [[Ha Hd] | [Ha (tail & rest' & Heq & Hlen & Hhigh & Hd)]]].
    + destruct (IH k ltac:(lia) s Hk) as (rk & Hrk & Hnin).
      exists (String c "" :: rk). rewrite Hd, Hrk. split; [done |].
      intros [H | H]%elem_of_cons; [| done].
      injection H as <-. by rewrite Ascii.eqb_refl in Hc.
    + destruct (IH k ltac:(lia) s Hk) as (rk & Hrk & Hnin).
      exists (RuneError :: rk). rewrite Hd, Hrk. split; [done |].
      intros [H | H]%elem_of_cons; [| done]. discriminate H.
    + destruct (high_prefix_split tail k rest' "]" s Hhigh eq_refl Heq)
        as (k' & -> & ->).
      rewrite ContainsRune_app in Hk. apply orb_false_iff in Hk as [_ Hk'].
      destruct (IH k' ltac:(rewrite string_app_length; lia) s Hk')
        as (rk & Hrk & Hnin).
      exists (String c tail :: rk). rewrite string_app_assoc, Hd, Hrk.
      split; [done |].
      intros [H | H]%elem_of_cons; [| done].
      injection H as _ <-. cbn in Hlen. lia.
Qed.

(** Adding parts in front of the loop of splitXPATHParts adds them in front
    of its result. *)
Lemma splitXPATHParts_loop_parts (path : list string) : ∀ p0 parts buf inKey,
  splitXPATHParts_loop path (p0 ++ parts) buf inKey
  = p0 ++ splitXPATHParts_loop path parts buf inKey.
Proof.
  induction path as [| c rest IH]; intros p0 parts buf inKey; cbn.
  - destruct (String.length buf =? 0)%nat; [done | by rewrite app_assoc].
  - destruct (String.eqb c "/"); [destruct inKey; cbn; [apply IH |] |].
    { rewrite <- app_assoc. apply IH. }
    destruct (String.eqb c "["); [apply IH |].
    destruct (String.eqb c "]"); [apply IH |].
    destruct inKey; cbn; apply IH.
Qed.

(** The tokens that the loop of splitXPATHParts adds hold no [/], [[] or
    []]. *)
Lemma splitXPATHParts_loop_clean (path : list string) : ∀ parts buf inKey,
  Forall (fun r => r ≠ ""
                   ∧ ∀ x, (N_of_ascii x <? 128)%N = true →
                          r = String x "" ∨ ContainsRune r x = false) path →
  Forall (fun tok => ContainsRune tok "/" = false ∧ ContainsRune tok "[" = false
                     ∧ ContainsRune tok "]" = false) parts →
  ContainsRune buf "/" = false ∧ ContainsRune buf "[" = false
  ∧ ContainsRune buf "]" = false →
  Forall (fun tok => ContainsRune tok "/" = false ∧ ContainsRune tok "[" = false
                     ∧ ContainsRune tok "]" = false)
    (splitXPATHParts_loop path parts buf inKey).
Proof.
  induction path as [| c rest IH]; intros parts buf inKey Hpath Hparts Hbuf; cbn.
  - destruct (String.length buf =? 0)%nat; [done |].
    apply Forall_app. split; [done | by apply Forall_singleton].
  - apply Forall_cons in Hpath as [[_ Hc] Hpath].
    destruct (String.eqb_spec c "/") as [-> | Hs].
    { destruct inKey; cbn; apply IH; try done.
      apply Forall_app. split; [done | by apply Forall_singleton]. }
    destruct (String.eqb_spec c "[") as [-> | Ho]; [by apply IH |].
    destruct (String.eqb_spec c "]") as [-> | Hcl]; [by apply IH |].
    destruct inKey; cbn; apply IH; try done.
    rewrite !ContainsRune_app.
    destruct Hbuf as (-> & -> & ->).
    destruct (Hc "/"%char eq_refl) as [? | ->]; [done |].
    destruct (Hc "["%char eq_refl) as [? | ->]; [done |].
    destruct (Hc "]"%char eq_refl) as [? | ->]; [done |].
    done.
Qed.

(** strings.Split returns at least one piece. *)
Lemma Split_from_nonempty (sep : ascii) (s cur : string) : Split_from sep s cur ≠ [].
Proof.
  revert cur. induction s as [| c rest IH]; intros cur; cbn; [done |].
  destruct (Ascii.eqb c sep); [done | apply IH].
Qed.


Lemma Split_from_app_no_sep (sep : ascii) (r : string) : ∀ s cur,
  ContainsRune r sep = false →
  Split_from sep (r +:+ s) cur = Split_from sep s (cur +:+ r).
Proof.
  induction r as [| c r IH]; intros s cur Hr.
  - by rewrite string_app_nil_r.
  - cbn in Hr. apply orb_false_iff in Hr as [Hc Hr].
    rewrite string_app_cons. cbn. rewrite Hc, IH by done.
    by rewrite string_app_snoc.
Qed.

(** On runes that are no brackets the loop of splitXPATHParts, outside a
    key, gives the pieces that strings.Split gives for the runes written
    back, without an empty last piece. *)
Lemma splitXPATHParts_loop_Split (path : list string) : ∀ parts buf,
  Forall (fun r => r ≠ "[" ∧ r ≠ "]"
                   ∧ (r = "/" ∨ ContainsRune r "/" = false)) path →
  splitXPATHParts_loop path parts buf false
  = parts ++ (if decide (last (Split_from "/" (String.concat "" path) buf)
                         = Some "")
              then removelast (Split_from "/" (String.concat "" path) buf)
              else Split_from "/" (String.concat "" path) buf).
Proof.
  induction path as [| c rest IH]; intros parts buf Hpath.
  - cbn. destruct (String.length buf =? 0)%nat eqn:Hlen.
    + apply string_length_zero in Hlen as ->.
      rewrite decide_True by done. cbn. by rewrite app_nil_r.
    + rewrite decide_False; [done |].
      intros [= ->]. discriminate Hlen.
  - apply Forall_cons in Hpath as [(Ho & Hc & Hs) Hpath].
    rewrite concat_cons. cbn [splitXPATHParts_loop].
    destruct (String.eqb_spec c "/") as [-> | Hne]; cbn [negb].
    + rewrite IH by done. rewrite <- app_assoc. f_equal.
      rewrite string_app_cons. cbn [Split_from]. rewrite Ascii.eqb_refl.
      change ("" +:+ String.concat "" rest) with (String.concat "" rest).
      pose proof (Split_from_nonempty "/" (String.concat "" rest) "") as Hnil.
      destruct (Split_from "/" (String.concat "" rest) "") as [| x l] eqn:Hsplit;
        [done |].
      change (last (buf :: x :: l)) with (last (x :: l)).
      destruct (decide (last (x :: l) = Some "")); [| done].
      done.
    + destruct (String.eqb_spec c "[") as [-> | _]; [done |].
      destruct (String.eqb_spec c "]") as [-> | _]; [done |].
      destruct Hs as [-> | Hs]; [done |].
      rewrite IH by done. by rewrite Split_from_app_no_sep.
Qed.

(** Outside a key, the loop of splitXPATHParts reads runes that are no
    brackets and goes on outside a key. *)
Lemma splitXPATHParts_loop_plain (a : list string) : ∀ parts buf,
  "[" ∉ a → "]" ∉ a →
  ∃ parts' buf', ∀ rest,
    splitXPATHParts_loop (a ++ rest) parts buf false
    = splitXPATHParts_loop rest parts' buf' false.
Proof.
  induction a as [| c a IH]; intros parts buf Ho Hc.
  - by exists parts, buf.
  - apply not_elem_of_cons in Ho as [Ho Ho'].
    apply not_elem_of_cons in Hc as [Hc Hc'].
    destruct (String.eqb_spec c "/") as [-> | Hs].
    + destruct (IH (parts ++ [buf]) "" Ho' Hc') as (parts' & buf' & H).
      exists parts', buf'. intros rest. cbn. apply H.
    + destruct (IH parts (buf +:+ c) Ho' Hc') as (parts' & buf' & H).
      exists parts', buf'. intros rest. cbn.
      apply String.eqb_neq in Hs. rewrite Hs.
      assert (String.eqb c "[" = false) as -> by (by apply String.eqb_neq).
      assert (String.eqb c "]" = false) as -> by (by apply String.eqb_neq).
      cbn. apply H.
Qed.

(** Inside a key, the loop of splitXPATHParts drops every rune up to the
    next []]. *)
Lemma splitXPATHParts_loop_key (k : list string) : ∀ rest parts buf,
  "]" ∉ k →
  splitXPATHParts_loop (k ++ rest) parts buf true
  = splitXPATHParts_loop rest parts buf true.
Proof.
  induction k as [| c k IH]; intros rest parts buf Hc; [done |].
  apply not_elem_of_cons in Hc as [Hc Hc']. cbn.
  assert (String.eqb c "]" = false) as -> by (by apply String.eqb_neq).
  destruct (String.eqb c "/"); cbn; [by apply IH |].
  destruct (String.eqb c "["); by apply IH.
Qed.

(** The loop of splitXPATHParts never drops a part, nor a buffer that is not
    empty. *)
Lemma splitXPATHParts_loop_length (path : list string) : ∀ parts buf inKey,
  length parts + (if (String.length buf =? 0)%nat then 0 else 1)
  ≤ length (splitXPATHParts_loop path parts buf inKey).
Proof.
  induction path as [| c rest IH]; intros parts buf inKey; cbn.
  - destruct (String.length buf =? 0)%nat; [lia |]. rewrite length_app. cbn. lia.
  - destruct (String.eqb c "/").
    { destruct inKey; cbn; [apply IH |].
      etrans; [| apply IH]. rewrite length_app. cbn.
      destruct (String.length buf =? 0)%nat; lia. }
    destruct (String.eqb c "["); [apply IH |].
    destruct (String.eqb c "]"); [apply IH |].
    destruct inKey; cbn; [apply IH |].
    etrans; [| apply IH].
    destruct (String.length buf =? 0)%nat eqn:Hb; [lia |].
    assert ((String.length (buf +:+ c) =? 0)%nat = false) as ->; [| lia].
    rewrite string_app_length. destruct buf; [done | cbn; done].
Qed.

(** strings.Split with a separator of one character. *)
Lemma Split_from_one (sep : ascii) (s : string) : ∀ cur b,
  Split_from sep s cur = [b] ↔ ContainsRune s sep = false ∧ b = cur +:+ s.
Proof.
  induction s as [| c rest IH]; intros cur b; cbn.
  - rewrite string_app_nil_r. split; [by intros [= <-] | by intros [_ ->]].
  - destruct (Ascii.eqb c sep) eqn:Hs; cbn.
    + split; [| by intros []]. intros [= _ H].
      by apply Split_from_nonempty in H.
    + rewrite IH. by rewrite string_app_snoc.
Qed.

Lemma Split_from_two (sep : ascii) (s : string) : ∀ cur a b,
  Split_from sep s cur = [a; b]
  ↔ ∃ s1, a = cur +:+ s1 ∧ s = s1 +:+ String sep b
          ∧ ContainsRune s1 sep = false ∧ ContainsRune b sep = false.
Proof.
  induction s as [| c rest IH]; intros cur a b; cbn.
  - split; [done |]. intros (s1 & _ & H & _). by destruct s1.
  - destruct (Ascii.eqb c sep) eqn:Hs; cbn.
    + apply Ascii.eqb_eq in Hs as ->. split.
      * intros [= <- H]. apply Split_from_one in H as [Hb ->].
        exists "". by rewrite string_app_nil_r.
      * intros (s1 & -> & H & Hs1 & Hb). destruct s1 as [| x s1].
        -- injection H as ->. rewrite string_app_nil_r. f_equal.
           apply Split_from_one. done.
        -- rewrite string_app_cons in H. injection H as <- _.
           cbn in Hs1. by rewrite Ascii.eqb_refl in Hs1.
    + rewrite IH. split.
      * intros (s1 & -> & -> & Hs1 & Hb). exists (String c s1).
        rewrite string_app_snoc. cbn. by rewrite Hs.
      * intros (s1 & -> & H & Hs1 & Hb). destruct s1 as [| x s1].
        -- injection H as -> _. by rewrite Ascii.eqb_refl in Hs.
        -- rewrite string_app_cons in H. injection H as <- ->.
           exists s1. rewrite string_app_snoc.
           cbn in Hs1. apply orb_false_iff in Hs1 as [_ Hs1]. done.
Qed.

Lemma Split_from_length (sep : ascii) (s : string) : ∀ cur,
  length (Split_from sep s cur)
  = S (count_occ Ascii.ascii_dec (list_ascii_of_string s) sep).
Proof.
  induction s as [| c rest IH]; intros cur; cbn; [done |].
  destruct (Ascii.eqb_spec c sep) as [-> | Hne].
  - destruct (Ascii.ascii_dec sep sep); [| done]. cbn. by rewrite IH.
  - destruct (Ascii.ascii_dec c sep); [done |]. apply IH.
Qed.

Lemma ContainsRune_count (s : string) (r : ascii) :
  ContainsRune s r = false
  ↔ count_occ Ascii.ascii_dec (list_ascii_of_string s) r = 0.
Proof.
  induction s as [| c rest IH]; cbn; [done |].
  destruct (Ascii.eqb_spec c r) as [-> | Hne]; cbn.
  - destruct (Ascii.ascii_dec r r); [| done]. done.
  - destruct (Ascii.ascii_dec c r); [done |]. apply IH.
Qed.

(** The accumulator of the loop of removeXPATHNamespaces stays in front. *)
Lemma removeXPATHNamespaces_loop_acc (path : list string) : ∀ acc,
  removeXPATHNamespaces_loop path acc
  = match removeXPATHNamespaces path with
    | Ok r => Ok (acc ++ r)
    | other => other
    end.
Proof.
  unfold removeXPATHNamespaces.
  induction path as [| p rest IH]; intros acc; cbn; [by rewrite app_nil_r |].
  destruct (ContainsRune p ":").
  - destruct (Split p ":") as [| x [| p1 [| y l]]]; try done.
    rewrite (IH (acc ++ [p1])), (IH [p1]).
    destruct (removeXPATHNamespaces_loop rest []); [| done | done].
    by rewrite <- app_assoc.
  - rewrite (IH (acc ++ [p])), (IH [p]).
    destruct (removeXPATHNamespaces_loop rest []); [| done | done].
    by rewrite <- app_assoc.
Qed.

(** One turn of the loop of removeXPATHNamespaces. *)
Lemma removeXPATHNamespaces_cons (p : string) (rest : list string) :
  removeXPATHNamespaces (p :: rest)
  = match (if ContainsRune p ":"
           then match Split p ":" with
                | [_; p1] => Ok p1
                | _ => Err ("invalid path element that contains multiple namespace specfiers: " +:+ p)
                end
           else Ok p) with
    | Ok q => match removeXPATHNamespaces rest with
              | Ok r => Ok (q :: r)
              | other => other
              end
    | Err e => Err e
    | Panic => Panic
    end.
Proof.
  unfold removeXPATHNamespaces at 1. cbn.
  destruct (ContainsRune p ":").
  - destruct (Split p ":") as [| x [| p1 [| y l]]]; try done.
    by rewrite removeXPATHNamespaces_loop_acc.
  - by rewrite removeXPATHNamespaces_loop_acc.
Qed.

(** What one turn makes of a token: the token itself when it holds no colon,
    and what follows the colon when it holds one. *)
Lemma removeXPATHNamespaces_token (p q : string) :
  (if ContainsRune p ":"
   then match Split p ":" with
        | [_; p1] => Ok p1
        | _ => Err ("invalid path element that contains multiple namespace specfiers: " +:+ p)
        end
   else Ok p) = Ok q
  ↔ (ContainsRune p ":" = false ∧ q = p)
    ∨ (∃ ns, p = ns +:+ String ":" q ∧ ContainsRune ns ":" = false
             ∧ ContainsRune q ":" = false).
Proof.
  destruct (ContainsRune p ":") eqn:Hp.
  - split.
    + intros H. right.
      destruct (Split p ":") as [| x [| p1 [| y l]]] eqn:Hsplit; try done.
      injection H as ->. apply Split_from_two in Hsplit as (s1 & -> & -> & H1 & H2).
      by exists s1.
    + intros [[H _] | (ns & -> & H1 & H2)]; [done |].
      assert (Split (ns +:+ String ":" q) ":" = [ns; q]) as ->; [| done].
      apply Split_from_two. by exists ns.
  - split.
    + intros [= ->]. by left.
    + intros [[_ ->] | (ns & -> & H1 & H2)]; [done |].
      rewrite ContainsRune_app in Hp. cbn in Hp.
      by rewrite orb_true_r in Hp.
Qed.

(** A token with at most one colon passes a turn of the loop; a token with
    two colons or more fails it. *)
Lemma removeXPATHNamespaces_token_colons (p : string) :
  (count_occ Ascii.ascii_dec (list_ascii_of_string p) ":"%char ≤ 1
     ∧ ∃ q, (if ContainsRune p ":"
             then match Split p ":" with
                  | [_; p1] => Ok p1
                  | _ => Err ("invalid path element that contains multiple namespace specfiers: " +:+ p)
                  end
             else Ok p) = Ok q)
    ∨ (2 ≤ count_occ Ascii.ascii_dec (list_ascii_of_string p) ":"%char
       ∧ (if ContainsRune p ":"
          then match Split p ":" with
               | [_; p1] => Ok p1
               | _ => Err ("invalid path element that contains multiple namespace specfiers: " +:+ p)
               end
          else Ok p)
         = Err ("invalid path element that contains multiple namespace specfiers: "
                  +:+ p)).
Proof.
  pose proof (Split_from_length ":" p "") as Hlen.
  pose proof (ContainsRune_count p ":") as Hcnt.
  fold (Split p ":") in Hlen.
  destruct (ContainsRune p ":").
  - destruct (Split p ":") as [| x [| p1 [| y l]]]; cbn in Hlen.
    + done.
    + assert (count_occ Ascii.ascii_dec (list_ascii_of_string p) ":"%char = 0)
        as H0 by lia.
      apply Hcnt in H0. done.
    + left. split; [lia | by eexists].
    + right. split; [lia | done].
  - left. split; [| by eexists]. rewrite (proj1 Hcnt eq_refl). lia.
Qed.

Lemma removeXPATHNamespaces_no_Panic (path : list string) :
  removeXPATHNamespaces path ≠ Panic.
Proof.
  induction path as [| p rest IH]; [done |].
  rewrite removeXPATHNamespaces_cons.
  destruct (removeXPATHNamespaces_token_colons p) as [[_ [q ->]] | [_ ->]];
    [| done].
  by destruct (removeXPATHNamespaces rest).
Qed.

Lemma fixSchemaTreePath_loop_no_Panic (parts : list string) : ∀ callerPath remainingPath,
  fixSchemaTreePath_loop callerPath remainingPath parts ≠ Panic.
Proof.
  induction parts as [| p rest IH]; intros callerPath remainingPath; cbn; [done |].
  destruct (String.eqb p ".."); [| apply IH].
  destruct (length callerPath =? 0)%nat; [done | apply IH].
Qed.

End XPathMore.

(** X22. The tokens of splitXPATHParts hold no [/], no [[] and no []]. *)
Theorem splitXPATHParts_tokens_hold_no_separator (path : string) :
  Forall (fun tok => ygen.ContainsRune tok "/" = false
                     ∧ ygen.ContainsRune tok "[" = false
                     ∧ ygen.ContainsRune tok "]" = false)
    (ygen.splitXPATHParts path).
Proof.
  apply splitXPATHParts_loop_clean; [apply rangeRunes_clean | done | done].
Qed.

(** X23. On a path of valid UTF-8 without brackets splitXPATHParts returns
    the pieces of strings.Split(path, "/"), without the last piece when that
    one is empty: the empty path and a path that ends in [/] lose their
    last, empty piece, every other empty piece is kept. *)
Theorem splitXPATHParts_is_Split_without_empty_last_piece (path : string) :
  ygen.validUTF8 path →
  ygen.ContainsRune path "[" = false →
  ygen.ContainsRune path "]" = false →
  ygen.splitXPATHParts path
  = if decide (last (ygen.Split path "/") = Some "")
    then removelast (ygen.Split path "/")
    else ygen.Split path "/".
Proof.
  intros Hv Ho Hc. unfold ygen.splitXPATHParts, ygen.Split.
  rewrite splitXPATHParts_loop_Split; [by rewrite Hv |].
  pose proof (rangeRunes_clean path) as Hclean.
  pose proof (rangeRunes_no_ascii path "[" eq_refl Ho) as Hno.
  pose proof (rangeRunes_no_ascii path "]" eq_refl Hc) as Hnc.
  apply Forall_forall. intros r Hr.
  split; [by intros -> | split; [by intros -> |]].
  rewrite Forall_forall in Hclean.
  destruct (Hclean r Hr) as [_ Hx]. apply (Hx "/"%char eq_refl).
Qed.

Lemma splitXPATHParts_is_Split_without_empty_last_piece_witness :
  ygen.splitXPATHParts "/a//b/"
  = if decide (last (ygen.Split "/a//b/" "/") = Some "")
    then removelast (ygen.Split "/a//b/" "/")
    else ygen.Split "/a//b/" "/".
Proof.
  apply (splitXPATHParts_is_Split_without_empty_last_piece "/a//b/");
    reflexivity.
Defined.

(** X24. A key in brackets that follows a stretch of valid UTF-8 without
    brackets is dropped with its brackets, whatever it holds but []], a [/]
    or a [[] included; and when the closing bracket is missing, the rest of
    the path is dropped with it. *)
Theorem splitXPATHParts_drops_keys (a k b : string) :
  ygen.validUTF8 a →
  ygen.ContainsRune a "[" = false →
  ygen.ContainsRune a "]" = false →
  ygen.ContainsRune k "]" = false →
  ygen.splitXPATHParts (a +:+ String "[" (k +:+ String "]" b))
  = ygen.splitXPATHParts (a +:+ b)
  ∧ ygen.splitXPATHParts (a +:+ String "[" k) = ygen.splitXPATHParts a.
Proof.
  intros Hv Ho Hc Hk. unfold ygen.splitXPATHParts.
  rewrite !(rangeRunes_app_valid a) by done.
  destruct (splitXPATHParts_loop_plain (ygen.rangeRunes a) [] ""
              (rangeRunes_no_ascii a "[" eq_refl Ho)
              (rangeRunes_no_ascii a "]" eq_refl Hc)) as (parts' & buf' & H).
  rewrite !(rangeRunes_ascii "[") by done.
  split.
  - rewrite !H. destruct (rangeRunes_key k b Hk) as (rk & -> & Hnin).
    cbn [ygen.splitXPATHParts_loop String.eqb Ascii.eqb Bool.eqb].
    rewrite splitXPATHParts_loop_key by done. done.
  - rewrite H. rewrite <- (app_nil_r (ygen.rangeRunes a)). rewrite H.
    cbn [ygen.splitXPATHParts_loop String.eqb Ascii.eqb Bool.eqb].
    rewrite <- (app_nil_r (ygen.rangeRunes k)).
    rewrite splitXPATHParts_loop_key
      by (by apply (rangeRunes_no_ascii k "]")).
    done.
Qed.

Lemma splitXPATHParts_drops_keys_witness :
  ygen.splitXPATHParts "/interfaces/interface[name=a/b]/mtu"
  = ygen.splitXPATHParts "/interfaces/interface/mtu"
  ∧ ygen.splitXPATHParts "/interfaces/interface[name=a/b"
    = ygen.splitXPATHParts "/interfaces/interface".
Proof.
  apply (splitXPATHParts_drops_keys "/interfaces/interface" "name=a/b" "/mtu");
    reflexivity.
Defined.

(** X25. removeXPATHNamespaces returns [r] exactly when [r] has one token
    for each token of the path, in order: the token itself when it holds no
    colon, and what follows the colon when it holds one colon. The tokens of
    [r] hold no colon, so that removeXPATHNamespaces returns [r] for [r]. *)
Theorem removeXPATHNamespaces_Ok_iff (path r : list string) :
  (ygen.removeXPATHNamespaces path = Ok r
   ↔ Forall2 (fun p q =>
                (ygen.ContainsRune p ":" = false ∧ q = p)
                ∨ (∃ ns, p = ns +:+ String ":" q
                         ∧ ygen.ContainsRune ns ":" = false
                         ∧ ygen.ContainsRune q ":" = false)) path r)
  ∧ (ygen.removeXPATHNamespaces path = Ok r →
     ygen.removeXPATHNamespaces r = Ok r).
Proof.
  assert (Hiff : ∀ path r,
    ygen.removeXPATHNamespaces path = Ok r
    ↔ Forall2 (fun p q =>
                 (ygen.ContainsRune p ":" = false ∧ q = p)
                 ∨ (∃ ns, p = ns +:+ String ":" q
                          ∧ ygen.ContainsRune ns ":" = false
                          ∧ ygen.ContainsRune q ":" = false)) path r).
  { clear. induction path as [| p rest IH]; intros r.
    - split; [intros [= <-]; constructor | by intros ->%Forall2_nil_inv_l].
    - rewrite removeXPATHNamespaces_cons. split.
      + intros H.
        destruct (if ygen.ContainsRune p ":" then _ else _) as [q | |] eqn:Hq;
          [| done | done].
        destruct (ygen.removeXPATHNamespaces rest) as [r' | |] eqn:Hr;
          [| done | done].
        injection H as <-. constructor; [by apply removeXPATHNamespaces_token |].
        by apply IH.
      + intros (q & r' & Hq & Hr & ->)%Forall2_cons_inv_l.
        apply removeXPATHNamespaces_token in Hq. rewrite Hq.
        apply IH in Hr. by rewrite Hr. }
  split; [apply Hiff |].
  intros H. apply Hiff in H. apply Hiff.
  induction H as [| p q path r Hpq H IH]; constructor; [| done].
  left. split; [| done]. by destruct Hpq as [[H1 ->] | (ns & _ & _ & H2)].
Qed.

(** X26. removeXPATHNamespaces never panics. It returns no error exactly when
    every token holds at most one colon; otherwise its error names the first
    token that holds two colons or more. *)
Theorem removeXPATHNamespaces_error (path : list string) :
  ygen.removeXPATHNamespaces path ≠ Panic
  ∧ (is_Ok (ygen.removeXPATHNamespaces path)
     ↔ Forall (fun p => count_occ Ascii.ascii_dec (list_ascii_of_string p) ":"%char ≤ 1)
         path)
  ∧ (∀ pre p post,
       path = pre ++ p :: post →
       Forall (fun p => count_occ Ascii.ascii_dec (list_ascii_of_string p) ":"%char ≤ 1)
         pre →
       2 ≤ count_occ Ascii.ascii_dec (list_ascii_of_string p) ":"%char →
       ygen.removeXPATHNamespaces path
       = Err ("invalid path element that contains multiple namespace specfiers: "
                +:+ p)).
Proof.
  pose proof removeXPATHNamespaces_token_colons as Htok.
  split; [apply removeXPATHNamespaces_no_Panic | split].
  - induction path as [| p rest IH]; [by split; [constructor |] |].
    rewrite removeXPATHNamespaces_cons, Forall_cons.
    destruct (Htok p) as [[Hle [q ->]] | [Hge ->]].
    + rewrite <- IH.
      destruct (ygen.removeXPATHNamespaces rest); cbn; tauto.
    + cbn. split; [done | lia].
  - intros pre p post -> Hpre Hp.
    induction pre as [| x pre IH]; cbn [app].
    + rewrite removeXPATHNamespaces_cons.
      destruct (Htok p) as [[Hle _] | [_ ->]]; [lia | done].
    + apply Forall_cons in Hpre as [Hx Hpre].
      rewrite removeXPATHNamespaces_cons.
      destruct (Htok x) as [[_ [q ->]] | [Hge _]]; [| lia].
      by rewrite IH.
Qed.

(** X27. A path that begins with [/] is resolved without the calling node,
    which may be nil: fixSchemaTreePath returns the tokens of what follows
    the [/], with their namespaces removed; a [..] among them stays as it
    is. *)
Theorem fixSchemaTreePath_absolute (Entry : Type)
    (SchemaTreePath : Entry → string) (s : string) (caller : option Entry) :
  ygen.fixSchemaTreePath SchemaTreePath (String "/" s) caller
  = ygen.removeXPATHNamespaces (ygen.splitXPATHParts s).
Proof.
  unfold ygen.fixSchemaTreePath.
  assert (ygen.splitXPATHParts (String "/" s) = "" :: ygen.splitXPATHParts s)
    as ->.
  { unfold ygen.splitXPATHParts. rewrite rangeRunes_ascii by done. cbn.
    apply (splitXPATHParts_loop_parts (ygen.rangeRunes s) [""] [] "" false). }
  rewrite removeXPATHNamespaces_cons. cbn.
  by destruct (ygen.removeXPATHNamespaces (ygen.splitXPATHParts s)).
Qed.

(** X28. fixSchemaTreePath panics (the index 0 is out of range) exactly when
    the path has no tokens; a path without brackets has no tokens exactly
    when it is empty. *)
Theorem fixSchemaTreePath_panics_iff_no_tokens (Entry : Type)
    (SchemaTreePath : Entry → string) (path : string) (caller : option Entry) :
  (ygen.fixSchemaTreePath SchemaTreePath path caller = Panic
   ↔ ygen.splitXPATHParts path = [])
  ∧ (ygen.ContainsRune path "[" = false →
     ygen.ContainsRune path "]" = false →
     (ygen.splitXPATHParts path = [] ↔ path = "")).
Proof.
  split.
  - unfold ygen.fixSchemaTreePath.
    destruct (ygen.splitXPATHParts path) as [| p0 l].
    { done. }
    split; [| done]. rewrite removeXPATHNamespaces_cons.
    destruct (if ygen.ContainsRune p0 ":" then _ else _) as [q | |] eqn:Hq.
    + pose proof (removeXPATHNamespaces_no_Panic l) as Hnp.
      destruct (ygen.removeXPATHNamespaces l) as [r | |]; [| done | done].
      cbn [mbind result_bind bindR].
      destruct (String.eqb q ".."); cbn [negb].
      * destruct caller as [c |]; [| done].
        destruct (_ <? 2)%nat; [done |].
        intros H. by apply fixSchemaTreePath_loop_no_Panic in H.
      * by destruct (String.eqb q "").
    + done.
    + destruct (ygen.ContainsRune p0 ":"); [| done].
      by destruct (ygen.Split p0 ":") as [| x [| p1 [| y l']]].
  - intros Ho Hc. split; [| by intros ->].
    destruct path as [| c rest]; [done |]. intros H. exfalso.
    pose proof (rangeRunes_clean (String c rest)) as Hclean.
    pose proof (rangeRunes_no_ascii _ "[" eq_refl Ho) as Hno.
    pose proof (rangeRunes_no_ascii _ "]" eq_refl Hc) as Hnc.
    unfold ygen.splitXPATHParts in H.
    assert (∃ r rs, ygen.rangeRunes (String c rest) = r :: rs) as (r & rs & Hr).
    { destruct (rangeRunes_cases c rest)
        as [[_ Hd] | [[_ Hd] | [_ (tail & rest' & -> & _ & _ & Hd)]]];
        rewrite Hd; by eexists _, _. }
    rewrite Hr in H, Hclean, Hno, Hnc.
    apply Forall_cons in Hclean as [[Hne _] _].
    apply not_elem_of_cons in Hno as [Hno _].
    apply not_elem_of_cons in Hnc as [Hnc _].
    cbn [ygen.splitXPATHParts_loop] in H.
    destruct (String.eqb r "/"); cbn [negb] in H.
    + pose proof (splitXPATHParts_loop_length rs ([] ++ [""]) "" false) as Hlen.
      rewrite H in Hlen. cbn in Hlen. lia.
    + assert (String.eqb r "[" = false) as Hro
        by (apply String.eqb_neq; congruence).
      assert (String.eqb r "]" = false) as Hrc
        by (apply String.eqb_neq; congruence).
      rewrite Hro, Hrc in H.
      pose proof (splitXPATHParts_loop_length rs [] ("" +:+ r) false) as Hlen.
      rewrite H in Hlen. destruct r; [done |].
      change ("" +:+ String a r) with (String a r) in Hlen. cbn in Hlen. lia.
Qed.
